(** * AVXECC: 4-way vectorised X25519 (AVX2), field arithmetic in radix 2^29.

    Shallow embedding of gfparith.c, moncurve.c, tedcurve.c, ecdh.c and the
    conversion routines of utils.h.  The AVX2 intrinsics of intrin.h form an
    interface ([Vec]); the code is written once over that interface and run on
    four 64-bit lanes ([m256i]) or on a single 64-bit lane ([Z]). *)

From Stdlib Require Import ZArith List Lia Bool Znumtheory Zpow_facts Setoid Morphisms.
From Stdlib Require Import Zmod.ZmodInv.
Import ListNotations.
Local Open Scope Z_scope.

(** ** gfparith.h: constants *)

Definition NWORDS : Z := 9.
Definition BITS29 : Z := 29.
Definition MASK29 : Z := 0x1FFFFFFF.
Definition CONSTC : Z := 1216.
Definition CONSTA : Z := 486662.
Definition LSWP29 : Z := 0x1FFFFB40.

(** ** intrin.h: the vector interface *)

Class Vec (T : Type) : Type := {
  VADD : T -> T -> T;
  VSUB : T -> T -> T;
  VMUL : T -> T -> T;
  VABS8 : T -> T;
  VXOR : T -> T -> T;
  VAND : T -> T -> T;
  VOR : T -> T -> T;
  VSHR : T -> Z -> T;
  VSHL : T -> Z -> T;
  VSET164 : Z -> T;
  VSHUF32 : T -> Z -> T
}.

Definition VZERO {T} `{Vec T} : T := VSET164 0.
Definition VMAC {T} `{Vec T} (z x y : T) : T := VADD z (VMUL x y).
(** [VBROAD64(VLOAD128(&c))] broadcasts the 64-bit word stored at [c]. *)
Definition VBROAD64 {T} `{Vec T} (c : Z) : T := VSET164 c.

(** One 64-bit lane: an integer in [0, 2^64), wrap-around written out. *)

Definition two64 : Z := Eval cbv in 2 ^ 64.
Definition two32 : Z := Eval cbv in 2 ^ 32.
Definition wrap64 (x : Z) : Z := Z.land x 0xFFFFFFFFFFFFFFFF.
Definition lo32 (x : Z) : Z := Z.land x 0xFFFFFFFF.

(** [_mm256_abs_epi8] on the eight signed bytes of a lane. *)
Definition abs8 (b : Z) : Z := if b <? 128 then b else 256 - b.
Definition byte_of (x k : Z) : Z := Z.land (Z.shiftr x (8 * k)) 0xFF.
Definition abs8_lane (x : Z) : Z :=
  fold_right (fun k acc => acc + Z.shiftl (abs8 (byte_of x k)) (8 * k)) 0
    [0; 1; 2; 3; 4; 5; 6; 7].

(** [_mm256_shuffle_epi32] restricted to one 64-bit lane: the selectors of the
    two 32-bit elements of the lane must stay inside the lane, as 0xA0 does
    (both elements take the low element). *)
Definition shuf32_lane (x imm : Z) : Z :=
  if imm =? 0xA0 then lo32 x + Z.shiftl (lo32 x) 32 else x.

#[global] Instance Lane64 : Vec Z := {
  VADD x y := wrap64 (x + y);
  VSUB x y := wrap64 (x - y);
  VMUL x y := lo32 x * lo32 y;
  VABS8 x := abs8_lane x;
  VXOR x y := Z.lxor x y;
  VAND x y := Z.land x y;
  VOR x y := Z.lor x y;
  VSHR x n := Z.shiftr x n;
  VSHL x n := wrap64 (Z.shiftl x n);
  VSET164 c := wrap64 c;
  VSHUF32 x imm := shuf32_lane x imm
}.

(** Four 64-bit lanes; [q0] is the least significant lane. *)

Record m256i : Type := mk256 { q0 : Z; q1 : Z; q2 : Z; q3 : Z }.

Inductive lane_id : Type := L0 | L1 | L2 | L3.

Definition lane (j : lane_id) (v : m256i) : Z :=
  match j with L0 => q0 v | L1 => q1 v | L2 => q2 v | L3 => q3 v end.

Definition vmap (f : Z -> Z) (x : m256i) : m256i :=
  mk256 (f (q0 x)) (f (q1 x)) (f (q2 x)) (f (q3 x)).
Definition vmap2 (f : Z -> Z -> Z) (x y : m256i) : m256i :=
  mk256 (f (q0 x) (q0 y)) (f (q1 x) (q1 y)) (f (q2 x) (q2 y)) (f (q3 x) (q3 y)).

(** The 32-bit elements of a 128-bit half (two lanes), and the shuffle of
    [_mm256_shuffle_epi32] inside such a half. *)
Definition elem32 (lo hi : Z) (k : Z) : Z :=
  if k =? 0 then lo32 lo
  else if k =? 1 then lo32 (Z.shiftr lo 32)
  else if k =? 2 then lo32 hi
  else lo32 (Z.shiftr hi 32).
Definition sel32 (imm i : Z) : Z := Z.land (Z.shiftr imm (2 * i)) 3.
Definition shuf32_half (lo hi imm : Z) : Z * Z :=
  (elem32 lo hi (sel32 imm 0) + Z.shiftl (elem32 lo hi (sel32 imm 1)) 32,
   elem32 lo hi (sel32 imm 2) + Z.shiftl (elem32 lo hi (sel32 imm 3)) 32).
Definition shuf32_256 (x : m256i) (imm : Z) : m256i :=
  let h0 := shuf32_half (q0 x) (q1 x) imm in
  let h1 := shuf32_half (q2 x) (q3 x) imm in
  mk256 (fst h0) (snd h0) (fst h1) (snd h1).

#[global] Instance Avx2 : Vec m256i := {
  VADD := vmap2 (VADD (T:=Z));
  VSUB := vmap2 (VSUB (T:=Z));
  VMUL := vmap2 (VMUL (T:=Z));
  VABS8 := vmap (VABS8 (T:=Z));
  VXOR := vmap2 (VXOR (T:=Z));
  VAND := vmap2 (VAND (T:=Z));
  VOR := vmap2 (VOR (T:=Z));
  VSHR x n := vmap (fun a => VSHR a n) x;
  VSHL x n := vmap (fun a => VSHL a n) x;
  VSET164 c := mk256 (VSET164 c) (VSET164 c) (VSET164 c) (VSET164 c);
  VSHUF32 := shuf32_256
}.

(** [VSET64(W, X, Y, Z)], [VEXTR32] and [VPERM64] of the driver. *)
Definition VSET64 (w x y z : Z) : m256i :=
  mk256 (wrap64 z) (wrap64 y) (wrap64 x) (wrap64 w).
Definition VEXTR32 (x : m256i) (k : Z) : Z :=
  let q := match k / 2 with 0 => q0 x | 1 => q1 x | 2 => q2 x | _ => q3 x end in
  if Z.even k then lo32 q else lo32 (Z.shiftr q 32).
Definition VPERM64 (x : m256i) (imm : Z) : m256i :=
  let pick i := match sel32 imm i with 0 => q0 x | 1 => q1 x | 2 => q2 x | _ => q3 x end in
  mk256 (pick 0) (pick 1) (pick 2) (pick 3).

(** ** Field elements: nine limbs, radix 2^29 *)

Record fe (T : Type) : Type :=
  mkfe { f0 : T; f1 : T; f2 : T; f3 : T; f4 : T; f5 : T; f6 : T; f7 : T; f8 : T }.
Arguments mkfe {T}.
Arguments f0 {T}. Arguments f1 {T}. Arguments f2 {T}.
Arguments f3 {T}. Arguments f4 {T}. Arguments f5 {T}.
Arguments f6 {T}. Arguments f7 {T}. Arguments f8 {T}.

(** moncurve.h and tedcurve.h: the point types. *)
Record ProPoint (T : Type) : Type := mkPro { p_x : fe T; p_y : fe T; p_z : fe T }.
Arguments mkPro {T}. Arguments p_x {T}. Arguments p_y {T}. Arguments p_z {T}.

Record ExtPoint (T : Type) : Type :=
  mkExt { e_x : fe T; e_y : fe T; e_z : fe T; e_e : fe T; e_h : fe T }.
Arguments mkExt {T}. Arguments e_x {T}. Arguments e_y {T}. Arguments e_z {T}.
Arguments e_e {T}. Arguments e_h {T}.

Definition fe_map {A B} (g : A -> B) (a : fe A) : fe B :=
  mkfe (g (f0 a)) (g (f1 a)) (g (f2 a)) (g (f3 a)) (g (f4 a))
       (g (f5 a)) (g (f6 a)) (g (f7 a)) (g (f8 a)).
Definition fe_list {A} (a : fe A) : list A :=
  [f0 a; f1 a; f2 a; f3 a; f4 a; f5 a; f6 a; f7 a; f8 a].
Definition fe_all {A} (P : A -> Prop) (a : fe A) : Prop :=
  P (f0 a) /\ P (f1 a) /\ P (f2 a) /\ P (f3 a) /\ P (f4 a) /\
  P (f5 a) /\ P (f6 a) /\ P (f7 a) /\ P (f8 a).
Definition fe_const {A} (c : A) : fe A := mkfe c c c c c c c c c.

(** ** gfparith.c *)

Section Field.
Context {T : Type} `{Vec T}.

(** Arrays of vectors indexed by a C [int]: reads outside the array (undefined
    in C, not reached by the code) yield [d]; writes outside do nothing. *)
Definition word {A} (d : A) (l : list A) (i : Z) : A := nth (Z.to_nat i) l d.
Fixpoint upd_nat {A} (l : list A) (i : nat) (v : A) : list A :=
  match l, i with
  | [], _ => []
  | _ :: t, O => v :: t
  | h :: t, S i' => h :: upd_nat t i' v
  end.
Definition upd {A} (l : list A) (i : Z) (v : A) : list A := upd_nat l (Z.to_nat i) v.

Definition mpi29_cswap_avx2 (r a : fe T) (b : T) : fe T * fe T :=
  let r0 := f0 r in let r1 := f1 r in let r2 := f2 r in
  let r3 := f3 r in let r4 := f4 r in let r5 := f5 r in
  let r6 := f6 r in let r7 := f7 r in let r8 := f8 r in
  let a0 := f0 a in let a1 := f1 a in let a2 := f2 a in
  let a3 := f3 a in let a4 := f4 a in let a5 := f5 a in
  let a6 := f6 a in let a7 := f7 a in let a8 := f8 a in
  let mask := VSUB VZERO b in
  let x0 := VXOR r0 a0 in let x1 := VXOR r1 a1 in let x2 := VXOR r2 a2 in
  let x3 := VXOR r3 a3 in let x4 := VXOR r4 a4 in let x5 := VXOR r5 a5 in
  let x6 := VXOR r6 a6 in let x7 := VXOR r7 a7 in let x8 := VXOR r8 a8 in
  let x0 := VAND x0 mask in let x1 := VAND x1 mask in let x2 := VAND x2 mask in
  let x3 := VAND x3 mask in let x4 := VAND x4 mask in let x5 := VAND x5 mask in
  let x6 := VAND x6 mask in let x7 := VAND x7 mask in let x8 := VAND x8 mask in
  let r0 := VXOR r0 x0 in let r1 := VXOR r1 x1 in let r2 := VXOR r2 x2 in
  let r3 := VXOR r3 x3 in let r4 := VXOR r4 x4 in let r5 := VXOR r5 x5 in
  let r6 := VXOR r6 x6 in let r7 := VXOR r7 x7 in let r8 := VXOR r8 x8 in
  let a0 := VXOR a0 x0 in let a1 := VXOR a1 x1 in let a2 := VXOR a2 x2 in
  let a3 := VXOR a3 x3 in let a4 := VXOR a4 x4 in let a5 := VXOR a5 x5 in
  let a6 := VXOR a6 x6 in let a7 := VXOR a7 x7 in let a8 := VXOR a8 x8 in
  (mkfe r0 r1 r2 r3 r4 r5 r6 r7 r8, mkfe a0 a1 a2 a3 a4 a5 a6 a7 a8).

Definition mpi29_gfp_add_avx2 (a b : fe T) : fe T :=
  let a0 := f0 a in let a1 := f1 a in let a2 := f2 a in
  let a3 := f3 a in let a4 := f4 a in let a5 := f5 a in
  let a6 := f6 a in let a7 := f7 a in let a8 := f8 a in
  let b0 := f0 b in let b1 := f1 b in let b2 := f2 b in
  let b3 := f3 b in let b4 := f4 b in let b5 := f5 b in
  let b6 := f6 b in let b7 := f7 b in let b8 := f8 b in
  let r0 := VADD a0 b0 in let r1 := VADD a1 b1 in let r2 := VADD a2 b2 in
  let r3 := VADD a3 b3 in let r4 := VADD a4 b4 in let r5 := VADD a5 b5 in
  let r6 := VADD a6 b6 in let r7 := VADD a7 b7 in let r8 := VADD a8 b8 in
  mkfe r0 r1 r2 r3 r4 r5 r6 r7 r8.

Definition mpi29_gfp_sub_avx2 (a b : fe T) : fe T :=
  let a0 := f0 a in let a1 := f1 a in let a2 := f2 a in
  let a3 := f3 a in let a4 := f4 a in let a5 := f5 a in
  let a6 := f6 a in let a7 := f7 a in let a8 := f8 a in
  let b0 := f0 b in let b1 := f1 b in let b2 := f2 b in
  let b3 := f3 b in let b4 := f4 b in let b5 := f5 b in
  let b6 := f6 b in let b7 := f7 b in let b8 := f8 b in
  let VDLSWP := VSET164 (LSWP29*2) in
  let VDWRDP := VSET164 (MASK29*2) in
  let r0 := VADD VDLSWP (VSUB a0 b0) in
  let r1 := VADD VDWRDP (VSUB a1 b1) in
  let r2 := VADD VDWRDP (VSUB a2 b2) in
  let r3 := VADD VDWRDP (VSUB a3 b3) in
  let r4 := VADD VDWRDP (VSUB a4 b4) in
  let r5 := VADD VDWRDP (VSUB a5 b5) in
  let r6 := VADD VDWRDP (VSUB a6 b6) in
  let r7 := VADD VDWRDP (VSUB a7 b7) in
  let r8 := VADD VDWRDP (VSUB a8 b8) in
  mkfe r0 r1 r2 r3 r4 r5 r6 r7 r8.

Definition mpi29_gfp_sbc_avx2 (a b : fe T) : fe T :=
  let a0 := f0 a in let a1 := f1 a in let a2 := f2 a in
  let a3 := f3 a in let a4 := f4 a in let a5 := f5 a in
  let a6 := f6 a in let a7 := f7 a in let a8 := f8 a in
  let b0 := f0 b in let b1 := f1 b in let b2 := f2 b in
  let b3 := f3 b in let b4 := f4 b in let b5 := f5 b in
  let b6 := f6 b in let b7 := f7 b in let b8 := f8 b in
  let VDLSWP := VSET164 (LSWP29*2) in
  let VDWRDP := VSET164 (MASK29*2) in
  let VMASK29 := VSET164 MASK29 in
  let VCONSTC := VSET164 CONSTC in
  let r0 := VADD VDLSWP (VSUB a0 b0) in
  let r1 := VADD VDWRDP (VSUB a1 b1) in
  let r2 := VADD VDWRDP (VSUB a2 b2) in
  let r3 := VADD VDWRDP (VSUB a3 b3) in
  let r4 := VADD VDWRDP (VSUB a4 b4) in
  let r5 := VADD VDWRDP (VSUB a5 b5) in
  let r6 := VADD VDWRDP (VSUB a6 b6) in
  let r7 := VADD VDWRDP (VSUB a7 b7) in
  let r8 := VADD VDWRDP (VSUB a8 b8) in
  let r1 := VADD r1 (VSHR r0 BITS29) in let r0 := VAND r0 VMASK29 in
  let r2 := VADD r2 (VSHR r1 BITS29) in let r1 := VAND r1 VMASK29 in
  let r3 := VADD r3 (VSHR r2 BITS29) in let r2 := VAND r2 VMASK29 in
  let r4 := VADD r4 (VSHR r3 BITS29) in let r3 := VAND r3 VMASK29 in
  let r5 := VADD r5 (VSHR r4 BITS29) in let r4 := VAND r4 VMASK29 in
  let r6 := VADD r6 (VSHR r5 BITS29) in let r5 := VAND r5 VMASK29 in
  let r7 := VADD r7 (VSHR r6 BITS29) in let r6 := VAND r6 VMASK29 in
  let r8 := VADD r8 (VSHR r7 BITS29) in let r7 := VAND r7 VMASK29 in
  let temp := VSHR r8 BITS29 in
  let temp := VMUL temp VCONSTC in
  let r0 := VADD r0 temp in
  let r8 := VAND r8 VMASK29 in
  mkfe r0 r1 r2 r3 r4 r5 r6 r7 r8.

Definition mpi29_gfp_mul_avx2 (a b : fe T) : fe T :=
  let a0 := f0 a in let a1 := f1 a in let a2 := f2 a in
  let a3 := f3 a in let a4 := f4 a in let a5 := f5 a in
  let a6 := f6 a in let a7 := f7 a in let a8 := f8 a in
  let b0 := f0 b in let b1 := f1 b in let b2 := f2 b in
  let b3 := f3 b in let b4 := f4 b in let b5 := f5 b in
  let b6 := f6 b in let b7 := f7 b in let b8 := f8 b in
  let VMASK29 := VSET164 MASK29 in
  let VCONSTC := VSET164 CONSTC in
  let t0 := VMUL a0 b0 in
  let t1 := VMUL a0 b1 in let t1 := VMAC t1 a1 b0 in
  let t2 := VMUL a0 b2 in let t2 := VMAC t2 a1 b1 in let t2 := VMAC t2 a2 b0 in
  let t3 := VMUL a0 b3 in let t3 := VMAC t3 a1 b2 in let t3 := VMAC t3 a2 b1 in
  let t3 := VMAC t3 a3 b0 in
  let t4 := VMUL a0 b4 in let t4 := VMAC t4 a1 b3 in let t4 := VMAC t4 a2 b2 in
  let t4 := VMAC t4 a3 b1 in let t4 := VMAC t4 a4 b0 in
  let t5 := VMUL a0 b5 in let t5 := VMAC t5 a1 b4 in let t5 := VMAC t5 a2 b3 in
  let t5 := VMAC t5 a3 b2 in let t5 := VMAC t5 a4 b1 in let t5 := VMAC t5 a5 b0 in
  let t6 := VMUL a0 b6 in let t6 := VMAC t6 a1 b5 in let t6 := VMAC t6 a2 b4 in
  let t6 := VMAC t6 a3 b3 in let t6 := VMAC t6 a4 b2 in let t6 := VMAC t6 a5 b1 in
  let t6 := VMAC t6 a6 b0 in
  let t7 := VMUL a0 b7 in let t7 := VMAC t7 a1 b6 in let t7 := VMAC t7 a2 b5 in
  let t7 := VMAC t7 a3 b4 in let t7 := VMAC t7 a4 b3 in let t7 := VMAC t7 a5 b2 in
  let t7 := VMAC t7 a6 b1 in let t7 := VMAC t7 a7 b0 in
  let t8 := VMUL a0 b8 in let t8 := VMAC t8 a1 b7 in let t8 := VMAC t8 a2 b6 in
  let t8 := VMAC t8 a3 b5 in let t8 := VMAC t8 a4 b4 in let t8 := VMAC t8 a5 b3 in
  let t8 := VMAC t8 a6 b2 in let t8 := VMAC t8 a7 b1 in let t8 := VMAC t8 a8 b0 in
  let accu := VSHR t8 BITS29 in
  let t8 := VAND t8 VMASK29 in
  let accu := VMAC accu a1 b8 in let accu := VMAC accu a2 b7 in
  let accu := VMAC accu a3 b6 in let accu := VMAC accu a4 b5 in
  let accu := VMAC accu a5 b4 in let accu := VMAC accu a6 b3 in
  let accu := VMAC accu a7 b2 in let accu := VMAC accu a8 b1 in
  let r0 := VAND accu VMASK29 in
  let accu := VSHR accu BITS29 in
  let accu := VMAC accu a2 b8 in let accu := VMAC accu a3 b7 in
  let accu := VMAC accu a4 b6 in let accu := VMAC accu a5 b5 in
  let accu := VMAC accu a6 b4 in let accu := VMAC accu a7 b3 in
  let accu := VMAC accu a8 b2 in
  let r1 := VAND accu VMASK29 in
  let accu := VSHR accu BITS29 in
  let accu := VMAC accu a3 b8 in let accu := VMAC accu a4 b7 in
  let accu := VMAC accu a5 b6 in let accu := VMAC accu a6 b5 in
  let accu := VMAC accu a7 b4 in let accu := VMAC accu a8 b3 in
  let r2 := VAND accu VMASK29 in
  let accu := VSHR accu BITS29 in
  let accu := VMAC accu a4 b8 in let accu := VMAC accu a5 b7 in
  let accu := VMAC accu a6 b6 in let accu := VMAC accu a7 b5 in
  let accu := VMAC accu a8 b4 in
  let r3 := VAND accu VMASK29 in
  let accu := VSHR accu BITS29 in
  let accu := VMAC accu a5 b8 in let accu := VMAC accu a6 b7 in
  let accu := VMAC accu a7 b6 in let accu := VMAC accu a8 b5 in
  let r4 := VAND accu VMASK29 in
  let accu := VSHR accu BITS29 in
  let accu := VMAC accu a6 b8 in let accu := VMAC accu a7 b7 in
  let accu := VMAC accu a8 b6 in
  let r5 := VAND accu VMASK29 in
  let accu := VSHR accu BITS29 in
  let accu := VMAC accu a7 b8 in let accu := VMAC accu a8 b7 in
  let r6 := VAND accu VMASK29 in
  let accu := VSHR accu BITS29 in
  let accu := VMAC accu a8 b8 in
  let r7 := VAND accu VMASK29 in
  let r8 := VSHR accu BITS29 in
  let accu := VMAC t0 r0 VCONSTC in
  let r0 := VAND accu VMASK29 in
  let accu := VADD t1 (VSHR accu BITS29) in let accu := VMAC accu r1 VCONSTC in
  let r1 := VAND accu VMASK29 in
  let accu := VADD t2 (VSHR accu BITS29) in let accu := VMAC accu r2 VCONSTC in
  let r2 := VAND accu VMASK29 in
  let accu := VADD t3 (VSHR accu BITS29) in let accu := VMAC accu r3 VCONSTC in
  let r3 := VAND accu VMASK29 in
  let accu := VADD t4 (VSHR accu BITS29) in let accu := VMAC accu r4 VCONSTC in
  let r4 := VAND accu VMASK29 in
  let accu := VADD t5 (VSHR accu BITS29) in let accu := VMAC accu r5 VCONSTC in
  let r5 := VAND accu VMASK29 in
  let accu := VADD t6 (VSHR accu BITS29) in let accu := VMAC accu r6 VCONSTC in
  let r6 := VAND accu VMASK29 in
  let accu := VADD t7 (VSHR accu BITS29) in let accu := VMAC accu r7 VCONSTC in
  let r7 := VAND accu VMASK29 in
  let accu := VADD t8 (VSHR accu BITS29) in let accu := VMAC accu r8 VCONSTC in
  let r8 := VAND accu VMASK29 in
  let accu := VSHR accu BITS29 in
  let r0 := VMAC r0 accu VCONSTC in
  mkfe r0 r1 r2 r3 r4 r5 r6 r7 r8.

Definition mpi29_gfp_mul29_avx2 (a : fe T) (b : Z) : fe T :=
  let a0 := f0 a in let a1 := f1 a in let a2 := f2 a in
  let a3 := f3 a in let a4 := f4 a in let a5 := f5 a in
  let a6 := f6 a in let a7 := f7 a in let a8 := f8 a in
  let vb := VSET164 b in
  let VMASK29 := VSET164 MASK29 in
  let VCONSTC := VSET164 CONSTC in
  let accu := VMUL a0 vb in let r0 := VAND accu VMASK29 in let accu := VSHR accu BITS29 in
  let accu := VMAC accu a1 vb in let r1 := VAND accu VMASK29 in let accu := VSHR accu BITS29 in
  let accu := VMAC accu a2 vb in let r2 := VAND accu VMASK29 in let accu := VSHR accu BITS29 in
  let accu := VMAC accu a3 vb in let r3 := VAND accu VMASK29 in let accu := VSHR accu BITS29 in
  let accu := VMAC accu a4 vb in let r4 := VAND accu VMASK29 in let accu := VSHR accu BITS29 in
  let accu := VMAC accu a5 vb in let r5 := VAND accu VMASK29 in let accu := VSHR accu BITS29 in
  let accu := VMAC accu a6 vb in let r6 := VAND accu VMASK29 in let accu := VSHR accu BITS29 in
  let accu := VMAC accu a7 vb in let r7 := VAND accu VMASK29 in let accu := VSHR accu BITS29 in
  let accu := VMAC accu a8 vb in let r8 := VAND accu VMASK29 in
  let accu := VMUL VCONSTC (VSHR accu BITS29) in
  let r0 := VADD r0 (VAND accu VMASK29) in
  let r1 := VADD r1 (VSHR accu BITS29) in
  mkfe r0 r1 r2 r3 r4 r5 r6 r7 r8.

Definition mpi29_gfp_sqr_avx2 (a : fe T) : fe T :=
  let a0 := f0 a in let a1 := f1 a in let a2 := f2 a in
  let a3 := f3 a in let a4 := f4 a in let a5 := f5 a in
  let a6 := f6 a in let a7 := f7 a in let a8 := f8 a in
  let VMASK29 := VSET164 MASK29 in
  let VCONSTC := VSET164 CONSTC in
  let t0 := VMUL a0 a0 in
  let accu := VMUL a0 a1 in
  let t1 := VSHL accu 1 in
  let accu := VMUL a0 a2 in
  let t2 := VSHL accu 1 in let t2 := VMAC t2 a1 a1 in
  let accu := VMUL a0 a3 in
  let accu := VMAC accu a1 a2 in
  let t3 := VSHL accu 1 in
  let accu := VMUL a0 a4 in let accu := VMAC accu a1 a3 in
  let t4 := VSHL accu 1 in let t4 := VMAC t4 a2 a2 in
  let accu := VMUL a0 a5 in let accu := VMAC accu a1 a4 in let accu := VMAC accu a2 a3 in
  let t5 := VSHL accu 1 in
  let accu := VMUL a0 a6 in let accu := VMAC accu a1 a5 in let accu := VMAC accu a2 a4 in
  let t6 := VSHL accu 1 in let t6 := VMAC t6 a3 a3 in
  let accu := VMUL a0 a7 in let accu := VMAC accu a1 a6 in let accu := VMAC accu a2 a5 in
  let accu := VMAC accu a3 a4 in
  let t7 := VSHL accu 1 in
  let accu := VMUL a0 a8 in let accu := VMAC accu a1 a7 in let accu := VMAC accu a2 a6 in
  let accu := VMAC accu a3 a5 in
  let t8 := VSHL accu 1 in let t8 := VMAC t8 a4 a4 in
  let temp := VSHR t8 BITS29 in let t8 := VAND t8 VMASK29 in
  let accu := VMUL a1 a8 in let accu := VMAC accu a2 a7 in let accu := VMAC accu a3 a6 in
  let accu := VMAC accu a4 a5 in
  let temp := VADD temp (VSHL accu 1) in
  let r0 := VAND temp VMASK29 in
  let temp := VSHR temp BITS29 in
  let accu := VMUL a2 a8 in let accu := VMAC accu a3 a7 in let accu := VMAC accu a4 a6 in
  let temp := VADD temp (VSHL accu 1) in
  let temp := VMAC temp a5 a5 in
  let r1 := VAND temp VMASK29 in
  let temp := VSHR temp BITS29 in
  let accu := VMUL a3 a8 in let accu := VMAC accu a4 a7 in let accu := VMAC accu a5 a6 in
  let temp := VADD temp (VSHL accu 1) in
  let r2 := VAND temp VMASK29 in
  let temp := VSHR temp BITS29 in
  let accu := VMUL a4 a8 in let accu := VMAC accu a5 a7 in
  let temp := VADD temp (VSHL accu 1) in
  let temp := VMAC temp a6 a6 in
  let r3 := VAND temp VMASK29 in
  let temp := VSHR temp BITS29 in
  let accu := VMUL a5 a8 in let accu := VMAC accu a6 a7 in
  let temp := VADD temp (VSHL accu 1) in
  let r4 := VAND temp VMASK29 in
  let temp := VSHR temp BITS29 in
  let accu := VMUL a6 a8 in
  let temp := VADD temp (VSHL accu 1) in
  let temp := VMAC temp a7 a7 in
  let r5 := VAND temp VMASK29 in
  let temp := VSHR temp BITS29 in
  let accu := VMUL a7 a8 in
  let temp := VADD temp (VSHL accu 1) in
  let r6 := VAND temp VMASK29 in
  let temp := VSHR temp BITS29 in
  let temp := VMAC temp a8 a8 in
  let r7 := VAND temp VMASK29 in
  let r8 := VSHR temp BITS29 in
  let accu := VADD t0 (VMUL r0 VCONSTC) in
  let r0 := VAND accu VMASK29 in
  let accu := VADD t1 (VSHR accu BITS29) in let accu := VMAC accu r1 VCONSTC in
  let r1 := VAND accu VMASK29 in
  let accu := VADD t2 (VSHR accu BITS29) in let accu := VMAC accu r2 VCONSTC in
  let r2 := VAND accu VMASK29 in
  let accu := VADD t3 (VSHR accu BITS29) in let accu := VMAC accu r3 VCONSTC in
  let r3 := VAND accu VMASK29 in
  let accu := VADD t4 (VSHR accu BITS29) in let accu := VMAC accu r4 VCONSTC in
  let r4 := VAND accu VMASK29 in
  let accu := VADD t5 (VSHR accu BITS29) in let accu := VMAC accu r5 VCONSTC in
  let r5 := VAND accu VMASK29 in
  let accu := VADD t6 (VSHR accu BITS29) in let accu := VMAC accu r6 VCONSTC in
  let r6 := VAND accu VMASK29 in
  let accu := VADD t7 (VSHR accu BITS29) in let accu := VMAC accu r7 VCONSTC in
  let r7 := VAND accu VMASK29 in
  let accu := VADD t8 (VSHR accu BITS29) in let accu := VMAC accu r8 VCONSTC in
  let r8 := VAND accu VMASK29 in
  let accu := VSHR accu BITS29 in
  let r0 := VADD r0 (VMUL accu VCONSTC) in
  mkfe r0 r1 r2 r3 r4 r5 r6 r7 r8.

(** ecdh.c: the final reduction. *)
Definition final_modp (a : fe T) : fe T :=
  let a0 := f0 a in let a1 := f1 a in let a2 := f2 a in
  let a3 := f3 a in let a4 := f4 a in let a5 := f5 a in
  let a6 := f6 a in let a7 := f7 a in let a8 := f8 a in
  let VMASK23 := VSET164 0x7FFFFF in
  let VMASK29 := VSET164 MASK29 in
  let V19 := VSET164 19 in
  let temp := VSHR a8 23 in let a8 := VAND a8 VMASK23 in
  let a0 := VADD a0 (VMUL temp V19) in
  let a1 := VADD a1 (VSHR a0 BITS29) in let a0 := VAND a0 VMASK29 in
  let a2 := VADD a2 (VSHR a1 BITS29) in let a1 := VAND a1 VMASK29 in
  let a3 := VADD a3 (VSHR a2 BITS29) in let a2 := VAND a2 VMASK29 in
  let a4 := VADD a4 (VSHR a3 BITS29) in let a3 := VAND a3 VMASK29 in
  let a5 := VADD a5 (VSHR a4 BITS29) in let a4 := VAND a4 VMASK29 in
  let a6 := VADD a6 (VSHR a5 BITS29) in let a5 := VAND a5 VMASK29 in
  let a7 := VADD a7 (VSHR a6 BITS29) in let a6 := VAND a6 VMASK29 in
  let a8 := VADD a8 (VSHR a7 BITS29) in let a7 := VAND a7 VMASK29 in
  let temp := VSHR a8 23 in let a8 := VAND a8 VMASK23 in
  let a0 := VADD a0 (VMUL temp V19) in
  let a1 := VADD a1 (VSHR a0 BITS29) in let a0 := VAND a0 VMASK29 in
  let a2 := VADD a2 (VSHR a1 BITS29) in let a1 := VAND a1 VMASK29 in
  let a3 := VADD a3 (VSHR a2 BITS29) in let a2 := VAND a2 VMASK29 in
  let a4 := VADD a4 (VSHR a3 BITS29) in let a3 := VAND a3 VMASK29 in
  let a5 := VADD a5 (VSHR a4 BITS29) in let a4 := VAND a4 VMASK29 in
  let a6 := VADD a6 (VSHR a5 BITS29) in let a5 := VAND a5 VMASK29 in
  let a7 := VADD a7 (VSHR a6 BITS29) in let a6 := VAND a6 VMASK29 in
  let a8 := VADD a8 (VSHR a7 BITS29) in let a7 := VAND a7 VMASK29 in
  mkfe a0 a1 a2 a3 a4 a5 a6 a7 a8.

Definition mpi29_gfp_inv_avx2 (a : fe T) : fe T :=
  let t0 := mpi29_gfp_sqr_avx2 a in
  let t1 := mpi29_gfp_sqr_avx2 t0 in
  let t1 := mpi29_gfp_sqr_avx2 t1 in
  let t1 := mpi29_gfp_mul_avx2 a t1 in
  let t0 := mpi29_gfp_mul_avx2 t0 t1 in
  let t2 := mpi29_gfp_sqr_avx2 t0 in
  let t1 := mpi29_gfp_mul_avx2 t1 t2 in
  let t2 := mpi29_gfp_sqr_avx2 t1 in
  let t2 := Nat.iter 4 mpi29_gfp_sqr_avx2 t2 in
  let t1 := mpi29_gfp_mul_avx2 t2 t1 in
  let t2 := mpi29_gfp_sqr_avx2 t1 in
  let t2 := Nat.iter 9 mpi29_gfp_sqr_avx2 t2 in
  let t2 := mpi29_gfp_mul_avx2 t2 t1 in
  let t3 := mpi29_gfp_sqr_avx2 t2 in
  let t3 := Nat.iter 19 mpi29_gfp_sqr_avx2 t3 in
  let t2 := mpi29_gfp_mul_avx2 t3 t2 in
  let t2 := mpi29_gfp_sqr_avx2 t2 in
  let t2 := Nat.iter 9 mpi29_gfp_sqr_avx2 t2 in
  let t1 := mpi29_gfp_mul_avx2 t2 t1 in
  let t2 := mpi29_gfp_sqr_avx2 t1 in
  let t2 := Nat.iter 49 mpi29_gfp_sqr_avx2 t2 in
  let t2 := mpi29_gfp_mul_avx2 t2 t1 in
  let t3 := mpi29_gfp_sqr_avx2 t2 in
  let t3 := Nat.iter 99 mpi29_gfp_sqr_avx2 t3 in
  let t2 := mpi29_gfp_mul_avx2 t3 t2 in
  let t2 := mpi29_gfp_sqr_avx2 t2 in
  let t2 := Nat.iter 49 mpi29_gfp_sqr_avx2 t2 in
  let t1 := mpi29_gfp_mul_avx2 t2 t1 in
  let t1 := mpi29_gfp_sqr_avx2 t1 in
  let t1 := Nat.iter 4 mpi29_gfp_sqr_avx2 t1 in
  mpi29_gfp_mul_avx2 t1 t0.

Definition mpi29_copy_avx2 (a : fe T) : fe T :=
  mkfe (f0 a) (f1 a) (f2 a) (f3 a) (f4 a) (f5 a) (f6 a) (f7 a) (f8 a).

(** ** moncurve.c *)

(** The y slots of the two points are the scratch elements tmp1 and tmp2. *)
Definition mon_ladder_step_avx2 (p q : ProPoint T) (xd : fe T)
  : ProPoint T * ProPoint T :=
  let px := p_x p in let pz := p_z p in
  let qx := p_x q in let qz := p_z q in
  let tmp1 := mpi29_gfp_add_avx2 px pz in
  let px := mpi29_gfp_sbc_avx2 px pz in
  let tmp2 := mpi29_gfp_add_avx2 qx qz in
  let qx := mpi29_gfp_sub_avx2 qx qz in
  let pz := mpi29_gfp_sqr_avx2 tmp1 in
  let qz := mpi29_gfp_mul_avx2 tmp2 px in
  let tmp2 := mpi29_gfp_mul_avx2 qx tmp1 in
  let tmp1 := mpi29_gfp_sqr_avx2 px in
  let px := mpi29_gfp_mul_avx2 pz tmp1 in
  let tmp1 := mpi29_gfp_sub_avx2 pz tmp1 in
  let qx := mpi29_gfp_mul29_avx2 tmp1 ((CONSTA - 2) / 4) in
  let qx := mpi29_gfp_add_avx2 qx pz in
  let pz := mpi29_gfp_mul_avx2 qx tmp1 in
  let tmp1 := mpi29_gfp_add_avx2 tmp2 qz in
  let qx := mpi29_gfp_sqr_avx2 tmp1 in
  let tmp1 := mpi29_gfp_sbc_avx2 tmp2 qz in
  let tmp2 := mpi29_gfp_sqr_avx2 tmp1 in
  let qz := mpi29_gfp_mul_avx2 tmp2 xd in
  (mkPro px tmp1 pz, mkPro qx tmp2 qz).

Definition mon_cswap_point_avx2 (p q : ProPoint T) (b : T)
  : ProPoint T * ProPoint T :=
  let one := VSET164 1 in
  let cbit := VAND b one in
  let '(px, qx) := mpi29_cswap_avx2 (p_x p) (p_x q) cbit in
  let '(pz, qz) := mpi29_cswap_avx2 (p_z p) (p_z q) cbit in
  (mkPro px (p_y p) pz, mkPro qx (p_y q) qz).

(** The block "prune scalar k" of [mon_mul_varbase_avx2] and of
    [ted_mul_fixbase_avx2]. *)
Definition prune (k : list T) : list T :=
  let t0 := VSET164 0xFFFFFFF8 in
  let t1 := VSET164 0x7FFFFFFF in
  let t2 := VSET164 0x40000000 in
  let kp := map (word VZERO k) [0; 1; 2; 3; 4; 5; 6; 7] in
  let kp := upd kp 0 (VAND (word VZERO kp 0) t0) in
  let kp := upd kp 7 (VAND (word VZERO kp 7) t1) in
  let kp := upd kp 7 (VOR (word VZERO kp 7) t2) in
  kp.

(** One pass of the main ladder loop, for loop index [i]. *)
Definition ladder_iter (kp : list T) (x : fe T) (i : Z)
  (st : ProPoint T * ProPoint T * T) : ProPoint T * ProPoint T * T :=
  let '(p1, p2, s) := st in
  let b := word VZERO kp (Z.shiftr i 5) in
  let b := VSHR b (Z.land i 31) in
  let s := VXOR s b in
  let '(p1, p2) := mon_cswap_point_avx2 p1 p2 s in
  let '(p1, p2) := mon_ladder_step_avx2 p1 p2 x in
  let s := b in
  (p1, p2, s).

(** [for (i = n - 1; i >= 0; i--)]. *)
Fixpoint ladder_loop (kp : list T) (x : fe T) (n : nat)
  (st : ProPoint T * ProPoint T * T) : ProPoint T * ProPoint T * T :=
  match n with
  | O => st
  | S i => ladder_loop kp x i (ladder_iter kp x (Z.of_nat i) st)
  end.

Definition fe_zero : fe T := fe_const VZERO.
Definition fe_one : fe T :=
  mkfe (VSET164 1) VZERO VZERO VZERO VZERO VZERO VZERO VZERO VZERO.

(** The y slots are uninitialised storage in the source; they are written by
    the ladder step before they are read, and hold zero here. *)
Definition mon_mul_varbase_avx2 (k : list T) (x : fe T) : fe T :=
  let s := VZERO in
  let kp := prune k in
  let p1 := mkPro fe_one fe_zero fe_zero in
  let p2 := mkPro x fe_zero fe_one in
  let '(p1, p2, s) := ladder_loop kp x 255 (p1, p2, s) in
  let '(p1, p2) := mon_cswap_point_avx2 p1 p2 s in
  let p2y := mpi29_gfp_inv_avx2 (p_z p1) in
  mpi29_gfp_mul_avx2 p2y (p_x p1).

End Field.

(** ** tedcurve.c *)

(** "1/2" in the field, as four 64-bit chunks. *)
Definition one_half : list Z :=
  [0xFFFFFFFFFFFFFFF7; 0xFFFFFFFFFFFFFFFF; 0xFFFFFFFFFFFFFFFF; 0x3FFFFFFFFFFFFFFF].

(** An entry of the precomputed table of base.h: the three Duif coordinates,
    each stored as four 64-bit chunks. *)
Record LutPoint : Type := mkLut { lut_x : list Z; lut_y : list Z; lut_z : list Z }.

Section Edwards.
Context {T : Type} `{Vec T}.
(** The table [base[32][8]] of base.h is not part of the sources at hand. *)
Variable base : Z -> Z -> LutPoint.

(** Modelled from the spec: [lut_conv_coor2mpi29_avx2] of base.h, which is not
    part of the sources at hand: "convert the packed 4x64-bit chunk layout of
    the stored field element into the 9x29-bit limb layout expected by F
    arithmetic", lane by lane. *)
Definition lut_conv_coor2mpi29_avx2 (a : list T) : fe T :=
  let VMASK29 := VSET164 MASK29 in
  let a0 := word VZERO a 0 in let a1 := word VZERO a 1 in
  let a2 := word VZERO a 2 in let a3 := word VZERO a 3 in
  let r0 := VAND a0 VMASK29 in
  let r1 := VAND (VSHR a0 29) VMASK29 in
  let r2 := VAND (VOR (VSHR a0 58) (VSHL a1 6)) VMASK29 in
  let r3 := VAND (VSHR a1 23) VMASK29 in
  let r4 := VAND (VOR (VSHR a1 52) (VSHL a2 12)) VMASK29 in
  let r5 := VAND (VSHR a2 17) VMASK29 in
  let r6 := VAND (VOR (VSHR a2 46) (VSHL a3 18)) VMASK29 in
  let r7 := VAND (VSHR a3 11) VMASK29 in
  let r8 := VAND (VSHR a3 40) VMASK29 in
  mkfe r0 r1 r2 r3 r4 r5 r6 r7 r8.

(** In [ted_mul_fixbase_avx2] the result [r] and the operand [p] are the same
    object; every read of a field of [p] comes before the write of the same
    field of [r], so the function of (p, q) below covers both uses. *)
Definition ted_point_add_avx2 (p : ExtPoint T) (q : ProPoint T) : ExtPoint T :=
  let t := mpi29_gfp_mul_avx2 (e_e p) (e_h p) in
  let re := mpi29_gfp_sub_avx2 (e_y p) (e_x p) in
  let rh := mpi29_gfp_add_avx2 (e_y p) (e_x p) in
  let rx := mpi29_gfp_mul_avx2 re (p_y q) in
  let ry := mpi29_gfp_mul_avx2 rh (p_x q) in
  let re := mpi29_gfp_sub_avx2 ry rx in
  let rh := mpi29_gfp_add_avx2 ry rx in
  let rx := mpi29_gfp_mul_avx2 t (p_z q) in
  let t := mpi29_gfp_sbc_avx2 (e_z p) rx in
  let rx := mpi29_gfp_add_avx2 (e_z p) rx in
  let rz := mpi29_gfp_mul_avx2 t rx in
  let ry := mpi29_gfp_mul_avx2 rx rh in
  let rx := mpi29_gfp_mul_avx2 re t in
  mkExt rx ry rz re rh.

Definition ted_point_dbl_avx2 (p : ExtPoint T) : ExtPoint T :=
  let re := mpi29_gfp_sqr_avx2 (e_x p) in
  let rh := mpi29_gfp_sqr_avx2 (e_y p) in
  let t := mpi29_gfp_sbc_avx2 re rh in
  let rh := mpi29_gfp_add_avx2 re rh in
  let rx := mpi29_gfp_add_avx2 (e_x p) (e_y p) in
  let re := mpi29_gfp_sqr_avx2 rx in
  let re := mpi29_gfp_sub_avx2 rh re in
  let ry := mpi29_gfp_sqr_avx2 (e_z p) in
  let ry := mpi29_gfp_mul29_avx2 ry 2 in
  let ry := mpi29_gfp_add_avx2 t ry in
  let rx := mpi29_gfp_mul_avx2 re ry in
  let rz := mpi29_gfp_mul_avx2 ry t in
  let ry := mpi29_gfp_mul_avx2 t rh in
  mkExt rx ry rz re rh.

Definition ted_point_init_ext_avx2 : ExtPoint T :=
  mkExt fe_zero fe_one fe_one fe_zero fe_one.

(** The loop creating the nine masks; [index] runs from 0 to 8. *)
Fixpoint create_masks (n : nat) (babs index : T) : list T :=
  match n with
  | O => []
  | S n' =>
      let one := VSET164 1 in
      let m := VXOR babs index in
      let m := VSUB m one in
      let m := VSHR m 32 in
      let m := VSHUF32 m 0xA0 in
      m :: create_masks n' babs (VADD index one)
  end.

(** The inner loop over the eight rows of column [pos], for chunk [i]. *)
Fixpoint query_rows (mask : list T) (pos i : Z) (n : nat) (j : Z)
  (acc : T * T * T) : T * T * T :=
  match n with
  | O => acc
  | S n' =>
      let '(xP, yP, zP) := acc in
      let xcoor := VBROAD64 (word 0 (lut_x (base pos j)) i) in
      let ycoor := VBROAD64 (word 0 (lut_y (base pos j)) i) in
      let zcoor := VBROAD64 (word 0 (lut_z (base pos j)) i) in
      let xP := VXOR xP (VAND (word VZERO mask (j + 1)) xcoor) in
      let yP := VXOR yP (VAND (word VZERO mask (j + 1)) ycoor) in
      let zP := VXOR zP (VAND (word VZERO mask (j + 1)) zcoor) in
      query_rows mask pos i n' (j + 1) (xP, yP, zP)
  end.

Definition query_chunk (mask : list T) (pos i : Z) : T * T * T :=
  let zero := VZERO in
  let xcoor := VSET164 (word 0 one_half i) in
  let ycoor := VSET164 (word 0 one_half i) in
  let xP := VXOR zero (VAND (word VZERO mask 0) xcoor) in
  let yP := VXOR zero (VAND (word VZERO mask 0) ycoor) in
  query_rows mask pos i 8 0 (xP, yP, zero).

Definition sign_swap (bmask : T) (c : T * T * T) : T * T * T :=
  let '(xP, yP, zP) := c in
  let tmp := VAND (VXOR xP yP) bmask in
  (VXOR xP tmp, VXOR yP tmp, zP).

Definition ted_point_query_table_avx2 (pos : Z) (b : T) : ProPoint T :=
  let babs := VABS8 b in
  let zero := VZERO in
  let mask := create_masks 9 babs zero in
  let c := map (query_chunk mask pos) [0; 1; 2; 3] in
  let bsign := VSHR b 7 in
  let bmask := VSUB zero bsign in
  let c := map (sign_swap bmask) c in
  let rx := lut_conv_coor2mpi29_avx2 (map (fun t => fst (fst t)) c) in
  let ry := lut_conv_coor2mpi29_avx2 (map (fun t => snd (fst t)) c) in
  let rz := lut_conv_coor2mpi29_avx2 (map (fun t => snd t) c) in
  let t := mpi29_copy_avx2 rz in
  let t := mpi29_gfp_sub_avx2 fe_zero t in
  let '(rz, t) := mpi29_cswap_avx2 rz t bsign in
  mkPro rx ry rz.

(** The eight nibbles of one 32-bit scalar word. *)
Definition word_nibbles (w : T) : list T :=
  let mask4 := VSET164 0x0F in
  [VAND w mask4; VAND (VSHR w 4) mask4; VAND (VSHR w 8) mask4;
   VAND (VSHR w 12) mask4; VAND (VSHR w 16) mask4; VAND (VSHR w 20) mask4;
   VAND (VSHR w 24) mask4; VAND (VSHR w 28) mask4].

(** [for (i = i0; i < i0 + n; i++)] of the signed recoding; returns the array
    and the carry. *)
Fixpoint signed_loop (n : nat) (i : Z) (e : list T) (carry : T) : list T * T :=
  match n with
  | O => (e, carry)
  | S n' =>
      let eight := VSET164 8 in
      let mask8 := VSET164 0xFF in
      let ei := VADD (word VZERO e i) carry in
      let carry := VADD ei eight in
      let carry := VSHR carry 4 in
      let ei := VSUB ei (VSHL carry 4) in
      let ei := VAND ei mask8 in
      signed_loop n' (i + 1) (upd e i ei) carry
  end.

Definition ted_conv_scalar2nibble_avx2 (k : list T) : list T :=
  let mask8 := VSET164 0xFF in
  let carry := VZERO in
  let e := flat_map (fun i => word_nibbles (word VZERO k i)) [0; 1; 2; 3; 4; 5; 6; 7] in
  let '(e, carry) := signed_loop 63 0 e carry in
  let e63 := VADD (word VZERO e 63) carry in
  let e63 := VAND e63 mask8 in
  upd e 63 e63.

(** [for (i = i0; i < 64; i += 2)]: query the table and accumulate. *)
Fixpoint fixbase_loop (n : nat) (i : Z) (e : list T) (st : ExtPoint T * ProPoint T)
  : ExtPoint T * ProPoint T :=
  match n with
  | O => st
  | S n' =>
      let '(h, r) := st in
      let r := ted_point_query_table_avx2 (Z.shiftr i 1) (word VZERO e i) in
      let h := ted_point_add_avx2 h r in
      fixbase_loop n' (i + 2) e (h, r)
  end.

(** The x slot of the result keeps the x coordinate of the last table entry:
    the copy of h.x is commented out in the source. *)
Definition ted_mul_fixbase_avx2 (k : list T) : ProPoint T :=
  let kp := prune k in
  let e := ted_conv_scalar2nibble_avx2 kp in
  let h := ted_point_init_ext_avx2 in
  let r := mkPro fe_zero fe_zero fe_zero in
  let '(h, r) := fixbase_loop 32 1 e (h, r) in
  let h := ted_point_dbl_avx2 h in
  let h := ted_point_dbl_avx2 h in
  let h := ted_point_dbl_avx2 h in
  let h := ted_point_dbl_avx2 h in
  let '(h, r) := fixbase_loop 32 0 e (h, r) in
  mkPro (p_x r) (mpi29_copy_avx2 (e_y h)) (mpi29_copy_avx2 (e_z h)).

(** moncurve.c, fixed base: from the twisted Edwards curve to the Montgomery
    curve, u = (z+y)/(z-y). *)
Definition mon_mul_fixbase_avx2 (k : list T) : fe T :=
  let p := ted_mul_fixbase_avx2 k in
  let px := mpi29_gfp_sbc_avx2 (p_z p) (p_y p) in
  let px := mpi29_gfp_inv_avx2 px in
  let t := mpi29_gfp_add_avx2 (p_z p) (p_y p) in
  mpi29_gfp_mul_avx2 t px.

(** ** ecdh.c *)

Definition keygen (sk : list T) : fe T :=
  final_modp (mon_mul_fixbase_avx2 sk).

End Edwards.

Definition sharedsecret {T} `{Vec T} (ska : list T) (pkb : fe T) : fe T :=
  final_modp (mon_mul_varbase_avx2 ska pkb).

(** ** utils.h: conversions between 32-bit and 29-bit words *)

Definition u32 (x : Z) : Z := lo32 x.

(** The [while] loop of [mpi29_conv_32to29]; each pass writes one word of r,
    so [n] (at most rlen) passes remain.  State: j, shr_pos, shl_pos, temp. *)
Fixpoint conv_32to29_loop (n : nat) (a : list Z) (alen : Z)
  (j shr_pos shl_pos temp : Z) : list Z * (Z * Z * Z) :=
  match n with
  | O => ([], (j, shr_pos, temp))
  | S n' =>
      if j <? alen then
        let w := Z.lor (Z.shiftr temp shr_pos) (u32 (Z.shiftl (word 0 a j) shl_pos)) in
        let ri := Z.land w MASK29 in
        let shr_pos := shr_pos - 3 in
        let shl_pos := shl_pos + 3 in
        let take := (0 <? shr_pos) && (shl_pos <? 32) in
        let temp := if take then word 0 a j else temp in
        let j := if take then j + 1 else j in
        let shr_pos := if shr_pos <=? 0 then shr_pos + 32 else shr_pos in
        let shl_pos := if 32 <=? shl_pos then shl_pos - 32 else shl_pos in
        let temp := if shr_pos =? 32 then 0 else temp in
        let '(rest, fin) := conv_32to29_loop n' a alen j shr_pos shl_pos temp in
        (ri :: rest, fin)
      else ([], (j, shr_pos, temp))
  end.

Definition mpi29_conv_32to29 (a : list Z) (rlen alen : Z) : list Z :=
  let '(r, (_, shr_pos, temp)) := conv_32to29_loop (Z.to_nat rlen) a alen 0 32 0 0 in
  let i := Z.of_nat (length r) in
  let r := if i <? rlen then r ++ [Z.land (Z.shiftr temp shr_pos) MASK29] else r in
  r ++ repeat 0 (Z.to_nat rlen - length r).

(** The [while] loop of [mpi29_conv_29to32]; each pass consumes a[j], and the
    words written so far are counted by [i]. *)
Fixpoint conv_29to32_loop (n : nat) (a : list Z) (rlen : Z)
  (i j bits_in_word w : Z) : list Z * Z :=
  match n with
  | O => ([], w)
  | S n' =>
      if i <? rlen then
        let w := Z.lor w (u32 (Z.shiftl (word 0 a j) bits_in_word)) in
        let bits_to_shift := 32 - bits_in_word in
        let bits_in_word := bits_in_word + 29 in
        if 32 <=? bits_in_word then
          let ri := w in
          let w := if 0 <? bits_to_shift then Z.shiftr (word 0 a j) bits_to_shift else 0 in
          let bits_in_word := if 0 <? bits_to_shift then 29 - bits_to_shift else 0 in
          let '(rest, fin) := conv_29to32_loop n' a rlen (i + 1) (j + 1) bits_in_word w in
          (ri :: rest, fin)
        else conv_29to32_loop n' a rlen i (j + 1) bits_in_word w
      else ([], w)
  end.

Definition mpi29_conv_29to32 (a : list Z) (rlen alen : Z) : list Z :=
  let '(r, w) := conv_29to32_loop (Z.to_nat alen) a rlen 0 0 0 0 in
  let i := Z.of_nat (length r) in
  let r := if i <? rlen then r ++ [w] else r in
  r ++ repeat 0 (Z.to_nat rlen - length r).

(** Little-endian bytes and 32-bit words (RFC 7748 serialisation). *)
Fixpoint words_of_bytes (b : list Z) : list Z :=
  match b with
  | b0 :: b1 :: b2 :: b3 :: rest =>
      (b0 + Z.shiftl b1 8 + Z.shiftl b2 16 + Z.shiftl b3 24) :: words_of_bytes rest
  | _ => []
  end.
Definition bytes_of_word (w : Z) : list Z :=
  [Z.land w 0xFF; Z.land (Z.shiftr w 8) 0xFF; Z.land (Z.shiftr w 16) 0xFF;
   Z.land (Z.shiftr w 24) 0xFF].
Definition bytes_of_words (w : list Z) : list Z := flat_map bytes_of_word w.

Definition fe_of_list {A} (d : A) (l : list A) : fe A :=
  mkfe (word d l 0) (word d l 1) (word d l 2) (word d l 3) (word d l 4)
       (word d l 5) (word d l 6) (word d l 7) (word d l 8).

(** ** Two further readings of the interface, used to analyse overflow

    [Ideal] computes without wrap-around and without truncation of
    multiplier inputs; [Itv] computes an interval enclosing the ideal value
    ([None]: no information). *)

Definition Ideal : Vec Z := {|
  VADD x y := x + y;
  VSUB x y := x - y;
  VMUL x y := x * y;
  VABS8 x := abs8_lane x;
  VXOR x y := Z.lxor x y;
  VAND x y := Z.land x y;
  VOR x y := Z.lor x y;
  VSHR x n := Z.shiftr x n;
  VSHL x n := Z.shiftl x n;
  VSET164 c := c;
  VSHUF32 x imm := shuf32_lane x imm
|}.

Definition itv : Type := option (Z * Z).

Definition in64 (a b : Z) : bool := (0 <=? a) && (b <? two64).
Definition in32 (a b : Z) : bool := (0 <=? a) && (b <? two32).

Definition itv_lift2 (ok : Z -> Z -> Z -> Z -> bool) (f : Z -> Z -> Z -> Z -> Z * Z)
  (x y : itv) : itv :=
  match x, y with
  | Some (a, b), Some (c, d) => if ok a b c d then Some (f a b c d) else None
  | _, _ => None
  end.

Definition Itv : Vec itv := {|
  VADD := itv_lift2 (fun _ _ _ _ => true) (fun a b c d => (a + c, b + d));
  VSUB := itv_lift2 (fun _ _ _ _ => true) (fun a b c d => (a - d, b - c));
  VMUL := itv_lift2 (fun a b c d => in32 a b && in32 c d) (fun a b c d => (a * c, b * d));
  VABS8 _ := None;
  VXOR _ _ := None;
  VAND := itv_lift2 (fun a b c d => in64 a b && in64 c d) (fun a b c d => (0, Z.min b d));
  VOR _ _ := None;
  VSHR x n :=
    match x with
    | Some (a, b) =>
        if in64 a b && (0 <=? n) then Some (Z.shiftr a n, Z.shiftr b n) else None
    | None => None
    end;
  VSHL x n :=
    match x with
    | Some (a, b) => if 0 <=? n then Some (Z.shiftl a n, Z.shiftl b n) else None
    | None => None
    end;
  VSET164 c := Some (c, c);
  VSHUF32 _ _ := None
|}.

(** The machine value [x], the ideal value [y] and the interval [i] agree. *)
Definition rel3 (x y : Z) (i : itv) : Prop :=
  forall lo hi, i = Some (lo, hi) -> x = y mod two64 /\ lo <= y <= hi.

Definition fe_rel3 (a b : fe Z) (i : fe itv) : Prop :=
  rel3 (f0 a) (f0 b) (f0 i) /\ rel3 (f1 a) (f1 b) (f1 i) /\
  rel3 (f2 a) (f2 b) (f2 i) /\ rel3 (f3 a) (f3 b) (f3 i) /\
  rel3 (f4 a) (f4 b) (f4 i) /\ rel3 (f5 a) (f5 b) (f5 i) /\
  rel3 (f6 a) (f6 b) (f6 i) /\ rel3 (f7 a) (f7 b) (f7 i) /\
  rel3 (f8 a) (f8 b) (f8 i).

(** The integer a field element stands for, and the two moduli. *)
Definition val (a : fe Z) : Z :=
  f0 a + 2 ^ 29 * f1 a + 2 ^ 58 * f2 a + 2 ^ 87 * f3 a + 2 ^ 116 * f4 a +
  2 ^ 145 * f5 a + 2 ^ 174 * f6 a + 2 ^ 203 * f7 a + 2 ^ 232 * f8 a.
Definition p25519 : Z := 2 ^ 255 - 19.
Definition pstar : Z := 2 ^ 261 - 1216.

Definition fe_lane (j : lane_id) (a : fe m256i) : fe Z := fe_map (lane j) a.

(** Lane projections of points and pairs. *)
Definition pro_lane (j : lane_id) (p : ProPoint m256i) : ProPoint Z :=
  mkPro (fe_lane j (p_x p)) (fe_lane j (p_y p)) (fe_lane j (p_z p)).
Definition ext_lane (j : lane_id) (p : ExtPoint m256i) : ExtPoint Z :=
  mkExt (fe_lane j (e_x p)) (fe_lane j (e_y p)) (fe_lane j (e_z p))
        (fe_lane j (e_e p)) (fe_lane j (e_h p)).
Definition pair_map {A B C D} (g : A -> C) (h : B -> D) (x : A * B) : C * D :=
  (g (fst x), h (snd x)).

(** A lane holds a 64-bit word. *)
Definition wf64 (x : Z) : Prop := 0 <= x < two64.
Definition wf256 (v : m256i) : Prop :=
  wf64 (q0 v) /\ wf64 (q1 v) /\ wf64 (q2 v) /\ wf64 (q3 v).
Definition pro_wf (p : ProPoint m256i) : Prop :=
  fe_all wf256 (p_x p) /\ fe_all wf256 (p_z p).

(** The ladder as the design describes it: the flag of each pass is the single
    bit i of the pruned scalar (0 or 1 in every lane).  To be compared with
    [ladder_iter], which passes the whole shifted word. *)
Definition ladder_iter_bit {T} `{Vec T} (kp : list T) (x : fe T) (i : Z)
  (st : ProPoint T * ProPoint T * T) : ProPoint T * ProPoint T * T :=
  let '(p1, p2, s) := st in
  let b := VAND (VSHR (word VZERO kp (Z.shiftr i 5)) (Z.land i 31)) (VSET164 1) in
  let s := VXOR s b in
  let '(p1, p2) := mon_cswap_point_avx2 p1 p2 s in
  let '(p1, p2) := mon_ladder_step_avx2 p1 p2 x in
  (p1, p2, b).

Fixpoint ladder_loop_bit {T} `{Vec T} (kp : list T) (x : fe T) (n : nat)
  (st : ProPoint T * ProPoint T * T) : ProPoint T * ProPoint T * T :=
  match n with
  | O => st
  | S i => ladder_loop_bit kp x i (ladder_iter_bit kp x (Z.of_nat i) st)
  end.

Definition mon_mul_varbase_bits {T} `{Vec T} (k : list T) (x : fe T) : fe T :=
  let kp := prune k in
  let p1 := mkPro fe_one fe_zero fe_zero in
  let p2 := mkPro x fe_zero fe_one in
  let '(p1, p2, s) := ladder_loop_bit kp x 255 (p1, p2, VZERO) in
  let '(p1, p2) := mon_cswap_point_avx2 p1 p2 s in
  let p2y := mpi29_gfp_inv_avx2 (p_z p1) in
  mpi29_gfp_mul_avx2 p2y (p_x p1).
(** The body of [mpi29_gfp_mul29_avx2] after the broadcast of the constant:
    [mpi29_gfp_mul29_avx2 a b] is [mul29_body a (VSET164 b)]. *)
Definition mul29_body {T} `{Vec T} (a : fe T) (vb : T) : fe T :=
  let a0 := f0 a in let a1 := f1 a in let a2 := f2 a in
  let a3 := f3 a in let a4 := f4 a in let a5 := f5 a in
  let a6 := f6 a in let a7 := f7 a in let a8 := f8 a in
  let VMASK29 := VSET164 MASK29 in
  let VCONSTC := VSET164 CONSTC in
  let accu := VMUL a0 vb in let r0 := VAND accu VMASK29 in let accu := VSHR accu BITS29 in
  let accu := VMAC accu a1 vb in let r1 := VAND accu VMASK29 in let accu := VSHR accu BITS29 in
  let accu := VMAC accu a2 vb in let r2 := VAND accu VMASK29 in let accu := VSHR accu BITS29 in
  let accu := VMAC accu a3 vb in let r3 := VAND accu VMASK29 in let accu := VSHR accu BITS29 in
  let accu := VMAC accu a4 vb in let r4 := VAND accu VMASK29 in let accu := VSHR accu BITS29 in
  let accu := VMAC accu a5 vb in let r5 := VAND accu VMASK29 in let accu := VSHR accu BITS29 in
  let accu := VMAC accu a6 vb in let r6 := VAND accu VMASK29 in let accu := VSHR accu BITS29 in
  let accu := VMAC accu a7 vb in let r7 := VAND accu VMASK29 in let accu := VSHR accu BITS29 in
  let accu := VMAC accu a8 vb in let r8 := VAND accu VMASK29 in
  let accu := VMUL VCONSTC (VSHR accu BITS29) in
  let r0 := VADD r0 (VAND accu VMASK29) in
  let r1 := VADD r1 (VSHR accu BITS29) in
  mkfe r0 r1 r2 r3 r4 r5 r6 r7 r8.

(** Interval families as bounds on the limbs of one lane. *)
Definition itv_in (i : itv) (x : Z) : Prop :=
  match i with Some (lo, hi) => lo <= x <= hi | None => True end.
Definition itv_ok (i : itv) : bool :=
  match i with Some (lo, hi) => in64 lo hi | None => false end.
Definition itv_sub (i i' : itv) : bool :=
  match i, i' with
  | Some (a, b), Some (c, d) => (c <=? a) && (b <=? d)
  | _, None => true
  | None, Some _ => false
  end.
Definition fe_in (i : fe itv) (a : fe Z) : Prop :=
  itv_in (f0 i) (f0 a) /\ itv_in (f1 i) (f1 a) /\ itv_in (f2 i) (f2 a) /\
  itv_in (f3 i) (f3 a) /\ itv_in (f4 i) (f4 a) /\ itv_in (f5 i) (f5 a) /\
  itv_in (f6 i) (f6 a) /\ itv_in (f7 i) (f7 a) /\ itv_in (f8 i) (f8 a).
Definition fe_forallb {A} (g : A -> bool) (a : fe A) : bool :=
  g (f0 a) && g (f1 a) && g (f2 a) && g (f3 a) && g (f4 a) &&
  g (f5 a) && g (f6 a) && g (f7 a) && g (f8 a).
Definition fe_sub (i i' : fe itv) : bool :=
  itv_sub (f0 i) (f0 i') && itv_sub (f1 i) (f1 i') && itv_sub (f2 i) (f2 i') &&
  itv_sub (f3 i) (f3 i') && itv_sub (f4 i) (f4 i') && itv_sub (f5 i) (f5 i') &&
  itv_sub (f6 i) (f6 i') && itv_sub (f7 i) (f7 i') && itv_sub (f8 i) (f8 i').

(** The representation invariants of the design, per lane. *)
Definition upto (b : Z) : itv := Some (0, b).
(** Reduced: every limb at most 2^29 - 1. *)
Definition reduced_itv : fe itv := fe_const (upto MASK29).
(** Loose: every limb at most 2^30. *)
Definition loose_itv : fe itv := fe_const (upto (2 ^ 30)).
(** Limb 0 at most [b0], limb 1 at most [b1], limbs 2..8 at most 2^29 - 1. *)
Definition carried_itv (b0 b1 : Z) : fe itv :=
  mkfe (upto b0) (upto b1) (upto MASK29) (upto MASK29) (upto MASK29)
       (upto MASK29) (upto MASK29) (upto MASK29) (upto MASK29).
(** What the reducing operations leave: limb 0 may exceed 2^29 - 1 by the last
    fold, by less than 2^24. *)
Definition folded_itv : fe itv := carried_itv (2 ^ 29 + 2 ^ 24) MASK29.

Definition lanes_in (i : fe itv) (a : fe m256i) : Prop :=
  forall j, fe_in i (fe_lane j a).
Definition reduced (a : fe m256i) : Prop := lanes_in reduced_itv a.

(** Some concrete field elements (the same value in the four lanes). *)
Definition fe_bcast (l : list Z) : fe m256i := fe_of_list VZERO (map VSET164 l).
(** Every limb 2^29 - 1. *)
Definition fe_max : fe m256i := fe_const (VSET164 MASK29).
(** The integer 2431 = 2 * CONSTC - 1. *)
Definition fe_2431 : fe m256i := fe_bcast [2431].

(** [mon_ladder_step_avx2] together with the operands it passes to the
    multiplications and squarings, in program order (for mul29 the field
    element operand). *)
Definition mon_ladder_step_traced {T} `{Vec T} (p q : ProPoint T) (xd : fe T)
  : (ProPoint T * ProPoint T) * list (fe T) :=
  let px := p_x p in let pz := p_z p in
  let qx := p_x q in let qz := p_z q in
  let tmp1 := mpi29_gfp_add_avx2 px pz in
  let px := mpi29_gfp_sbc_avx2 px pz in
  let tmp2 := mpi29_gfp_add_avx2 qx qz in
  let qx := mpi29_gfp_sub_avx2 qx qz in
  let ops := [tmp1] in
  let pz := mpi29_gfp_sqr_avx2 tmp1 in
  let ops := ops ++ [tmp2; px] in
  let qz := mpi29_gfp_mul_avx2 tmp2 px in
  let ops := ops ++ [qx; tmp1] in
  let tmp2 := mpi29_gfp_mul_avx2 qx tmp1 in
  let ops := ops ++ [px] in
  let tmp1 := mpi29_gfp_sqr_avx2 px in
  let ops := ops ++ [pz; tmp1] in
  let px := mpi29_gfp_mul_avx2 pz tmp1 in
  let tmp1 := mpi29_gfp_sub_avx2 pz tmp1 in
  let ops := ops ++ [tmp1] in
  let qx := mpi29_gfp_mul29_avx2 tmp1 ((CONSTA - 2) / 4) in
  let qx := mpi29_gfp_add_avx2 qx pz in
  let ops := ops ++ [qx; tmp1] in
  let pz := mpi29_gfp_mul_avx2 qx tmp1 in
  let tmp1 := mpi29_gfp_add_avx2 tmp2 qz in
  let ops := ops ++ [tmp1] in
  let qx := mpi29_gfp_sqr_avx2 tmp1 in
  let tmp1 := mpi29_gfp_sbc_avx2 tmp2 qz in
  let ops := ops ++ [tmp1] in
  let tmp2 := mpi29_gfp_sqr_avx2 tmp1 in
  let ops := ops ++ [tmp2; xd] in
  let qz := mpi29_gfp_mul_avx2 tmp2 xd in
  ((mkPro px tmp1 pz, mkPro qx tmp2 qz), ops).

Definition pt_max : ProPoint m256i := mkPro fe_max fe_max fe_max.


(** ** Primality certificates (trial division and Pocklington's criterion) *)

(** No d in [d, d + k) divides n. *)
Fixpoint no_divisor (n d : Z) (k : nat) : bool :=
  match k with
  | O => true
  | S k' => negb (n mod d =? 0) && no_divisor n (d + 1) k'
  end.
Definition trial_check (n : Z) (k : nat) : bool :=
  (1 <? n) && (n <? (2 + Z.of_nat k) * (2 + Z.of_nat k)) && no_divisor n 2 k.

(** The conditions of Pocklington's criterion for the base a and a prime
    factor q of n - 1. *)
Definition pock_check (n a q : Z) : bool :=
  (1 <? n) && ((n - 1) mod q =? 0) && (Zpow_mod a (n - 1) n =? 1) &&
  (Z.gcd (Zpow_mod a ((n - 1) / q) n - 1) n =? 1).

Definition q25519_1 : Z := 74058212732561358302231226437062788676166966415465897661863160754340907.
Definition q25519_2 : Z := 75445702479781427272750846543864801.
Definition q25519_3 : Z := 31757755568855353.
Definition q25519_4 : Z := 1919519569386763.

(** The conditions for two prime factors q and r of n - 1 at once, with the
    powers shared: c = (n - 1) / (q r), t = a^c, u = t^r = a^((n-1)/q),
    v = t^q = a^((n-1)/r), and a^(n-1) = u^q. *)
Definition pock_pair (n a q r : Z) : bool :=
  let c := (n - 1) / (q * r) in
  let t := Zpow_mod a c n in
  let u := Zpow_mod t r n in
  let v := Zpow_mod t q n in
  (1 <? n) && ((n - 1) mod (q * r) =? 0) && (Zpow_mod u q n =? 1) &&
  (Z.gcd (u - 1) n =? 1) && (Z.gcd (v - 1) n =? 1).

(** ** Scalars and signed digits *)

(** The signed value of an 8-bit digit (two's complement). *)
Definition sgn8 (b : Z) : Z := if b <? 128 then b else b - 256.
(** The value of a digit array, weights 16^i. *)
Definition digits_val (e : list Z) : Z := fold_right (fun d acc => sgn8 d + 16 * acc) 0 e.
(** The value of a scalar given as 32-bit words, least significant first. *)
Definition scalar_val (k : list Z) : Z := fold_right (fun w acc => w + two32 * acc) 0 k.
(** Eight 32-bit words. *)
Definition scalar_words (k : list Z) : Prop :=
  length k = 8%nat /\ Forall (fun w => 0 <= w < two32) k.
(** Clamped: the low three bits and bit 255 clear, bit 254 set. *)
Definition clamped (k : list Z) : Prop :=
  scalar_words k /\ word 0 k 0 mod 8 = 0 /\ 2 ^ 30 <= word 0 k 7 < 2 ^ 31.

(** The value of a list of unsigned nibbles. *)
Definition unsigned_val (l : list Z) : Z := fold_right (fun d acc => d + 16 * acc) 0 l.
Definition is_nibble (v : Z) : Prop := 0 <= v <= 15.
(** An 8-bit value whose signed reading lies in [-8, 7]. *)
Definition is_digit (d : Z) : Prop := 0 <= d < 256 /\ -8 <= sgn8 d <= 7.

(** One pass of the signed recoding loop on a digit [v] with carry [c]. *)
Definition signed_digit (v c : Z) : Z * Z :=
  let eight := VSET164 8 in
  let mask8 := VSET164 0xFF in
  let ei := VADD v c in
  let carry := VADD ei eight in
  let carry := VSHR carry 4 in
  let ei := VSUB ei (VSHL carry 4) in
  let ei := VAND ei mask8 in
  (ei, carry).

(** The signed recoding loop on the first [n] entries of a list. *)
Fixpoint signed_struct (n : nat) (l : list Z) (c : Z) : list Z * Z :=
  match n, l with
  | S n', v :: r =>
      let '(d, c') := signed_digit v c in
      let '(r', c'') := signed_struct n' r c' in
      (d :: r', c'')
  | _, _ => (l, c)
  end.

(** The clamped scalar 2^255 - 8. *)
Definition k_ones : list m256i :=
  map VSET164 [0xFFFFFFF8; 0xFFFFFFFF; 0xFFFFFFFF; 0xFFFFFFFF;
               0xFFFFFFFF; 0xFFFFFFFF; 0xFFFFFFFF; 0x7FFFFFFF].

(** ** Test data *)

(** RFC 7748, section 5.2, first vector: scalar, u-coordinate and result, as
    little-endian bytes. *)
Definition rfc_scalar : list Z :=
  [0xa5;0x46;0xe3;0x6b;0xf0;0x52;0x7c;0x9d;0x3b;0x16;0x15;0x4b;0x82;0x46;0x5e;0xdd;
   0x62;0x14;0x4c;0x0a;0xc1;0xfc;0x5a;0x18;0x50;0x6a;0x22;0x44;0xba;0x44;0x9a;0xc4].
Definition rfc_u : list Z :=
  [0xe6;0xdb;0x68;0x67;0x58;0x30;0x30;0xdb;0x35;0x94;0xc1;0xa4;0x24;0xb1;0x5f;0x7c;
   0x72;0x66;0x24;0xec;0x26;0xb3;0x35;0x3b;0x10;0xa9;0x03;0xa6;0xd0;0xab;0x1c;0x4c].
Definition rfc_out : list Z :=
  [0xc3;0xda;0x55;0x37;0x9d;0xe9;0xc6;0x90;0x8e;0x94;0xea;0x4d;0xf2;0x8d;0x08;0x4f;
   0x32;0xec;0xcf;0x03;0x49;0x1c;0x71;0xf7;0x54;0xb4;0x07;0x55;0x77;0xa2;0x85;0x52].

(** The 9-limb radix-2^29 form of 32 little-endian bytes. *)
Definition limbs_of_bytes (b : list Z) : list Z :=
  mpi29_conv_32to29 (words_of_bytes b) 9 8.
(** The 32 little-endian bytes of a field element of one lane, as main.c
    prints it: [mpi29_conv_29to32] and the low eight words. *)
Definition bytes_of_fe (a : fe Z) : list Z :=
  bytes_of_words (firstn 8 (mpi29_conv_29to32 (fe_list a) 9 9)).

(** The limbs of p = 2^255 - 19 itself. *)
Definition fe_p : fe m256i :=
  fe_bcast [MASK29 - 18; MASK29; MASK29; MASK29; MASK29; MASK29; MASK29; MASK29; 0x7FFFFF].

(** A table of empty rows and inputs that differ outside lane 2, for the lane
    independence statement. *)
Definition base_empty : Z -> Z -> LutPoint := fun _ _ => mkLut [] [] [].
Definition sk_one : list m256i := map (fun w => mk256 w 1 3 w) [1; 2; 3; 4; 5; 6; 7; 8].
Definition sk_two : list m256i := map (fun w => mk256 0 w 3 5) [1; 2; 3; 4; 5; 6; 7; 8].
Definition pk_one : fe m256i := fe_const (mk256 1 2 9 4).
Definition pk_two : fe m256i := fe_const (mk256 5 6 9 7).

(** ** Auxiliary definitions of the proofs *)

Definition st_lane (j : lane_id) (st : ProPoint m256i * ProPoint m256i * m256i) :=
  (pro_lane j (fst (fst st)), pro_lane j (snd (fst st)), lane j (snd st)).

Definition tri_lane (j : lane_id) (c : m256i * m256i * m256i) : Z * Z * Z :=
  (lane j (fst (fst c)), lane j (snd (fst c)), lane j (snd c)).

Definition fe_ones : fe m256i := fe_const (mk256 1 2 3 4).

Definition fe_twos : fe m256i := fe_const (mk256 5 6 7 8).

Definition flag_eq (s s' : m256i) : Prop := VAND s (VSET164 1) = VAND s' (VSET164 1).

Definition pt_ones : ProPoint m256i := mkPro fe_ones fe_ones fe_ones.

Definition pt_twos : ProPoint m256i := mkPro fe_twos fe_twos fe_twos.

(** Whether the interval reading of a result is conclusive and inside [j]. *)
Definition settles (r j : fe itv) : bool := fe_forallb itv_ok r && fe_sub r j.

(** [a] stands for the power [e] of [x], modulo p. *)
Definition pow_of (x e : Z) (a : fe Z) : Prop :=
  0 <= e /\ val a mod p25519 = x ^ e mod p25519.

(** ** Operand ranges and congruence modulo p *)

(** Every limb at most 2^30 + 2^25: what the sum of two results of the
    reducing operations can reach. *)
Definition wide_itv : fe itv := fe_const (upto (2 ^ 30 + 2 ^ 25)).
(** Every limb below 2^31. *)
Definition word31_itv : fe itv := fe_const (upto (2 ^ 31 - 1)).
(** Congruence modulo p = 2^255 - 19. *)
Definition eqp (a b : Z) : Prop := a mod p25519 = b mod p25519.

(** Congruence modulo p is an equivalence compatible with the ring operations. *)
#[global] Instance eqp_equiv : Equivalence eqp := eqm_setoid p25519.
#[global] Instance eqp_add : Proper (eqp ==> eqp ==> eqp) Z.add := Zplus_eqm p25519.
#[global] Instance eqp_sub : Proper (eqp ==> eqp ==> eqp) Z.sub := Zminus_eqm p25519.
#[global] Instance eqp_mul : Proper (eqp ==> eqp ==> eqp) Z.mul := Zmult_eqm p25519.

(** Limbs 0..7 at most 2^29 - 1 and limb 8 at most 2^23 - 1: a value below 2^255. *)
Definition below255_itv : fe itv :=
  mkfe (upto MASK29) (upto MASK29) (upto MASK29) (upto MASK29) (upto MASK29)
       (upto MASK29) (upto MASK29) (upto MASK29) (upto (2 ^ 23 - 1)).

(** All three slots of a point within a range, in one lane and in all lanes. *)
Definition pro_in (i : fe itv) (p : ProPoint Z) : Prop :=
  fe_in i (p_x p) /\ fe_in i (p_y p) /\ fe_in i (p_z p).
Definition pro_lanes_in (i : fe itv) (p : ProPoint m256i) : Prop :=
  forall j, pro_in i (pro_lane j p).

(** The formulas of the Montgomery ladder step (a24 = (A - 2) / 4 = 121665):
    doubling of (x : z), and differential addition of (x : z) and (x' : z')
    with difference xd. *)
Definition dbl_x (x z : Z) : Z := (x + z) * (x + z) * ((x - z) * (x - z)).
Definition dbl_z (x z : Z) : Z :=
  let e := (x + z) * (x + z) - (x - z) * (x - z) in
  (e * ((CONSTA - 2) / 4) + (x + z) * (x + z)) * e.
Definition dadd_x (x z x' z' : Z) : Z :=
  let da := (x' - z') * (x + z) in
  let cb := (x' + z') * (x - z) in
  (da + cb) * (da + cb).
Definition dadd_z (x z x' z' xd : Z) : Z :=
  let da := (x' - z') * (x + z) in
  let cb := (x' + z') * (x - z) in
  (da - cb) * (da - cb) * xd.

(** ** The table query, as a selection *)

(** The chunks of a table entry are 64-bit words. *)
Definition lut_wf (e : LutPoint) : Prop :=
  forall i, wf64 (word 0 (lut_x e) i) /\ wf64 (word 0 (lut_y e) i) /\
            wf64 (word 0 (lut_z e) i).
Definition table_wf (base : Z -> Z -> LutPoint) : Prop := forall pos j, lut_wf (base pos j).
(** The neutral element in Duif representation: (1/2, 1/2, 0). *)
Definition lut_neutral : LutPoint := mkLut one_half one_half [0; 0; 0; 0].
(** The entry a magnitude selects: the neutral element for 0, row n - 1 of
    column [pos] for n in 1..8. *)
Definition select_entry (base : Z -> Z -> LutPoint) (pos n : Z) : LutPoint :=
  if n =? 0 then lut_neutral else base pos (n - 1).
Definition chunks4 (l : list Z) : list Z := map (word 0 l) [0; 1; 2; 3].
(** The point a digit selects in one lane: the entry of its magnitude, with x
    and y exchanged and z negated for a negative digit. *)
Definition query_result (base : Z -> Z -> LutPoint) (pos b : Z) : ProPoint Z :=
  let ent := select_entry base pos (Z.abs (sgn8 b)) in
  let neg := 128 <=? b in
  let rz := lut_conv_coor2mpi29_avx2 (chunks4 (lut_z ent)) in
  mkPro (lut_conv_coor2mpi29_avx2 (chunks4 (if neg then lut_y ent else lut_x ent)))
        (lut_conv_coor2mpi29_avx2 (chunks4 (if neg then lut_x ent else lut_y ent)))
        (if neg then mpi29_gfp_sub_avx2 fe_zero rz else rz).
(** The mask of one table row: all ones where the magnitude equals the index. *)
Definition row_mask (a i : Z) : Z := if a =? i then 0xFFFFFFFFFFFFFFFF else 0.

(** ** Twisted Edwards addition *)

(** Every limb at most 2^30 + 2^29 + 2^24: what the non-reducing difference
    of two elements in the folded range can reach. *)
Definition diff_itv : fe itv := fe_const (upto (2 ^ 30 + 2 ^ 29 + 2 ^ 24)).

(** The ranges of the slots of an extended point between two point
    operations. *)
Definition ext_in (p : ExtPoint Z) : Prop :=
  fe_in folded_itv (e_x p) /\ fe_in folded_itv (e_y p) /\ fe_in folded_itv (e_z p) /\
  fe_in diff_itv (e_e p) /\ fe_in wide_itv (e_h p).
Definition ext_lanes_in (p : ExtPoint m256i) : Prop := forall j, ext_in (ext_lane j p).

(** The unified mixed addition with the second point in Duif representation
    (qx, qy, qz) = ((y' + x') / 2, (y' - x') / 2, d x' y'): the four factors
    E, F, G, H, with X3 = E F, Y3 = G H, Z3 = F G, T3 = E H. *)
Definition tadd_E (x y qx qy : Z) : Z := (y + x) * qx - (y - x) * qy.
Definition tadd_H (x y qx qy : Z) : Z := (y + x) * qx + (y - x) * qy.
Definition tadd_F (z e h qz : Z) : Z := z - e * h * qz.
Definition tadd_G (z e h qz : Z) : Z := z + e * h * qz.

(** An extended point and a table point with all limbs 2^29 - 1. *)
Definition ext_max : ExtPoint m256i := mkExt fe_max fe_max fe_max fe_max fe_max.

(** The last four lines of [mon_mul_fixbase_avx2]: from the twisted Edwards
    curve to the Montgomery curve, u = (z + y) / (z - y). *)
Definition ted_to_mon {T} `{Vec T} (p : ProPoint T) : fe T :=
  let px := mpi29_gfp_sbc_avx2 (p_z p) (p_y p) in
  let px := mpi29_gfp_inv_avx2 px in
  let t := mpi29_gfp_add_avx2 (p_z p) (p_y p) in
  mpi29_gfp_mul_avx2 t px.

(** * Words and lanes *)

Lemma wrap64_mod x : wrap64 x = x mod two64.
Proof.
  unfold wrap64. change 0xFFFFFFFFFFFFFFFF with (Z.ones 64).
  rewrite Z.land_ones by lia. reflexivity.
Qed.

Lemma lo32_mod x : lo32 x = x mod two32.
Proof.
  unfold lo32. change 0xFFFFFFFF with (Z.ones 32).
  rewrite Z.land_ones by lia. reflexivity.
Qed.

Lemma wrap64_small x : 0 <= x < two64 -> wrap64 x = x.
Proof. intros. rewrite wrap64_mod. apply Z.mod_small; assumption. Qed.

Lemma lo32_small x : 0 <= x < two32 -> lo32 x = x.
Proof. intros. rewrite lo32_mod. apply Z.mod_small; assumption. Qed.

Lemma land_lxor_distr a b c :
  Z.land (Z.lxor a b) c = Z.lxor (Z.land a c) (Z.land b c).
Proof.
  apply Z.bits_inj'. intros n _.
  rewrite Z.lxor_spec, !Z.land_spec, Z.lxor_spec.
  destruct (Z.testbit a n), (Z.testbit b n), (Z.testbit c n); reflexivity.
Qed.

Lemma m256i_ext (u v : m256i) : (forall j, lane j u = lane j v) -> u = v.
Proof.
  intros E. destruct u, v.
  pose proof (E L0). pose proof (E L1). pose proof (E L2). pose proof (E L3).
  simpl in *. congruence.
Qed.

Lemma fe_ext {A} (a b : fe A) :
  f0 a = f0 b -> f1 a = f1 b -> f2 a = f2 b -> f3 a = f3 b -> f4 a = f4 b ->
  f5 a = f5 b -> f6 a = f6 b -> f7 a = f7 b -> f8 a = f8 b -> a = b.
Proof. destruct a, b; simpl; intros; congruence. Qed.

Lemma fe256_ext (a b : fe m256i) : (forall j, fe_lane j a = fe_lane j b) -> a = b.
Proof.
  intros E. apply fe_ext; apply m256i_ext; intros j; specialize (E j);
    unfold fe_lane, fe_map in E; congruence.
Qed.

Lemma word_map {A B} (g : A -> B) d l i : g (word d l i) = word (g d) (map g l) i.
Proof. unfold word. symmetry. apply map_nth. Qed.

Lemma upd_nat_map {A B} (g : A -> B) l i v :
  map g (upd_nat l i v) = upd_nat (map g l) i (g v).
Proof.
  revert i; induction l as [|h t IH]; intros [|i]; simpl; try reflexivity.
  now rewrite IH.
Qed.

Lemma upd_map {A B} (g : A -> B) l i v : map g (upd l i v) = upd (map g l) i (g v).
Proof. apply upd_nat_map. Qed.

Lemma upd_nat_length {A} (l : list A) i v : length (upd_nat l i v) = length l.
Proof. revert i; induction l; intros [|i]; simpl; auto. Qed.

Lemma upd_length {A} (l : list A) i v : length (upd l i v) = length l.
Proof. apply upd_nat_length. Qed.

Lemma nth_upd_nat_same {A} (d : A) l i v : (i < length l)%nat -> nth i (upd_nat l i v) d = v.
Proof. revert i; induction l; intros [|i]; simpl; intros; try lia; auto. apply IHl; lia. Qed.

Lemma nth_upd_nat_other {A} (d : A) l i k v : i <> k -> nth k (upd_nat l i v) d = nth k l d.
Proof.
  revert i k; induction l; intros [|i] [|k]; simpl; intros; try congruence; auto.
Qed.

Lemma word_upd_same {A} (d : A) l i v :
  0 <= i < Z.of_nat (length l) -> word d (upd l i v) i = v.
Proof. intros. apply nth_upd_nat_same. lia. Qed.

Lemma word_upd_other {A} (d : A) l i k v :
  0 <= i -> 0 <= k -> i <> k -> word d (upd l i v) k = word d l k.
Proof. intros. apply nth_upd_nat_other. lia. Qed.

(** * Every lane runs the code on its own

    The four-lane run of each function, projected on lane [j], is the
    one-lane run on the projected inputs. *)

Ltac lane_red :=
  cbv beta iota zeta delta
    [fe_lane fe_map lane vmap vmap2 q0 q1 q2 q3 f0 f1 f2 f3 f4 f5 f6 f7 f8 fst snd
     mpi29_gfp_mul_avx2 mpi29_gfp_sqr_avx2 mpi29_cswap_avx2 mpi29_gfp_add_avx2
     mpi29_gfp_sub_avx2 mpi29_gfp_sbc_avx2 mpi29_gfp_mul29_avx2 final_modp
     mpi29_copy_avx2 pair_map fe_zero fe_one fe_const
     VMAC VZERO VADD VSUB VMUL VAND VOR VXOR VSHR VSHL VSET164 Avx2].
Ltac lane_hom j := destruct j; lane_red; reflexivity.

Lemma lane_VSET164 j c : lane j (VSET164 c) = VSET164 c.
Proof. destruct j; reflexivity. Qed.
Lemma lane_VZERO j : lane j VZERO = VZERO.
Proof. destruct j; reflexivity. Qed.
Lemma lane_VADD j x y : lane j (VADD x y) = VADD (lane j x) (lane j y).
Proof. destruct j; reflexivity. Qed.
Lemma lane_VSUB j x y : lane j (VSUB x y) = VSUB (lane j x) (lane j y).
Proof. destruct j; reflexivity. Qed.
Lemma lane_VMUL j x y : lane j (VMUL x y) = VMUL (lane j x) (lane j y).
Proof. destruct j; reflexivity. Qed.
Lemma lane_VXOR j x y : lane j (VXOR x y) = VXOR (lane j x) (lane j y).
Proof. destruct j; reflexivity. Qed.
Lemma lane_VAND j x y : lane j (VAND x y) = VAND (lane j x) (lane j y).
Proof. destruct j; reflexivity. Qed.
Lemma lane_VOR j x y : lane j (VOR x y) = VOR (lane j x) (lane j y).
Proof. destruct j; reflexivity. Qed.
Lemma lane_VSHR j x n : lane j (VSHR x n) = VSHR (lane j x) n.
Proof. destruct j; reflexivity. Qed.
Lemma lane_VSHL j x n : lane j (VSHL x n) = VSHL (lane j x) n.
Proof. destruct j; reflexivity. Qed.
Lemma lane_VABS8 j x : lane j (VABS8 x) = VABS8 (lane j x).
Proof. destruct j; reflexivity. Qed.
Lemma lane_VBROAD64 j c : lane j (VBROAD64 c) = VBROAD64 c.
Proof. destruct j; reflexivity. Qed.

Lemma lane_add j a b :
  fe_lane j (mpi29_gfp_add_avx2 a b) = mpi29_gfp_add_avx2 (fe_lane j a) (fe_lane j b).
Proof. lane_hom j. Qed.
Lemma lane_sub j a b :
  fe_lane j (mpi29_gfp_sub_avx2 a b) = mpi29_gfp_sub_avx2 (fe_lane j a) (fe_lane j b).
Proof. lane_hom j. Qed.
Lemma lane_sbc j a b :
  fe_lane j (mpi29_gfp_sbc_avx2 a b) = mpi29_gfp_sbc_avx2 (fe_lane j a) (fe_lane j b).
Proof. lane_hom j. Qed.
Lemma lane_mul j a b :
  fe_lane j (mpi29_gfp_mul_avx2 a b) = mpi29_gfp_mul_avx2 (fe_lane j a) (fe_lane j b).
Proof. lane_hom j. Qed.
Lemma lane_mul29 j a c :
  fe_lane j (mpi29_gfp_mul29_avx2 a c) = mpi29_gfp_mul29_avx2 (fe_lane j a) c.
Proof. lane_hom j. Qed.
Lemma lane_sqr j a :
  fe_lane j (mpi29_gfp_sqr_avx2 a) = mpi29_gfp_sqr_avx2 (fe_lane j a).
Proof. lane_hom j. Qed.
Lemma lane_copy j a : fe_lane j (mpi29_copy_avx2 a) = mpi29_copy_avx2 (fe_lane j a).
Proof. lane_hom j. Qed.
Lemma lane_final_modp j a : fe_lane j (final_modp a) = final_modp (fe_lane j a).
Proof. lane_hom j. Qed.
Lemma lane_cswap j r a b :
  pair_map (fe_lane j) (fe_lane j) (mpi29_cswap_avx2 r a b) =
  mpi29_cswap_avx2 (fe_lane j r) (fe_lane j a) (lane j b).
Proof. lane_hom j. Qed.
Lemma lane_fe_zero j : fe_lane j fe_zero = fe_zero.
Proof. lane_hom j. Qed.
Lemma lane_fe_one j : fe_lane j fe_one = fe_one.
Proof. lane_hom j. Qed.

Lemma lane_iter_sqr j n a :
  fe_lane j (Nat.iter n mpi29_gfp_sqr_avx2 a) = Nat.iter n mpi29_gfp_sqr_avx2 (fe_lane j a).
Proof. induction n; simpl; [reflexivity|]. now rewrite lane_sqr, IHn. Qed.

Lemma lane_inv j a : fe_lane j (mpi29_gfp_inv_avx2 a) = mpi29_gfp_inv_avx2 (fe_lane j a).
Proof.
  unfold mpi29_gfp_inv_avx2. cbv zeta.
  repeat (rewrite ?lane_mul, ?lane_sqr, ?lane_iter_sqr). reflexivity.
Qed.

Lemma lane_ladder_step j p q xd :
  pair_map (pro_lane j) (pro_lane j) (mon_ladder_step_avx2 p q xd) =
  mon_ladder_step_avx2 (pro_lane j p) (pro_lane j q) (fe_lane j xd).
Proof.
  unfold mon_ladder_step_avx2, pair_map, pro_lane. cbv zeta. cbn [fst snd p_x p_y p_z].
  repeat (rewrite ?lane_mul, ?lane_sqr, ?lane_add, ?lane_sub, ?lane_sbc, ?lane_mul29).
  reflexivity.
Qed.

Lemma lane_cswap_point j p q b :
  pair_map (pro_lane j) (pro_lane j) (mon_cswap_point_avx2 p q b) =
  mon_cswap_point_avx2 (pro_lane j p) (pro_lane j q) (lane j b).
Proof.
  unfold mon_cswap_point_avx2. cbv zeta.
  pose proof (lane_cswap j (p_x p) (p_x q) (VAND b (VSET164 1))) as Ex.
  pose proof (lane_cswap j (p_z p) (p_z q) (VAND b (VSET164 1))) as Ez.
  rewrite lane_VAND, lane_VSET164 in Ex, Ez.
  cbn [pro_lane p_x p_y p_z].
  destruct (mpi29_cswap_avx2 (p_x p) (p_x q) _) as [px qx].
  destruct (mpi29_cswap_avx2 (p_z p) (p_z q) _) as [pz qz].
  rewrite <- Ex, <- Ez. reflexivity.
Qed.

Lemma prune_eq {T} `{Vec T} (k : list T) :
  prune k =
  [VAND (word VZERO k 0) (VSET164 0xFFFFFFF8); word VZERO k 1; word VZERO k 2;
   word VZERO k 3; word VZERO k 4; word VZERO k 5; word VZERO k 6;
   VOR (VAND (word VZERO k 7) (VSET164 0x7FFFFFFF)) (VSET164 0x40000000)].
Proof. reflexivity. Qed.

Lemma lane_prune j k : map (lane j) (prune k) = prune (map (lane j) k).
Proof.
  rewrite !prune_eq. cbn [map].
  rewrite lane_VOR, !lane_VAND, !lane_VSET164, !(word_map (lane j)), lane_VZERO.
  reflexivity.
Qed.

Lemma lane_ladder_iter j kp x i st :
  st_lane j (ladder_iter kp x i st) =
  ladder_iter (map (lane j) kp) (fe_lane j x) i (st_lane j st).
Proof.
  destruct st as [[p1 p2] s]. unfold ladder_iter, st_lane. cbv zeta. cbn [fst snd].
  rewrite <- lane_VZERO with (j := j), <- word_map, <- lane_VSHR, <- lane_VXOR.
  rewrite <- lane_cswap_point.
  destruct (mon_cswap_point_avx2 p1 p2 _) as [p1' p2']. cbn [pair_map fst snd].
  rewrite <- lane_ladder_step.
  destruct (mon_ladder_step_avx2 p1' p2' x) as [p1'' p2'']. reflexivity.
Qed.

Lemma lane_ladder_loop j kp x n st :
  st_lane j (ladder_loop kp x n st) =
  ladder_loop (map (lane j) kp) (fe_lane j x) n (st_lane j st).
Proof.
  revert st; induction n; intros st; simpl; [reflexivity|].
  now rewrite IHn, lane_ladder_iter.
Qed.

Lemma lane_varbase j k x :
  fe_lane j (mon_mul_varbase_avx2 k x) = mon_mul_varbase_avx2 (map (lane j) k) (fe_lane j x).
Proof.
  unfold mon_mul_varbase_avx2. cbv zeta.
  rewrite <- lane_prune.
  assert (E0 : (mkPro fe_one fe_zero fe_zero, mkPro (fe_lane j x) fe_zero fe_one,
                @VZERO Z _) =
               st_lane j (mkPro fe_one fe_zero fe_zero, mkPro x fe_zero fe_one, VZERO)).
  { unfold st_lane, pro_lane; cbn [fst snd p_x p_y p_z].
    now rewrite lane_fe_one, lane_fe_zero, lane_VZERO. }
  rewrite E0, <- lane_ladder_loop. clear E0.
  destruct (ladder_loop (prune k) x 255 _) as [[p1 p2] s].
  unfold st_lane; cbn [fst snd].
  rewrite <- lane_cswap_point.
  destruct (mon_cswap_point_avx2 p1 p2 s) as [p1' p2']. cbn [pair_map fst snd pro_lane p_x p_z].
  now rewrite lane_mul, lane_inv.
Qed.

Lemma lane_sharedsecret j ska pkb :
  fe_lane j (sharedsecret ska pkb) = sharedsecret (map (lane j) ska) (fe_lane j pkb).
Proof. unfold sharedsecret. now rewrite lane_final_modp, lane_varbase. Qed.

(** * The twisted Edwards side, lane by lane *)

Lemma lane_VSHUF32_A0 j x : lane j (VSHUF32 x 0xA0) = VSHUF32 (lane j x) 0xA0.
Proof. destruct x, j; reflexivity. Qed.

Lemma lane_lut_conv j a :
  fe_lane j (lut_conv_coor2mpi29_avx2 a) = lut_conv_coor2mpi29_avx2 (map (lane j) a).
Proof.
  unfold lut_conv_coor2mpi29_avx2, fe_lane, fe_map. cbv zeta. cbn [f0 f1 f2 f3 f4 f5 f6 f7 f8].
  rewrite !lane_VAND, !lane_VOR, !lane_VSHR, !lane_VSHL, !lane_VSET164,
    !(word_map (lane j)), !lane_VZERO.
  reflexivity.
Qed.

Lemma lane_point_add j p q :
  ext_lane j (ted_point_add_avx2 p q) = ted_point_add_avx2 (ext_lane j p) (pro_lane j q).
Proof.
  unfold ted_point_add_avx2, ext_lane, pro_lane. cbv zeta.
  cbn [e_x e_y e_z e_e e_h p_x p_y p_z].
  repeat (rewrite ?lane_mul, ?lane_add, ?lane_sub, ?lane_sbc). reflexivity.
Qed.

Lemma lane_point_dbl j p :
  ext_lane j (ted_point_dbl_avx2 p) = ted_point_dbl_avx2 (ext_lane j p).
Proof.
  unfold ted_point_dbl_avx2, ext_lane. cbv zeta. cbn [e_x e_y e_z e_e e_h].
  repeat (rewrite ?lane_mul, ?lane_sqr, ?lane_add, ?lane_sub, ?lane_sbc, ?lane_mul29).
  reflexivity.
Qed.

Lemma lane_point_init j : ext_lane j ted_point_init_ext_avx2 = ted_point_init_ext_avx2.
Proof.
  unfold ted_point_init_ext_avx2, ext_lane. cbn [e_x e_y e_z e_e e_h].
  now rewrite lane_fe_one, lane_fe_zero.
Qed.

Lemma lane_create_masks j n babs index :
  map (lane j) (create_masks n babs index) = create_masks n (lane j babs) (lane j index).
Proof.
  revert index; induction n; intros index; cbn [create_masks map]; [reflexivity|].
  rewrite IHn, lane_VSHUF32_A0, lane_VSHR, lane_VSUB, lane_VXOR, lane_VADD, lane_VSET164.
  reflexivity.
Qed.

Section Table.
Variable base : Z -> Z -> LutPoint.

Lemma lane_query_rows j mask pos i n r acc :
  tri_lane j (query_rows base mask pos i n r acc) =
  query_rows base (map (lane j) mask) pos i n r (tri_lane j acc).
Proof.
  revert r acc; induction n; intros r [[xP yP] zP]; cbn [query_rows]; [reflexivity|].
  rewrite IHn. unfold tri_lane; cbn [fst snd].
  rewrite !lane_VXOR, !lane_VAND, !lane_VBROAD64, !(word_map (lane j)), !lane_VZERO.
  reflexivity.
Qed.

Lemma lane_query_chunk j mask pos i :
  tri_lane j (query_chunk base mask pos i) = query_chunk base (map (lane j) mask) pos i.
Proof.
  unfold query_chunk. cbv zeta. rewrite lane_query_rows.
  unfold tri_lane; cbn [fst snd].
  rewrite !lane_VXOR, !lane_VAND, !lane_VSET164, !(word_map (lane j)), !lane_VZERO.
  reflexivity.
Qed.

Lemma lane_sign_swap j bmask c :
  tri_lane j (sign_swap bmask c) = sign_swap (lane j bmask) (tri_lane j c).
Proof.
  destruct c as [[xP yP] zP]. unfold sign_swap, tri_lane; cbn [fst snd].
  now rewrite !lane_VXOR, !lane_VAND, !lane_VXOR.
Qed.

Lemma lane_query_table j pos b :
  pro_lane j (ted_point_query_table_avx2 base pos b) =
  ted_point_query_table_avx2 base pos (lane j b).
Proof.
  unfold ted_point_query_table_avx2. cbv zeta.
  rewrite <- lane_VABS8, <- lane_VZERO with (j := j), <- lane_create_masks.
  rewrite <- lane_VSHR, <- lane_VSUB.
  set (mask := create_masks 9 (VABS8 b) VZERO).
  set (bsign := VSHR b 7).
  set (bmask := VSUB VZERO bsign).
  cbn [map].
  rewrite <- !lane_query_chunk, <- !lane_sign_swap.
  set (c0 := sign_swap bmask (query_chunk base mask pos 0)).
  set (c1 := sign_swap bmask (query_chunk base mask pos 1)).
  set (c2 := sign_swap bmask (query_chunk base mask pos 2)).
  set (c3 := sign_swap bmask (query_chunk base mask pos 3)).
  unfold tri_lane; cbn [fst snd].
  change [lane j (fst (fst c0)); lane j (fst (fst c1)); lane j (fst (fst c2)); lane j (fst (fst c3))]
    with (map (lane j) [fst (fst c0); fst (fst c1); fst (fst c2); fst (fst c3)]).
  change [lane j (snd (fst c0)); lane j (snd (fst c1)); lane j (snd (fst c2)); lane j (snd (fst c3))]
    with (map (lane j) [snd (fst c0); snd (fst c1); snd (fst c2); snd (fst c3)]).
  change [lane j (snd c0); lane j (snd c1); lane j (snd c2); lane j (snd c3)]
    with (map (lane j) [snd c0; snd c1; snd c2; snd c3]).
  rewrite <- !lane_lut_conv, <- !lane_copy.
  rewrite <- lane_fe_zero with (j := j), <- lane_sub, <- lane_cswap.
  destruct (mpi29_cswap_avx2 _ _ bsign) as [rz t]. reflexivity.
Qed.

Lemma lane_word_nibbles j w :
  map (lane j) (word_nibbles w) = word_nibbles (lane j w).
Proof.
  unfold word_nibbles. cbv zeta. cbn [map].
  now rewrite !lane_VAND, !lane_VSHR, !lane_VSET164.
Qed.

Lemma lane_signed_loop j n i e carry :
  pair_map (map (lane j)) (lane j) (signed_loop n i e carry) =
  signed_loop n i (map (lane j) e) (lane j carry).
Proof.
  revert i e carry; induction n; intros i e carry; cbn [signed_loop]; [reflexivity|].
  rewrite IHn, upd_map.
  rewrite !lane_VAND, !lane_VSUB, !lane_VSHL, !lane_VSHR, !lane_VADD, !lane_VSET164,
    !(word_map (lane j)), !lane_VZERO.
  reflexivity.
Qed.

Lemma lane_nibble j k :
  map (lane j) (ted_conv_scalar2nibble_avx2 k) =
  ted_conv_scalar2nibble_avx2 (map (lane j) k).
Proof.
  unfold ted_conv_scalar2nibble_avx2. cbv zeta.
  set (e0 := flat_map _ _).
  set (e0' := flat_map _ _).
  assert (E0 : e0' = map (lane j) e0).
  { unfold e0, e0'. cbn [flat_map]. rewrite !map_app, !lane_word_nibbles.
    rewrite !(word_map (lane j)), !lane_VZERO. reflexivity. }
  rewrite E0, <- (lane_VZERO j), <- lane_signed_loop.
  destruct (signed_loop 63 0 e0 VZERO) as [e carry]. cbn [pair_map fst snd].
  rewrite upd_map, lane_VAND, lane_VADD, lane_VSET164, (word_map (lane j)).
  reflexivity.
Qed.

Lemma fixbase_loop_S {T} `{Vec T} n i e (h : ExtPoint T) (r : ProPoint T) :
  fixbase_loop base (S n) i e (h, r) =
  fixbase_loop base n (i + 2) e
    (ted_point_add_avx2 h (ted_point_query_table_avx2 base (Z.shiftr i 1) (word VZERO e i)),
     ted_point_query_table_avx2 base (Z.shiftr i 1) (word VZERO e i)).
Proof. reflexivity. Qed.

Lemma lane_fixbase_loop j n i e h r :
  pair_map (ext_lane j) (pro_lane j) (fixbase_loop base n i e (h, r)) =
  fixbase_loop base n i (map (lane j) e) (ext_lane j h, pro_lane j r).
Proof.
  revert i h r; induction n; intros i h r; [reflexivity|].
  rewrite !fixbase_loop_S, IHn, lane_point_add, lane_query_table, (word_map (lane j)), lane_VZERO.
  reflexivity.
Qed.

Lemma lane_ted_mul_fixbase j k :
  pro_lane j (ted_mul_fixbase_avx2 base k) = ted_mul_fixbase_avx2 base (map (lane j) k).
Proof.
  unfold ted_mul_fixbase_avx2. cbv zeta.
  rewrite <- lane_prune, <- lane_nibble.
  set (e := ted_conv_scalar2nibble_avx2 (prune k)).
  assert (E0 : (@ted_point_init_ext_avx2 Z _, mkPro (@fe_zero Z _) fe_zero fe_zero) =
               (ext_lane j ted_point_init_ext_avx2, pro_lane j (mkPro fe_zero fe_zero fe_zero))).
  { rewrite lane_point_init. unfold pro_lane; cbn [p_x p_y p_z]. now rewrite lane_fe_zero. }
  rewrite E0, <- lane_fixbase_loop. clear E0.
  destruct (fixbase_loop base 32 1 e _) as [h r]. cbn [pair_map fst snd].
  rewrite <- !lane_point_dbl, <- lane_fixbase_loop.
  destruct (fixbase_loop base 32 0 e _) as [h' r']. cbn [pair_map fst snd].
  unfold pro_lane, ext_lane; cbn [p_x p_y p_z e_x e_y e_z].
  now rewrite !lane_copy.
Qed.

Lemma lane_mon_mul_fixbase j k :
  fe_lane j (mon_mul_fixbase_avx2 base k) = mon_mul_fixbase_avx2 base (map (lane j) k).
Proof.
  unfold mon_mul_fixbase_avx2. cbv zeta.
  rewrite <- lane_ted_mul_fixbase.
  unfold pro_lane; cbn [p_x p_y p_z].
  now rewrite lane_mul, lane_inv, lane_add, lane_sbc.
Qed.

Lemma lane_keygen j sk :
  fe_lane j (keygen base sk) = keygen base (map (lane j) sk).
Proof. unfold keygen. now rewrite lane_final_modp, lane_mon_mul_fixbase. Qed.

End Table.

(** * Conditional swap *)

Lemma land_wf64 x : wf64 x -> Z.land x 0xFFFFFFFFFFFFFFFF = x.
Proof. intros Hx. apply (wrap64_small x Hx). Qed.

Lemma cswap_word_keep r a : Z.lxor r (Z.land (Z.lxor r a) 0) = r.
Proof. now rewrite Z.land_0_r, Z.lxor_0_r. Qed.

Lemma cswap_word_take r a :
  wf64 r -> wf64 a -> Z.lxor r (Z.land (Z.lxor r a) 0xFFFFFFFFFFFFFFFF) = a.
Proof.
  intros Hr Ha. rewrite land_lxor_distr, !land_wf64 by assumption.
  now rewrite <- Z.lxor_assoc, Z.lxor_nilpotent, Z.lxor_0_l.
Qed.

Lemma cswap_word_give r a :
  wf64 r -> wf64 a -> Z.lxor a (Z.land (Z.lxor r a) 0xFFFFFFFFFFFFFFFF) = r.
Proof.
  intros Hr Ha. rewrite land_lxor_distr, !land_wf64 by assumption.
  now rewrite (Z.lxor_comm r a), <- Z.lxor_assoc, Z.lxor_nilpotent, Z.lxor_0_l.
Qed.

Lemma cswap_lane_0 (r a : fe Z) : mpi29_cswap_avx2 r a 0 = (r, a).
Proof.
  destruct r as [r0 r1 r2 r3 r4 r5 r6 r7 r8], a as [a0 a1 a2 a3 a4 a5 a6 a7 a8].
  unfold mpi29_cswap_avx2. cbv zeta.
  cbn [f0 f1 f2 f3 f4 f5 f6 f7 f8 VXOR VAND VSUB VZERO VSET164 Lane64].
  change (wrap64 (wrap64 0 - 0)) with 0.
  now rewrite !cswap_word_keep, !Z.land_0_r, !Z.lxor_0_r.
Qed.

Lemma cswap_lane_1 (r a : fe Z) :
  fe_all wf64 r -> fe_all wf64 a -> mpi29_cswap_avx2 r a 1 = (a, r).
Proof.
  destruct r as [r0 r1 r2 r3 r4 r5 r6 r7 r8], a as [a0 a1 a2 a3 a4 a5 a6 a7 a8].
  unfold fe_all; cbn [f0 f1 f2 f3 f4 f5 f6 f7 f8].
  intros (?&?&?&?&?&?&?&?&?) (?&?&?&?&?&?&?&?&?).
  unfold mpi29_cswap_avx2. cbv zeta.
  cbn [f0 f1 f2 f3 f4 f5 f6 f7 f8 VXOR VAND VSUB VZERO VSET164 Lane64].
  change (wrap64 (wrap64 0 - 1)) with 0xFFFFFFFFFFFFFFFF.
  rewrite !cswap_word_take, !cswap_word_give by assumption. reflexivity.
Qed.

Lemma fe_lane_wf j a : fe_all wf256 a -> fe_all wf64 (fe_lane j a).
Proof.
  unfold fe_all, wf256, fe_lane, fe_map; cbn [f0 f1 f2 f3 f4 f5 f6 f7 f8].
  destruct j; cbn [lane]; intuition.
Qed.

Lemma pair_fe256_ext (u v : fe m256i * fe m256i) :
  (forall j, pair_map (fe_lane j) (fe_lane j) u = pair_map (fe_lane j) (fe_lane j) v) ->
  u = v.
Proof.
  destruct u as [u1 u2], v as [v1 v2]. unfold pair_map; cbn [fst snd]. intros E.
  f_equal; apply fe256_ext; intros j; specialize (E j); congruence.
Qed.

(** The swap in lane [j] is decided by the flag of lane [j]. *)
Lemma cswap_lane_flag j (r a : fe m256i) b :
  fe_all wf256 r -> fe_all wf256 a -> lane j b = 0 \/ lane j b = 1 ->
  pair_map (fe_lane j) (fe_lane j) (mpi29_cswap_avx2 r a b) =
  if lane j b =? 1 then (fe_lane j a, fe_lane j r) else (fe_lane j r, fe_lane j a).
Proof.
  intros Hr Ha Hb. rewrite lane_cswap.
  destruct Hb as [-> | ->]; cbn [Z.eqb Pos.eqb].
  - apply cswap_lane_0.
  - apply cswap_lane_1; now apply fe_lane_wf.
Qed.

Lemma cswap_vec_0 (r a : fe m256i) : mpi29_cswap_avx2 r a (VSET164 0) = (r, a).
Proof.
  apply pair_fe256_ext; intros j. rewrite lane_cswap, lane_VSET164.
  change (@VSET164 Z _ 0) with 0. apply cswap_lane_0.
Qed.

Lemma cswap_vec_1 (r a : fe m256i) :
  fe_all wf256 r -> fe_all wf256 a -> mpi29_cswap_avx2 r a (VSET164 1) = (a, r).
Proof.
  intros Hr Ha. apply pair_fe256_ext; intros j. rewrite lane_cswap, lane_VSET164.
  change (@VSET164 Z _ 1) with 1. apply cswap_lane_1; now apply fe_lane_wf.
Qed.

(** C9: with flag 0 the conditional swap leaves (r, a) unchanged, with flag 1
    it exchanges r and a, and applied twice with the same flag in {0, 1} it
    restores (r, a); r and a hold 64-bit words in every lane. *)
Theorem cswap_identity_swap_involution (r a : fe m256i) :
  fe_all wf256 r -> fe_all wf256 a ->
  mpi29_cswap_avx2 r a (VSET164 0) = (r, a) /\
  mpi29_cswap_avx2 r a (VSET164 1) = (a, r) /\
  (forall b, b = VSET164 0 \/ b = VSET164 1 ->
     mpi29_cswap_avx2 (fst (mpi29_cswap_avx2 r a b)) (snd (mpi29_cswap_avx2 r a b)) b
     = (r, a)).
Proof.
  intros Hr Ha. split; [apply cswap_vec_0|]. split; [now apply cswap_vec_1|].
  intros b [-> | ->].
  - now rewrite !cswap_vec_0.
  - rewrite (cswap_vec_1 r a Hr Ha). cbn [fst snd]. now apply cswap_vec_1.
Qed.

Lemma fe_ones_wf : fe_all wf256 fe_ones.
Proof. unfold fe_all, wf256, wf64, two64; cbn; lia. Qed.
Lemma fe_twos_wf : fe_all wf256 fe_twos.
Proof. unfold fe_all, wf256, wf64, two64; cbn; lia. Qed.

Lemma cswap_identity_swap_involution_witness :
  mpi29_cswap_avx2 fe_ones fe_twos (VSET164 0) = (fe_ones, fe_twos) /\
  mpi29_cswap_avx2 fe_ones fe_twos (VSET164 1) = (fe_twos, fe_ones) /\
  (forall b, b = VSET164 0 \/ b = VSET164 1 ->
     mpi29_cswap_avx2 (fst (mpi29_cswap_avx2 fe_ones fe_twos b))
       (snd (mpi29_cswap_avx2 fe_ones fe_twos b)) b = (fe_ones, fe_twos)).
Proof. exact (cswap_identity_swap_involution fe_ones fe_twos fe_ones_wf fe_twos_wf). Defined.

(** * Conditional swap of points: only bit 0 of the flag counts *)

Lemma land_1_odd b : Z.land b 1 = if Z.odd b then 1 else 0.
Proof.
  change 1 with (Z.ones 1) at 1. rewrite Z.land_ones by lia.
  change (2 ^ 1) with 2. rewrite <- Z.bit0_mod, Z.bit0_odd.
  destruct (Z.odd b); reflexivity.
Qed.

Lemma cswap_point_lane j p q b :
  pro_wf p -> pro_wf q ->
  pair_map (pro_lane j) (pro_lane j) (mon_cswap_point_avx2 p q b) =
  if Z.odd (lane j b)
  then (mkPro (fe_lane j (p_x q)) (fe_lane j (p_y p)) (fe_lane j (p_z q)),
        mkPro (fe_lane j (p_x p)) (fe_lane j (p_y q)) (fe_lane j (p_z p)))
  else (pro_lane j p, pro_lane j q).
Proof.
  intros [Hpx Hpz] [Hqx Hqz]. rewrite lane_cswap_point.
  unfold mon_cswap_point_avx2. cbv zeta. cbn [pro_lane p_x p_y p_z].
  change (@VAND Z _ (lane j b) (VSET164 1)) with (Z.land (lane j b) 1).
  rewrite land_1_odd. destruct (Z.odd (lane j b)).
  - rewrite !cswap_lane_1 by (now apply fe_lane_wf). reflexivity.
  - rewrite !cswap_lane_0. reflexivity.
Qed.

Lemma cswap_point_flag_cong {T} `{Vec T} (p q : ProPoint T) (s s' : T) :
  VAND s (VSET164 1) = VAND s' (VSET164 1) ->
  mon_cswap_point_avx2 p q s = mon_cswap_point_avx2 p q s'.
Proof. intros E. unfold mon_cswap_point_avx2. cbv zeta. now rewrite E. Qed.

Lemma vand_vxor_distr (a b c : m256i) : VAND (VXOR a b) c = VXOR (VAND a c) (VAND b c).
Proof.
  apply m256i_ext; intros j.
  rewrite !lane_VAND, !lane_VXOR, !lane_VAND. apply land_lxor_distr.
Qed.

Lemma vand_idem (b c : m256i) : VAND (VAND b c) c = VAND b c.
Proof.
  apply m256i_ext; intros j. rewrite !lane_VAND.
  cbn [VAND Lane64]. now rewrite <- Z.land_assoc, Z.land_diag.
Qed.

Lemma ladder_iter_bit_agrees kp x i p1 p2 s s' :
  flag_eq s s' ->
  exists q1 q2 t t',
    ladder_iter kp x i (p1, p2, s) = (q1, q2, t) /\
    ladder_iter_bit kp x i (p1, p2, s') = (q1, q2, t') /\ flag_eq t t'.
Proof.
  intros E. unfold ladder_iter, ladder_iter_bit. cbv zeta.
  set (b := VSHR (word VZERO kp (Z.shiftr i 5)) (Z.land i 31)).
  assert (Eb : flag_eq b (VAND b (VSET164 1))).
  { unfold flag_eq. symmetry. apply vand_idem. }
  assert (Es : flag_eq (VXOR s b) (VXOR s' (VAND b (VSET164 1)))).
  { unfold flag_eq in *. rewrite !vand_vxor_distr, E, vand_idem. reflexivity. }
  rewrite (cswap_point_flag_cong p1 p2 _ _ Es).
  destruct (mon_cswap_point_avx2 p1 p2 _) as [p1' p2'].
  destruct (mon_ladder_step_avx2 p1' p2' x) as [p1'' p2''].
  exists p1'', p2'', b, (VAND b (VSET164 1)). auto.
Qed.

Lemma ladder_loop_bit_agrees kp x n p1 p2 s s' :
  flag_eq s s' ->
  exists q1 q2 t t',
    ladder_loop kp x n (p1, p2, s) = (q1, q2, t) /\
    ladder_loop_bit kp x n (p1, p2, s') = (q1, q2, t') /\ flag_eq t t'.
Proof.
  revert p1 p2 s s'; induction n; intros p1 p2 s s' E.
  - exists p1, p2, s, s'. auto.
  - cbn [ladder_loop ladder_loop_bit].
    destruct (ladder_iter_bit_agrees kp x (Z.of_nat n) p1 p2 s s' E)
      as (q1 & q2 & t & t' & E1 & E2 & Et).
    rewrite E1, E2. now apply IHn.
Qed.

Lemma varbase_bits_agree (k : list m256i) x :
  mon_mul_varbase_avx2 k x = mon_mul_varbase_bits k x.
Proof.
  unfold mon_mul_varbase_avx2, mon_mul_varbase_bits. cbv zeta.
  destruct (ladder_loop_bit_agrees (prune k) x 255
              (mkPro fe_one fe_zero fe_zero) (mkPro x fe_zero fe_one) VZERO VZERO eq_refl)
    as (q1 & q2 & t & t' & E1 & E2 & Et).
  rewrite E1, E2, (cswap_point_flag_cong q1 q2 t t' Et). reflexivity.
Qed.

(** C10: [mon_cswap_point_avx2] swaps the x and z coordinates in lane j exactly
    when bit 0 of lane j of the flag is set (the y slots stay), whatever the
    other 63 bits are; hence the ladder fed with the whole shifted scalar word
    computes what the ladder fed with the single bit i computes. *)
Theorem cswap_point_uses_bit0_only :
  (forall j p q b, pro_wf p -> pro_wf q ->
     pair_map (pro_lane j) (pro_lane j) (mon_cswap_point_avx2 p q b) =
     if Z.odd (lane j b)
     then (mkPro (fe_lane j (p_x q)) (fe_lane j (p_y p)) (fe_lane j (p_z q)),
           mkPro (fe_lane j (p_x p)) (fe_lane j (p_y q)) (fe_lane j (p_z p)))
     else (pro_lane j p, pro_lane j q)) /\
  (forall (k : list m256i) x, mon_mul_varbase_avx2 k x = mon_mul_varbase_bits k x).
Proof. split; [apply cswap_point_lane | apply varbase_bits_agree]. Qed.

Lemma cswap_point_uses_bit0_only_witness :
  pro_wf pt_ones /\ pro_wf pt_twos /\
  pair_map (pro_lane L1) (pro_lane L1)
    (mon_cswap_point_avx2 pt_ones pt_twos (mk256 0 0xFFFFFFFF00000003 2 1)) =
  (mkPro (fe_lane L1 fe_twos) (fe_lane L1 fe_ones) (fe_lane L1 fe_twos),
   mkPro (fe_lane L1 fe_ones) (fe_lane L1 fe_twos) (fe_lane L1 fe_ones)).
Proof.
  split; [exact (conj fe_ones_wf fe_ones_wf)|].
  split; [exact (conj fe_twos_wf fe_twos_wf)|].
  exact (proj1 cswap_point_uses_bit0_only L1 pt_ones pt_twos
           (mk256 0 0xFFFFFFFF00000003 2 1)
           (conj fe_ones_wf fe_ones_wf) (conj fe_twos_wf fe_twos_wf)).
Defined.

(** * Overflow analysis: machine value, ideal value, interval *)

Lemma land_le_l x y : 0 <= x -> 0 <= Z.land x y <= x.
Proof.
  intros Hx. apply Z.ldiff_le; [assumption|].
  apply Z.bits_inj'. intros n _.
  rewrite Z.ldiff_spec, Z.land_spec, Z.bits_0.
  destruct (Z.testbit x n), (Z.testbit y n); reflexivity.
Qed.

Lemma land_le_r x y : 0 <= y -> 0 <= Z.land x y <= y.
Proof. rewrite Z.land_comm. apply land_le_l. Qed.

Lemma rel3_in64 x y a b :
  x = y mod two64 -> a <= y <= b -> in64 a b = true -> x = y /\ 0 <= y < two64.
Proof.
  unfold in64. intros E Hy Hb. apply andb_prop in Hb as [H1 H2].
  apply Z.leb_le in H1. apply Z.ltb_lt in H2.
  rewrite Z.mod_small in E by lia. split; [assumption | lia].
Qed.

Lemma rel3_in32 x y a b :
  x = y mod two64 -> a <= y <= b -> in32 a b = true -> x = y /\ 0 <= y < two32.
Proof.
  unfold in32. intros E Hy Hb. apply andb_prop in Hb as [H1 H2].
  apply Z.leb_le in H1. apply Z.ltb_lt in H2.
  rewrite Z.mod_small in E by (unfold two32, two64 in *; lia). split; [assumption | lia].
Qed.

Ltac rel3_case i :=
  let a := fresh "a" in let b := fresh "b" in
  destruct i as [[a b]|]; [|intros ? ? E; cbn in E; discriminate E].
Ltac rel3_open :=
  let lo := fresh "lo" in let hi := fresh "hi" in let E := fresh "E" in
  intros lo hi E; cbn [VADD VSUB VMUL VAND VSHR VSHL VSET164 Itv itv_lift2] in E;
  lazymatch type of E with
  | (if ?c then _ else _) = _ =>
      let Hc := fresh "Hc" in destruct c eqn:Hc; [|discriminate E]
  | _ => idtac
  end;
  injection E as <- <-.

Lemma rel3_VADD x1 y1 i1 x2 y2 i2 :
  rel3 x1 y1 i1 -> rel3 x2 y2 i2 ->
  rel3 (@VADD Z Lane64 x1 x2) (@VADD Z Ideal y1 y2) (@VADD itv Itv i1 i2).
Proof.
  intros H1 H2. rel3_case i1. rel3_case i2. rel3_open.
  destruct (H1 _ _ eq_refl) as [-> ?], (H2 _ _ eq_refl) as [-> ?].
  cbn [VADD Lane64 Ideal]. rewrite wrap64_mod, <- Zplus_mod. split; [reflexivity | lia].
Qed.

Lemma rel3_VSUB x1 y1 i1 x2 y2 i2 :
  rel3 x1 y1 i1 -> rel3 x2 y2 i2 ->
  rel3 (@VSUB Z Lane64 x1 x2) (@VSUB Z Ideal y1 y2) (@VSUB itv Itv i1 i2).
Proof.
  intros H1 H2. rel3_case i1. rel3_case i2. rel3_open.
  destruct (H1 _ _ eq_refl) as [-> ?], (H2 _ _ eq_refl) as [-> ?].
  cbn [VSUB Lane64 Ideal]. rewrite wrap64_mod, <- Zminus_mod. split; [reflexivity | lia].
Qed.

Lemma rel3_VMUL x1 y1 i1 x2 y2 i2 :
  rel3 x1 y1 i1 -> rel3 x2 y2 i2 ->
  rel3 (@VMUL Z Lane64 x1 x2) (@VMUL Z Ideal y1 y2) (@VMUL itv Itv i1 i2).
Proof.
  intros H1 H2. rel3_case i1. rel3_case i2. rel3_open.
  apply andb_prop in Hc as [Hc1 Hc2].
  destruct (H1 _ _ eq_refl) as [E1 B1], (H2 _ _ eq_refl) as [E2 B2].
  destruct (rel3_in32 _ _ _ _ E1 B1 Hc1) as [-> R1].
  destruct (rel3_in32 _ _ _ _ E2 B2 Hc2) as [-> R2].
  cbn [VMUL Lane64 Ideal]. rewrite !lo32_small by assumption.
  assert (0 <= y1 * y2 < two64) by (unfold two32, two64 in *; nia).
  rewrite Z.mod_small by assumption.
  unfold in32 in *. apply andb_prop in Hc1 as [Ha _]. apply andb_prop in Hc2 as [Ha0 _].
  apply Z.leb_le in Ha, Ha0.
  split; [reflexivity|]. split; [apply Z.mul_le_mono_nonneg | apply Z.mul_le_mono_nonneg]; lia.
Qed.

Lemma rel3_VAND x1 y1 i1 x2 y2 i2 :
  rel3 x1 y1 i1 -> rel3 x2 y2 i2 ->
  rel3 (@VAND Z Lane64 x1 x2) (@VAND Z Ideal y1 y2) (@VAND itv Itv i1 i2).
Proof.
  intros H1 H2. rel3_case i1. rel3_case i2. rel3_open.
  apply andb_prop in Hc as [Hc1 Hc2].
  destruct (H1 _ _ eq_refl) as [E1 B1], (H2 _ _ eq_refl) as [E2 B2].
  destruct (rel3_in64 _ _ _ _ E1 B1 Hc1) as [-> R1].
  destruct (rel3_in64 _ _ _ _ E2 B2 Hc2) as [-> R2].
  cbn [VAND Lane64 Ideal].
  pose proof (land_le_l y1 y2 ltac:(lia)). pose proof (land_le_r y1 y2 ltac:(lia)).
  rewrite Z.mod_small by lia. split; [reflexivity | lia].
Qed.

Lemma rel3_VSHR x y i n :
  rel3 x y i -> rel3 (@VSHR Z Lane64 x n) (@VSHR Z Ideal y n) (@VSHR itv Itv i n).
Proof.
  intros H1. rel3_case i. rel3_open.
  apply andb_prop in Hc as [Hc1 Hc2]. apply Z.leb_le in Hc2.
  destruct (H1 _ _ eq_refl) as [E1 B1].
  destruct (rel3_in64 _ _ _ _ E1 B1 Hc1) as [-> R1].
  cbn [VSHR Lane64 Ideal]. rewrite !Z.shiftr_div_pow2 by assumption.
  assert (0 < 2 ^ n) by (apply Z.pow_pos_nonneg; lia).
  assert (0 <= y / 2 ^ n <= y).
  { split; [apply Z.div_pos; lia|]. apply Z.div_le_upper_bound; [lia|]. nia. }
  rewrite Z.mod_small by lia.
  split; [reflexivity|]. split; apply Z.div_le_mono; lia.
Qed.

Lemma rel3_VSHL x y i n :
  rel3 x y i -> rel3 (@VSHL Z Lane64 x n) (@VSHL Z Ideal y n) (@VSHL itv Itv i n).
Proof.
  intros H1. rel3_case i. rel3_open. apply Z.leb_le in Hc.
  destruct (H1 _ _ eq_refl) as [-> B1].
  cbn [VSHL Lane64 Ideal]. rewrite wrap64_mod, !Z.shiftl_mul_pow2 by assumption.
  assert (0 < 2 ^ n) by (apply Z.pow_pos_nonneg; lia).
  rewrite Z.mul_mod_idemp_l by (unfold two64; lia).
  split; [reflexivity|]. split; apply Z.mul_le_mono_nonneg_r; lia.
Qed.

Lemma rel3_VSET164 c : rel3 (@VSET164 Z Lane64 c) (@VSET164 Z Ideal c) (@VSET164 itv Itv c).
Proof.
  rel3_open. cbn [VSET164 Lane64 Ideal]. rewrite wrap64_mod. split; [reflexivity | lia].
Qed.

Lemma rel3_bound x lo hi : 0 <= lo -> hi < two64 -> lo <= x <= hi -> rel3 x x (Some (lo, hi)).
Proof.
  intros Hl Hh Hx l h E. injection E as <- <-.
  rewrite Z.mod_small by lia. auto.
Qed.

(** What a relation with a 64-bit interval gives. *)
Lemma rel3_elim x y lo hi :
  rel3 x y (Some (lo, hi)) -> in64 lo hi = true -> x = y /\ lo <= y <= hi.
Proof.
  intros H Hb. destruct (H _ _ eq_refl) as [E B].
  destruct (rel3_in64 _ _ _ _ E B Hb). auto.
Qed.

Ltac rel3_ops :=
  repeat lazymatch goal with
  | |- rel3 (VADD _ _) _ _ => apply rel3_VADD
  | |- rel3 (VSUB _ _) _ _ => apply rel3_VSUB
  | |- rel3 (VMUL _ _) _ _ => apply rel3_VMUL
  | |- rel3 (VAND _ _) _ _ => apply rel3_VAND
  | |- rel3 (VSHR _ _) _ _ => apply rel3_VSHR
  | |- rel3 (VSHL _ _) _ _ => apply rel3_VSHL
  | |- rel3 (VSET164 _) _ _ => apply rel3_VSET164
  | |- rel3 _ _ _ => assumption
  end.

Ltac rel3_fe a b i Ha :=
  destruct a as [?a0 ?a1 ?a2 ?a3 ?a4 ?a5 ?a6 ?a7 ?a8];
  destruct b as [?b0 ?b1 ?b2 ?b3 ?b4 ?b5 ?b6 ?b7 ?b8];
  destruct i as [?i0 ?i1 ?i2 ?i3 ?i4 ?i5 ?i6 ?i7 ?i8];
  unfold fe_rel3 in Ha; cbn [f0 f1 f2 f3 f4 f5 f6 f7 f8] in Ha;
  destruct Ha as (?&?&?&?&?&?&?&?&?).

Ltac split9 := split; [|split; [|split; [|split; [|split; [|split; [|split; [|split]]]]]]].

Ltac rel3_body :=
  unfold fe_rel3;
  cbv beta iota zeta delta
    [mpi29_gfp_mul_avx2 mpi29_gfp_sqr_avx2 mpi29_gfp_add_avx2 mpi29_gfp_sub_avx2
     mpi29_gfp_sbc_avx2 mpi29_gfp_mul29_avx2 final_modp VMAC
     f0 f1 f2 f3 f4 f5 f6 f7 f8];
  split9; rel3_ops.

Lemma rel3_add a a' ia b b' ib :
  fe_rel3 a a' ia -> fe_rel3 b b' ib ->
  fe_rel3 (@mpi29_gfp_add_avx2 Z Lane64 a b) (@mpi29_gfp_add_avx2 Z Ideal a' b')
          (@mpi29_gfp_add_avx2 itv Itv ia ib).
Proof. intros Ha Hb. rel3_fe a a' ia Ha. rel3_fe b b' ib Hb. rel3_body. Qed.

Lemma rel3_sub a a' ia b b' ib :
  fe_rel3 a a' ia -> fe_rel3 b b' ib ->
  fe_rel3 (@mpi29_gfp_sub_avx2 Z Lane64 a b) (@mpi29_gfp_sub_avx2 Z Ideal a' b')
          (@mpi29_gfp_sub_avx2 itv Itv ia ib).
Proof. intros Ha Hb. rel3_fe a a' ia Ha. rel3_fe b b' ib Hb. rel3_body. Qed.

Lemma rel3_sbc a a' ia b b' ib :
  fe_rel3 a a' ia -> fe_rel3 b b' ib ->
  fe_rel3 (@mpi29_gfp_sbc_avx2 Z Lane64 a b) (@mpi29_gfp_sbc_avx2 Z Ideal a' b')
          (@mpi29_gfp_sbc_avx2 itv Itv ia ib).
Proof. intros Ha Hb. rel3_fe a a' ia Ha. rel3_fe b b' ib Hb. rel3_body. Qed.

Lemma rel3_mul a a' ia b b' ib :
  fe_rel3 a a' ia -> fe_rel3 b b' ib ->
  fe_rel3 (@mpi29_gfp_mul_avx2 Z Lane64 a b) (@mpi29_gfp_mul_avx2 Z Ideal a' b')
          (@mpi29_gfp_mul_avx2 itv Itv ia ib).
Proof. intros Ha Hb. rel3_fe a a' ia Ha. rel3_fe b b' ib Hb. rel3_body. Qed.

Lemma rel3_sqr a a' ia :
  fe_rel3 a a' ia ->
  fe_rel3 (@mpi29_gfp_sqr_avx2 Z Lane64 a) (@mpi29_gfp_sqr_avx2 Z Ideal a')
          (@mpi29_gfp_sqr_avx2 itv Itv ia).
Proof. intros Ha. rel3_fe a a' ia Ha. rel3_body. Qed.

Lemma rel3_mul29 a a' ia c :
  fe_rel3 a a' ia ->
  fe_rel3 (@mpi29_gfp_mul29_avx2 Z Lane64 a c) (@mpi29_gfp_mul29_avx2 Z Ideal a' c)
          (@mpi29_gfp_mul29_avx2 itv Itv ia c).
Proof. intros Ha. rel3_fe a a' ia Ha. rel3_body. Qed.

Lemma rel3_final_modp a a' ia :
  fe_rel3 a a' ia ->
  fe_rel3 (@final_modp Z Lane64 a) (@final_modp Z Ideal a') (@final_modp itv Itv ia).
Proof. intros Ha. rel3_fe a a' ia Ha. rel3_body. Qed.

(** * Limb bounds from the interval reading *)

Lemma itv_in_rel3 i x : itv_in i x -> itv_ok i = true -> rel3 x x i.
Proof.
  destruct i as [[lo hi]|]; cbn; [|discriminate]. unfold in64.
  intros Hx Hb. apply andb_prop in Hb as [H1 H2].
  apply Z.leb_le in H1. apply Z.ltb_lt in H2. apply rel3_bound; lia.
Qed.

Lemma rel3_itv_in x y i : rel3 x y i -> itv_ok i = true -> x = y /\ itv_in i x.
Proof.
  destruct i as [[lo hi]|]; cbn; [|discriminate]. intros H Hb.
  destruct (rel3_elim _ _ _ _ H Hb) as [-> ?]. auto.
Qed.

Lemma itv_in_sub i i' x : itv_in i x -> itv_sub i i' = true -> itv_in i' x.
Proof.
  destruct i as [[a b]|], i' as [[c d]|]; cbn; try discriminate; auto.
  intros Hx Hb. apply andb_prop in Hb as [H1 H2].
  apply Z.leb_le in H1, H2. lia.
Qed.

Ltac fe_bools H :=
  unfold fe_forallb, fe_sub in H; cbn [f0 f1 f2 f3 f4 f5 f6 f7 f8] in H;
  repeat (let H' := fresh H in apply andb_prop in H as [H H']).

Lemma fe_in_rel3 i a : fe_in i a -> fe_forallb itv_ok i = true -> fe_rel3 a a i.
Proof.
  destruct i as [i0 i1 i2 i3 i4 i5 i6 i7 i8], a as [a0 a1 a2 a3 a4 a5 a6 a7 a8]. unfold fe_in, fe_rel3. cbn [f0 f1 f2 f3 f4 f5 f6 f7 f8].
  intros (?&?&?&?&?&?&?&?&?) Hb. fe_bools Hb.
  split9; apply itv_in_rel3; assumption.
Qed.

Lemma fe_rel3_in a a' i :
  fe_rel3 a a' i -> fe_forallb itv_ok i = true -> a = a' /\ fe_in i a.
Proof.
  destruct i as [i0 i1 i2 i3 i4 i5 i6 i7 i8], a as [a0 a1 a2 a3 a4 a5 a6 a7 a8], a' as [b0 b1 b2 b3 b4 b5 b6 b7 b8]. unfold fe_in, fe_rel3. cbn [f0 f1 f2 f3 f4 f5 f6 f7 f8].
  intros (R0&R1&R2&R3&R4&R5&R6&R7&R8) Hb. fe_bools Hb.
  destruct (rel3_itv_in _ _ _ R0 ltac:(assumption)) as [-> ?].
  destruct (rel3_itv_in _ _ _ R1 ltac:(assumption)) as [-> ?].
  destruct (rel3_itv_in _ _ _ R2 ltac:(assumption)) as [-> ?].
  destruct (rel3_itv_in _ _ _ R3 ltac:(assumption)) as [-> ?].
  destruct (rel3_itv_in _ _ _ R4 ltac:(assumption)) as [-> ?].
  destruct (rel3_itv_in _ _ _ R5 ltac:(assumption)) as [-> ?].
  destruct (rel3_itv_in _ _ _ R6 ltac:(assumption)) as [-> ?].
  destruct (rel3_itv_in _ _ _ R7 ltac:(assumption)) as [-> ?].
  destruct (rel3_itv_in _ _ _ R8 ltac:(assumption)) as [-> ?].
  split; [reflexivity|]. split9; assumption.
Qed.

Lemma fe_in_sub i i' a : fe_in i a -> fe_sub i i' = true -> fe_in i' a.
Proof.
  destruct i as [i0 i1 i2 i3 i4 i5 i6 i7 i8], i' as [j0 j1 j2 j3 j4 j5 j6 j7 j8], a as [a0 a1 a2 a3 a4 a5 a6 a7 a8]. unfold fe_in. cbn [f0 f1 f2 f3 f4 f5 f6 f7 f8].
  intros (?&?&?&?&?&?&?&?&?) Hb. fe_bools Hb.
  split9; (eapply itv_in_sub; [eassumption|assumption]).
Qed.

Lemma settles_elim a a' r j :
  fe_rel3 a a' r -> settles r j = true -> a = a' /\ fe_in j a.
Proof.
  intros R Hb. apply andb_prop in Hb as [H1 H2].
  destruct (fe_rel3_in _ _ _ R H1) as [-> Hin]. split; [reflexivity|].
  eapply fe_in_sub; eassumption.
Qed.

Section Bounded.
Variables (ia ib j : fe itv).
Hypothesis oka : fe_forallb itv_ok ia = true.
Hypothesis okb : fe_forallb itv_ok ib = true.

Lemma add_bounded a b :
  settles (@mpi29_gfp_add_avx2 _ Itv ia ib) j = true ->
  fe_in ia a -> fe_in ib b ->
  mpi29_gfp_add_avx2 a b = @mpi29_gfp_add_avx2 _ Ideal a b /\
  fe_in j (mpi29_gfp_add_avx2 a b).
Proof.
  intros Hs Ha Hb. eapply settles_elim; [|exact Hs].
  apply rel3_add; apply fe_in_rel3; assumption.
Qed.

Lemma sub_bounded a b :
  settles (@mpi29_gfp_sub_avx2 _ Itv ia ib) j = true ->
  fe_in ia a -> fe_in ib b ->
  mpi29_gfp_sub_avx2 a b = @mpi29_gfp_sub_avx2 _ Ideal a b /\
  fe_in j (mpi29_gfp_sub_avx2 a b).
Proof.
  intros Hs Ha Hb. eapply settles_elim; [|exact Hs].
  apply rel3_sub; apply fe_in_rel3; assumption.
Qed.

Lemma sbc_bounded a b :
  settles (@mpi29_gfp_sbc_avx2 _ Itv ia ib) j = true ->
  fe_in ia a -> fe_in ib b ->
  mpi29_gfp_sbc_avx2 a b = @mpi29_gfp_sbc_avx2 _ Ideal a b /\
  fe_in j (mpi29_gfp_sbc_avx2 a b).
Proof.
  intros Hs Ha Hb. eapply settles_elim; [|exact Hs].
  apply rel3_sbc; apply fe_in_rel3; assumption.
Qed.

Lemma mul_bounded a b :
  settles (@mpi29_gfp_mul_avx2 _ Itv ia ib) j = true ->
  fe_in ia a -> fe_in ib b ->
  mpi29_gfp_mul_avx2 a b = @mpi29_gfp_mul_avx2 _ Ideal a b /\
  fe_in j (mpi29_gfp_mul_avx2 a b).
Proof.
  intros Hs Ha Hb. eapply settles_elim; [|exact Hs].
  apply rel3_mul; apply fe_in_rel3; assumption.
Qed.

Lemma sqr_bounded a :
  settles (@mpi29_gfp_sqr_avx2 _ Itv ia) j = true ->
  fe_in ia a ->
  mpi29_gfp_sqr_avx2 a = @mpi29_gfp_sqr_avx2 _ Ideal a /\
  fe_in j (mpi29_gfp_sqr_avx2 a).
Proof.
  intros Hs Ha. eapply settles_elim; [|exact Hs].
  apply rel3_sqr; apply fe_in_rel3; assumption.
Qed.

Lemma final_modp_bounded a :
  settles (@final_modp _ Itv ia) j = true ->
  fe_in ia a ->
  final_modp a = @final_modp _ Ideal a /\ fe_in j (final_modp a).
Proof.
  intros Hs Ha. eapply settles_elim; [|exact Hs].
  apply rel3_final_modp; apply fe_in_rel3; assumption.
Qed.

End Bounded.

Lemma mul29_is_body {T} `{Vec T} (a : fe T) c :
  mpi29_gfp_mul29_avx2 a c = mul29_body a (VSET164 c).
Proof. reflexivity. Qed.

Lemma rel3_mul29_body a a' ia vb vb' ivb :
  fe_rel3 a a' ia -> rel3 vb vb' ivb ->
  fe_rel3 (@mul29_body Z Lane64 a vb) (@mul29_body Z Ideal a' vb') (@mul29_body itv Itv ia ivb).
Proof.
  intros Ha Hb. rel3_fe a a' ia Ha.
  unfold fe_rel3;
  cbv beta iota zeta delta [mul29_body VMAC f0 f1 f2 f3 f4 f5 f6 f7 f8];
  split9; rel3_ops.
Qed.

(** The small-scalar multiplication for any constant within [0, cmax]. *)
Lemma mul29_bounded ia j cmax a c :
  fe_forallb itv_ok ia = true -> cmax < two64 ->
  settles (@mul29_body _ Itv ia (upto cmax)) j = true ->
  fe_in ia a -> 0 <= c <= cmax ->
  mpi29_gfp_mul29_avx2 a c = @mpi29_gfp_mul29_avx2 _ Ideal a c /\
  fe_in j (mpi29_gfp_mul29_avx2 a c).
Proof.
  intros oka Hm Hs Ha Hc. rewrite !mul29_is_body.
  eapply settles_elim; [|exact Hs].
  apply rel3_mul29_body; [apply fe_in_rel3; assumption|].
  cbn [VSET164 Lane64 Ideal]. rewrite wrap64_small by lia.
  apply rel3_bound; lia.
Qed.

(** * Limb bounds of the field operations on reduced operands *)

Ltac lanes_by_compute :=
  let j := fresh "j" in
  intros j; destruct j; vm_compute; intuition discriminate.

Lemma fe_max_reduced : reduced fe_max.
Proof. lanes_by_compute. Qed.
Lemma fe_2431_reduced : reduced fe_2431.
Proof. lanes_by_compute. Qed.
Lemma fe_zero_reduced : reduced fe_zero.
Proof. lanes_by_compute. Qed.

(** C4 as stated fails on the code: on reduced operands limb 0 of the result
    of sbc, mul, sqr and mul29 can exceed 2^29 - 1, because the last fold adds
    a multiple of 1216 to limb 0 without a further carry. *)
Lemma reduced_results_counterexample :
  reduced fe_max /\ reduced fe_2431 /\ reduced fe_zero /\
  f0 (fe_lane L0 (mpi29_gfp_sbc_avx2 fe_2431 fe_zero)) = MASK29 + 1216 /\
  f0 (fe_lane L0 (mpi29_gfp_mul_avx2 fe_max fe_max)) = MASK29 + 1475010 /\
  f0 (fe_lane L0 (mpi29_gfp_sqr_avx2 fe_max)) = MASK29 + 1475010 /\
  f0 (fe_lane L0 (mpi29_gfp_mul29_avx2 fe_max 2)) = MASK29 + 1215.
Proof.
  split; [apply fe_max_reduced|]. split; [apply fe_2431_reduced|].
  split; [apply fe_zero_reduced|]. vm_compute. auto.
Qed.

(** C4, amended: on reduced operands, add leaves every limb at most 2^30;
    sbc, mul and sqr leave limbs 1..8 at most 2^29 - 1 and limb 0 at most
    2^29 - 1 + 2 * 1216 (sbc) or 2^29 - 1 + 1224 * 1216 (mul, sqr); mul29 by a
    32-bit constant leaves limbs 2..8 at most 2^29 - 1, limb 0 at most
    2^30 - 2 and limb 1 at most 2^29 - 1 + 9727. *)
Theorem field_ops_limb_bounds (x y : fe m256i) (c : Z) :
  reduced x -> reduced y -> 0 <= c < two32 ->
  lanes_in loose_itv (mpi29_gfp_add_avx2 x y) /\
  lanes_in (carried_itv (MASK29 + 2 * CONSTC) MASK29) (mpi29_gfp_sbc_avx2 x y) /\
  lanes_in (carried_itv (MASK29 + 1224 * CONSTC) MASK29) (mpi29_gfp_mul_avx2 x y) /\
  lanes_in (carried_itv (MASK29 + 1224 * CONSTC) MASK29) (mpi29_gfp_sqr_avx2 x) /\
  lanes_in (carried_itv (2 * MASK29) (MASK29 + 9727)) (mpi29_gfp_mul29_avx2 x c).
Proof.
  intros Hx Hy Hc.
  split; [|split; [|split; [|split]]]; intros j.
  - rewrite lane_add.
    eapply (add_bounded reduced_itv reduced_itv); [reflexivity..| apply Hx | apply Hy].
  - rewrite lane_sbc.
    eapply (sbc_bounded reduced_itv reduced_itv); [reflexivity..| apply Hx | apply Hy].
  - rewrite lane_mul.
    eapply (mul_bounded reduced_itv reduced_itv); [reflexivity..| apply Hx | apply Hy].
  - rewrite lane_sqr.
    eapply (sqr_bounded reduced_itv); [reflexivity..| apply Hx].
  - rewrite lane_mul29.
    eapply (mul29_bounded reduced_itv _ (two32 - 1)); [reflexivity..| apply Hx |].
    unfold two32 in *. lia.
Qed.

Lemma field_ops_limb_bounds_witness :
  lanes_in loose_itv (mpi29_gfp_add_avx2 fe_max fe_2431) /\
  lanes_in (carried_itv (MASK29 + 2 * CONSTC) MASK29) (mpi29_gfp_sbc_avx2 fe_max fe_2431) /\
  lanes_in (carried_itv (MASK29 + 1224 * CONSTC) MASK29) (mpi29_gfp_mul_avx2 fe_max fe_2431) /\
  lanes_in (carried_itv (MASK29 + 1224 * CONSTC) MASK29) (mpi29_gfp_sqr_avx2 fe_max) /\
  lanes_in (carried_itv (2 * MASK29) (MASK29 + 9727)) (mpi29_gfp_mul29_avx2 fe_max 121665).
Proof.
  apply (field_ops_limb_bounds fe_max fe_2431 121665 fe_max_reduced fe_2431_reduced).
  unfold two32. lia.
Defined.

(** * The operands of the multiplications in the ladder step *)

Lemma ladder_traced_fst {T} `{Vec T} (p q : ProPoint T) xd :
  fst (mon_ladder_step_traced p q xd) = mon_ladder_step_avx2 p q xd.
Proof. reflexivity. Qed.


Ltac rel3_calls :=
  repeat lazymatch goal with
  | |- fe_rel3 (mpi29_gfp_mul_avx2 _ _) _ _ => apply rel3_mul
  | |- fe_rel3 (mpi29_gfp_sqr_avx2 _) _ _ => apply rel3_sqr
  | |- fe_rel3 (mpi29_gfp_add_avx2 _ _) _ _ => apply rel3_add
  | |- fe_rel3 (mpi29_gfp_sub_avx2 _ _) _ _ => apply rel3_sub
  | |- fe_rel3 (mpi29_gfp_sbc_avx2 _ _) _ _ => apply rel3_sbc
  | |- fe_rel3 (mpi29_gfp_mul29_avx2 _ _) _ _ => apply rel3_mul29
  | |- fe_rel3 _ _ _ => assumption
  end.








(** * The value computed by the ideal reading of the field operations *)

Lemma land_mask29 x : Z.land x MASK29 = x mod 2 ^ 29.
Proof. change MASK29 with (Z.ones 29). apply Z.land_ones. lia. Qed.

Lemma shiftr29 x : Z.shiftr x 29 = x / 2 ^ 29.
Proof. apply Z.shiftr_div_pow2. lia. Qed.

(** Name the intermediate values of a straight-line body one by one. *)
Ltac step_let :=
  lazymatch goal with
  | |- context C [let x := ?e in @?f x] =>
      let x' := fresh x "_" in
      pose (x' := e);
      let g := context C [f x'] in
      change g; cbv beta
  end.

(** Turn each pair (x >> 29, x & MASK29) into the equation of the division. *)
Ltac split29 :=
  repeat match goal with
  | x := Z.shiftr ?v BITS29 |- _ =>
      let E := fresh "E" in
      assert (E : x = v / 2 ^ 29) by (apply shiftr29); clearbody x
  | x := Z.land ?v (Z.ones 29) |- _ =>
      let E := fresh "E" in
      assert (E : x = v mod 2 ^ 29) by (apply (land_mask29 v)); clearbody x
  | x := context [Z.shiftr ?v BITS29] |- _ =>
      let q := fresh "q" in
      pose (q := Z.shiftr v BITS29); change (Z.shiftr v BITS29) with q in x
  | x := context [Z.land ?v (Z.ones 29)] |- _ =>
      let q := fresh "m" in
      pose (q := Z.land v (Z.ones 29)); change (Z.land v (Z.ones 29)) with q in x
  end;
  repeat match goal with
  | E : ?x = ?v / 2 ^ 29 |- _ =>
      match goal with
      | F : ?y = v mod 2 ^ 29 |- _ =>
          let G := fresh "G" in
          assert (G : v = 2 ^ 29 * x + y) by (rewrite E, F; apply Z.div_mod; lia);
          clear E F
      end
  end.

Ltac ideal_body :=
  cbv beta iota delta
    [mpi29_gfp_mul_avx2 mpi29_gfp_sqr_avx2 mpi29_gfp_sbc_avx2 mpi29_gfp_sub_avx2
     mpi29_gfp_add_avx2 mul29_body final_modp
     VMAC f0 f1 f2 f3 f4 f5 f6 f7 f8 VADD VSUB VMUL VAND VSHR VSHL VSET164 Ideal];
  repeat step_let;
  repeat match goal with
  | x := MASK29 |- _ => subst x
  | x := CONSTC |- _ => subst x
  | x := LSWP29 * 2 |- _ => subst x
  | x := MASK29 * 2 |- _ => subst x
  end;
  repeat match goal with
  | x := context [Z.shiftl ?v 1] |- _ => change (Z.shiftl v 1) with (2 * v) in x
  end;
  change MASK29 with (Z.ones 29) in *.

Lemma mul_ideal_val a b :
  exists k, val (@mpi29_gfp_mul_avx2 Z Ideal a b) = val a * val b + k * pstar.
Proof.
  destruct a as [a0 a1 a2 a3 a4 a5 a6 a7 a8].
  destruct b as [b0 b1 b2 b3 b4 b5 b6 b7 b8].
  ideal_body.
  exists (- (r0_ + 2^29 * r1_ + 2^58 * r2_ + 2^87 * r3_ + 2^116 * r4_ + 2^145 * r5_
             + 2^174 * r6_ + 2^203 * r7_ + 2^232 * r8_ + accu_60)).
  unfold val, pstar; cbn [f0 f1 f2 f3 f4 f5 f6 f7 f8].
  split29. unfold CONSTC in *.
  lia.
Qed.

Lemma sqr_ideal_val a :
  exists k, val (@mpi29_gfp_sqr_avx2 Z Ideal a) = val a * val a + k * pstar.
Proof.
  destruct a as [a0 a1 a2 a3 a4 a5 a6 a7 a8].
  ideal_body.
  exists (- (r0_ + 2^29 * r1_ + 2^58 * r2_ + 2^87 * r3_ + 2^116 * r4_ + 2^145 * r5_
             + 2^174 * r6_ + 2^203 * r7_ + 2^232 * r8_ + accu_52)).
  unfold val, pstar; cbn [f0 f1 f2 f3 f4 f5 f6 f7 f8].
  split29. unfold CONSTC in *.
  lia.
Qed.

Lemma sbc_ideal_val a b :
  exists k, val (@mpi29_gfp_sbc_avx2 Z Ideal a b) = val a - val b + k * pstar.
Proof.
  destruct a as [a0 a1 a2 a3 a4 a5 a6 a7 a8].
  destruct b as [b0 b1 b2 b3 b4 b5 b6 b7 b8].
  ideal_body.
  exists (2 - temp_).
  unfold val, pstar; cbn [f0 f1 f2 f3 f4 f5 f6 f7 f8].
  split29. unfold CONSTC, LSWP29 in *. change (Z.ones 29) with 536870911 in *.
  lia.
Qed.

Lemma sub_ideal_val a b :
  val (@mpi29_gfp_sub_avx2 Z Ideal a b) = val a - val b + 2 * pstar.
Proof.
  destruct a as [a0 a1 a2 a3 a4 a5 a6 a7 a8].
  destruct b as [b0 b1 b2 b3 b4 b5 b6 b7 b8].
  cbv beta iota zeta delta
    [mpi29_gfp_sub_avx2 mpi29_gfp_add_avx2 val f0 f1 f2 f3 f4 f5 f6 f7 f8
     VADD VSUB VSET164 Ideal pstar LSWP29 MASK29].
  ring.
Qed.

Lemma add_ideal_val a b :
  val (@mpi29_gfp_add_avx2 Z Ideal a b) = val a + val b.
Proof.
  destruct a as [a0 a1 a2 a3 a4 a5 a6 a7 a8].
  destruct b as [b0 b1 b2 b3 b4 b5 b6 b7 b8].
  cbv beta iota zeta delta
    [mpi29_gfp_sub_avx2 mpi29_gfp_add_avx2 val f0 f1 f2 f3 f4 f5 f6 f7 f8
     VADD VSUB VSET164 Ideal pstar LSWP29 MASK29].
  ring.
Qed.

Lemma mul29_ideal_val a c :
  exists k, val (@mpi29_gfp_mul29_avx2 Z Ideal a c) = val a * c + k * pstar.
Proof.
  rewrite mul29_is_body.
  destruct a as [a0 a1 a2 a3 a4 a5 a6 a7 a8].
  ideal_body.
  set (top := Z.shiftr accu_15 BITS29) in *.
  exists (- top).
  unfold val, pstar; cbn [f0 f1 f2 f3 f4 f5 f6 f7 f8 VSET164 Ideal].
  split29. unfold CONSTC in *.
  lia.
Qed.

Lemma land_mask23 x : Z.land x 8388607 = x mod 2 ^ 23.
Proof. change 8388607 with (Z.ones 23). apply Z.land_ones. lia. Qed.

Lemma split23 x : x = 2 ^ 23 * Z.shiftr x 23 + Z.land x 8388607.
Proof. rewrite land_mask23, Z.shiftr_div_pow2 by lia. apply Z.div_mod. lia. Qed.

Lemma final_modp_ideal_val a :
  exists k, val (@final_modp Z Ideal a) = val a + k * p25519.
Proof.
  destruct a as [a0 a1 a2 a3 a4 a5 a6 a7 a8].
  ideal_body. subst VMASK23_ V19_.
  exists (- (temp_ + temp_0)).
  unfold val, p25519; cbn [f0 f1 f2 f3 f4 f5 f6 f7 f8].
  pose proof (split23 a8_) as S1. pose proof (split23 a8_1) as S2.
  fold temp_ a8_0 in S1. fold temp_0 a8_2 in S2.
  clearbody temp_ a8_0 temp_0 a8_2.
  split29.
  lia.
Qed.

(** * 2^255 - 19 is prime *)

Lemma prime_divisor_exists n : 1 < n -> exists p, Z.prime p /\ (p | n) /\ p <= n.
Proof.
  assert (G : forall k : nat, forall n, (Z.to_nat n <= k)%nat -> 1 < n ->
              exists p, Z.prime p /\ (p | n) /\ p <= n).
  { induction k as [|k IH]; intros m Hk Hm; [lia|].
    destruct (prime_dec m) as [Hp | Hn].
    - exists m. split; [now apply prime_alt|]. split; [apply Z.divide_refl | lia].
    - destruct (not_prime_divide m Hm Hn) as (d & Hd & Hdm).
      destruct (IH d ltac:(lia) ltac:(lia)) as (p & Hp & Hpd & Hle).
      exists p. split; [assumption|]. split; [eapply Z.divide_trans; eassumption | lia]. }
  intros Hn. apply (G (Z.to_nat n)); [lia | assumption].
Qed.

Lemma small_divisor n m : 1 < m < n -> (m | n) -> exists d, 1 < d /\ d * d <= n /\ (d | n).
Proof.
  intros Hm [c Hc].
  assert (1 < c) by nia.
  destruct (Z.le_gt_cases m c).
  - exists m. split; [lia|]. split; [nia|]. exists c. assumption.
  - exists c. split; [lia|]. split; [nia|]. exists m. lia.
Qed.

Lemma small_prime_divisor n :
  1 < n -> ~ Z.prime n -> exists p, Z.prime p /\ (p | n) /\ p * p <= n.
Proof.
  intros Hn Hnp. rewrite prime_alt in Hnp.
  destruct (not_prime_divide n Hn Hnp) as (m & Hm & Hmn).
  destruct (small_divisor n m Hm Hmn) as (d & Hd & Hdd & Hdn).
  destruct (prime_divisor_exists d Hd) as (p & Hp & Hpd & Hle).
  exists p. split; [assumption|]. split; [eapply Z.divide_trans; eassumption|].
  pose proof (Z.prime_ge_2 p Hp). nia.
Qed.

Lemma no_divisor_spec n d k :
  no_divisor n d k = true -> forall e, d <= e < d + Z.of_nat k -> 0 < e -> ~ (e | n).
Proof.
  revert d; induction k as [|k IH]; intros d Hc e He Hpos; [lia|].
  cbn [no_divisor] in Hc. apply andb_prop in Hc as [H1 H2].
  destruct (Z.eq_dec e d) as [-> | Hne].
  - intros Hdiv. apply Z.mod_divide in Hdiv; [|lia].
    rewrite Hdiv in H1. discriminate.
  - apply (IH (d + 1) H2); lia.
Qed.

Lemma trial_check_prime n k : trial_check n k = true -> Z.prime n.
Proof.
  unfold trial_check. intros Hc.
  apply andb_prop in Hc as [Hc H3]. apply andb_prop in Hc as [H1 H2].
  apply Z.ltb_lt in H1, H2.
  split; [assumption|]. intros m Hm Hdiv.
  destruct (small_divisor n m Hm Hdiv) as (d & Hd & Hdd & Hdn).
  apply (no_divisor_spec n 2 k H3 d); [nia | lia | assumption].
Qed.

Lemma bezout_nonneg a b :
  0 < a -> 0 < b -> Z.gcd a b = 1 -> exists u v, 0 <= u /\ 0 <= v /\ u * a = 1 + v * b.
Proof.
  intros Ha Hb Hg. destruct (Z.gcd_bezout a b 1 Hg) as (u0 & v0 & E).
  exists (u0 + (Z.abs u0 + Z.abs v0) * b), (- v0 + (Z.abs u0 + Z.abs v0) * a).
  split; [nia|]. split; [nia|]. lia.
Qed.

(** One step of Pocklington's criterion: a prime factor p of n is 1 modulo q. *)
Lemma pock_step n a q p :
  pock_check n a q = true -> Z.prime q -> Z.prime p -> (p | n) -> (q | p - 1).
Proof.
  unfold pock_check. intros Hc Hq Hp Hpn.
  apply andb_prop in Hc as [Hc H4]. apply andb_prop in Hc as [Hc H3].
  apply andb_prop in Hc as [H1 H2].
  apply Z.ltb_lt in H1. apply Z.eqb_eq in H2, H3, H4.
  pose proof (Z.prime_ge_2 p Hp) as Hp2. pose proof (Z.prime_ge_2 q Hq) as Hq2.
  rewrite Zpow_mod_correct in H3, H4 by lia.
  apply Z.mod_divide in H2; [|lia]. destruct H2 as [m Hm].
  assert (Em : (n - 1) / q = m) by (rewrite Hm; apply Z.div_mul; lia).
  rewrite Em in H4.
  assert (0 < m) by nia.
  set (x := a ^ m) in *.
  assert (Hxq : x ^ q mod p = 1).
  { unfold x. rewrite <- Z.pow_mul_r, <- Hm by lia.
    rewrite <- (Z.mod_mod_divide _ n p) by assumption.
    rewrite H3. apply Z.mod_small. lia. }
  assert (Hx1 : x mod p <> 1).
  { intros E. assert (Hd : (p | x mod n - 1)).
    { apply Z.mod_divide; [lia|].
      rewrite Zminus_mod, (Z.mod_mod_divide _ n p) by assumption.
      rewrite E. rewrite (Z.mod_small 1 p) by lia. reflexivity. }
    pose proof (Z.gcd_greatest _ _ _ Hd Hpn) as Hg. rewrite H4 in Hg.
    apply Z.divide_1_r_nonneg in Hg; lia. }
  assert (Hx0 : x mod p <> 0).
  { intros E. rewrite <- Z.mod_pow_l, E, Z.pow_0_l, Z.mod_0_l in Hxq by lia. discriminate. }
  pose proof (Z.fermat_nz p x Hp Hx0) as Hf.
  destruct (Z.divide_prime_r (Z.gcd q (p - 1)) q Hq (Z.gcd_divide_l _ _)) as [E|[E|[E|E]]];
    pose proof (Z.gcd_nonneg q (p - 1)); try lia.
  - exfalso. destruct (bezout_nonneg q (p - 1) ltac:(lia) ltac:(lia) E)
      as (u & v & Hu & Hv & Euv).
    apply Hx1.
    assert (E1 : (x ^ q) ^ u mod p = 1).
    { rewrite <- Z.mod_pow_l, Hxq, Z.pow_1_l by lia. apply Z.mod_small; lia. }
    assert (E2 : (x ^ (p - 1)) ^ v mod p = 1).
    { rewrite <- Z.mod_pow_l, Hf, Z.pow_1_l by lia. apply Z.mod_small; lia. }
    rewrite <- Z.pow_mul_r in E1, E2 by lia.
    rewrite (Z.mul_comm q u), Euv, Z.pow_add_r, Z.pow_1_r in E1
      by first [lia | apply Z.mul_nonneg_nonneg; lia].
    rewrite (Z.mul_comm v) in E1.
    rewrite Z.mul_mod, E2, Z.mul_1_r, Z.mod_mod in E1 by lia. exact E1.
  - rewrite <- E. apply Z.gcd_divide_r.
Qed.

Lemma pock_conclude n f :
  1 < n -> 0 < f -> n < (f + 1) * (f + 1) ->
  (forall p, Z.prime p -> (p | n) -> (f | p - 1)) -> Z.prime n.
Proof.
  intros Hn Hf Hlt Hall.
  destruct (prime_dec n) as [Hp | Hnp]; [now apply prime_alt|].
  rewrite <- prime_alt in Hnp.
  destruct (small_prime_divisor n Hn Hnp) as (p & Hp & Hpn & Hpp).
  pose proof (Z.prime_ge_2 p Hp).
  pose proof (Z.divide_pos_le f (p - 1) ltac:(lia) (Hall p Hp Hpn)). nia.
Qed.

Lemma pocklington_1 n a q :
  pock_check n a q = true -> Z.prime q -> n < (q + 1) * (q + 1) -> Z.prime n.
Proof.
  intros Hc Hq Hlt. pose proof (Z.prime_ge_2 q Hq).
  apply (pock_conclude n q); try lia.
  - unfold pock_check in Hc. apply andb_prop in Hc as [Hc _].
    apply andb_prop in Hc as [Hc _]. apply andb_prop in Hc as [Hc _].
    now apply Z.ltb_lt in Hc.
  - intros p Hp Hpn. eapply pock_step; eassumption.
Qed.

Lemma pocklington_2 n a q b r :
  pock_check n a q = true -> pock_check n b r = true ->
  Z.prime q -> Z.prime r -> q <> r -> n < (q * r + 1) * (q * r + 1) -> Z.prime n.
Proof.
  intros Hc Hc' Hq Hr Hne Hlt.
  pose proof (Z.prime_ge_2 q Hq). pose proof (Z.prime_ge_2 r Hr).
  apply (pock_conclude n (q * r)); try nia.
  - unfold pock_check in Hc. apply andb_prop in Hc as [Hc _].
    apply andb_prop in Hc as [Hc _]. apply andb_prop in Hc as [Hc _].
    now apply Z.ltb_lt in Hc.
  - intros p Hp Hpn.
    pose proof (pock_step n a q p Hc Hq Hp Hpn) as [k Hk].
    pose proof (pock_step n b r p Hc' Hr Hp Hpn) as Hrp.
    rewrite Hk in Hrp |- *.
    assert (Hg : Z.gcd r q = 1).
    { apply Z.coprime_prime_l; [assumption|]. intros Hd.
      apply Z.divide_prime_prime in Hd; auto. }
    rewrite Z.mul_comm in Hrp. apply Z.gauss in Hrp; [|assumption].
    destruct Hrp as [k' ->]. exists k'. ring.
Qed.

Lemma pow_tower a c e n :
  1 < n -> 0 <= c -> 0 <= e ->
  Zpow_mod (Zpow_mod a c n) e n = a ^ (c * e) mod n.
Proof.
  intros Hn Hc He. rewrite !Zpow_mod_correct by lia.
  rewrite Z.mod_pow_l, Z.pow_mul_r by lia. reflexivity.
Qed.

(** The shared check gives both single checks. *)
Lemma pock_pair_split n a q r :
  0 < q -> 0 < r -> pock_pair n a q r = true ->
  pock_check n a q = true /\ pock_check n a r = true.
Proof.
  unfold pock_pair. cbv zeta. intros Hq Hr Hc.
  apply andb_prop in Hc as [Hc H5]. apply andb_prop in Hc as [Hc H4].
  apply andb_prop in Hc as [Hc H3]. apply andb_prop in Hc as [H1 H2].
  pose proof H1 as H1'. apply Z.ltb_lt in H1'. apply Z.eqb_eq in H2.
  assert (Hqr : 0 < q * r) by (apply Z.mul_pos_pos; assumption).
  set (c := (n - 1) / (q * r)) in *.
  assert (En : n - 1 = c * (q * r)).
  { pose proof (Z.div_mod (n - 1) (q * r) ltac:(lia)) as D. fold c in D.
    rewrite H2 in D. rewrite D at 1. ring. }
  assert (Hc0 : 0 <= c) by (subst c; apply Z.div_pos; lia).
  assert (Eq : (n - 1) / q = c * r).
  { rewrite En. replace (c * (q * r)) with (c * r * q) by ring. apply Z.div_mul. lia. }
  assert (Er : (n - 1) / r = c * q).
  { rewrite En. replace (c * (q * r)) with (c * q * r) by ring. apply Z.div_mul. lia. }
  assert (Pu : Zpow_mod (Zpow_mod a c n) r n = Zpow_mod a ((n - 1) / q) n).
  { rewrite Eq, pow_tower, Zpow_mod_correct by lia. reflexivity. }
  assert (Pv : Zpow_mod (Zpow_mod a c n) q n = Zpow_mod a ((n - 1) / r) n).
  { rewrite Er, pow_tower, Zpow_mod_correct by lia. reflexivity. }
  assert (Pn : Zpow_mod (Zpow_mod (Zpow_mod a c n) r n) q n = Zpow_mod a (n - 1) n).
  { rewrite Pu, Eq. rewrite (Zpow_mod_correct a (c * r)) by lia.
    rewrite (Zpow_mod_correct _ q), (Zpow_mod_correct a (n - 1)) by lia.
    rewrite Z.mod_pow_l, <- Z.pow_mul_r by nia.
    replace (c * r * q) with (n - 1) by (rewrite En; ring). reflexivity. }
  rewrite Pn in H3. rewrite Pu in H4. rewrite Pv in H5.
  assert (Dq : (n - 1) mod q = 0).
  { rewrite En. replace (c * (q * r)) with (c * r * q) by ring. apply Z.mod_mul. lia. }
  assert (Dr : (n - 1) mod r = 0).
  { rewrite En. replace (c * (q * r)) with (c * q * r) by ring. apply Z.mod_mul. lia. }
  unfold pock_check. rewrite H1, H3, H4, H5, Dq, Dr. split; reflexivity.
Qed.

Lemma prime_127 : Z.prime 127.
Proof. apply (trial_check_prime 127 10). vm_compute. reflexivity. Qed.
Lemma prime_4153 : Z.prime 4153.
Proof. apply (trial_check_prime 4153 63). vm_compute. reflexivity. Qed.
Lemma prime_75707 : Z.prime 75707.
Proof. apply (trial_check_prime 75707 275). vm_compute. reflexivity. Qed.
Lemma prime_430751 : Z.prime 430751.
Proof. apply (trial_check_prime 430751 656). vm_compute. reflexivity. Qed.
Lemma prime_8574133 : Z.prime 8574133.
Proof. apply (trial_check_prime 8574133 2928). vm_compute. reflexivity. Qed.

Lemma prime_q25519_4 : Z.prime q25519_4.
Proof.
  destruct (pock_pair_split q25519_4 2 8574133 127) as [C1 C2];
    [reflexivity | reflexivity | vm_compute; reflexivity|].
  apply (pocklington_2 q25519_4 2 8574133 2 127 C1 C2);
    [apply prime_8574133 | apply prime_127 | discriminate | vm_compute; reflexivity].
Qed.

Lemma prime_q25519_3 : Z.prime q25519_3.
Proof.
  destruct (pock_pair_split q25519_3 2 430751 4153) as [C1 C2];
    [reflexivity | reflexivity | vm_compute; reflexivity|].
  apply (pocklington_2 q25519_3 2 430751 2 4153 C1 C2);
    [apply prime_430751 | apply prime_4153 | discriminate | vm_compute; reflexivity].
Qed.

Lemma prime_q25519_2 : Z.prime q25519_2.
Proof.
  destruct (pock_pair_split q25519_2 2 q25519_4 75707) as [C1 C2];
    [reflexivity | reflexivity | vm_compute; reflexivity|].
  apply (pocklington_2 q25519_2 2 q25519_4 2 75707 C1 C2);
    [apply prime_q25519_4 | apply prime_75707 | discriminate | vm_compute; reflexivity].
Qed.

Lemma prime_q25519_1 : Z.prime q25519_1.
Proof.
  destruct (pock_pair_split q25519_1 2 q25519_2 q25519_3) as [C1 C2];
    [reflexivity | reflexivity | vm_compute; reflexivity|].
  apply (pocklington_2 q25519_1 2 q25519_2 2 q25519_3 C1 C2);
    [apply prime_q25519_2 | apply prime_q25519_3 | discriminate | vm_compute; reflexivity].
Qed.

Theorem prime_p25519 : Z.prime p25519.
Proof.
  apply (pocklington_1 p25519 2 q25519_1);
    [vm_compute; reflexivity | apply prime_q25519_1 | vm_compute; reflexivity].
Qed.

(** * Inversion: the addition chain computes the power p - 2 *)

Lemma pstar_64p : pstar = 64 * p25519.
Proof. reflexivity. Qed.

Lemma mod_p_of_pstar r v k : r = v + k * pstar -> r mod p25519 = v mod p25519.
Proof.
  intros ->. rewrite pstar_64p, Z.mul_assoc. apply Z.mod_add. discriminate.
Qed.

Lemma mul_ideal_mod_p a b :
  val (@mpi29_gfp_mul_avx2 Z Ideal a b) mod p25519 = (val a * val b) mod p25519.
Proof. destruct (mul_ideal_val a b) as [k E]. eapply mod_p_of_pstar; eassumption. Qed.

Lemma sqr_ideal_mod_p a :
  val (@mpi29_gfp_sqr_avx2 Z Ideal a) mod p25519 = (val a * val a) mod p25519.
Proof. destruct (sqr_ideal_val a) as [k E]. eapply mod_p_of_pstar; eassumption. Qed.

Lemma pow_of_self a : pow_of (val a) 1 a.
Proof. split; [lia|]. now rewrite Z.pow_1_r. Qed.

Lemma pow_of_mul x m n a b :
  pow_of x m a -> pow_of x n b -> pow_of x (m + n) (@mpi29_gfp_mul_avx2 Z Ideal a b).
Proof.
  intros [Hm Ea] [Hn Eb]. split; [lia|].
  rewrite mul_ideal_mod_p, Z.mul_mod, Ea, Eb, <- Z.mul_mod, Z.pow_add_r by (try lia; discriminate).
  reflexivity.
Qed.

Lemma pow_of_sqr x m a :
  pow_of x m a -> pow_of x (2 * m) (@mpi29_gfp_sqr_avx2 Z Ideal a).
Proof.
  intros [Hm Ea]. split; [lia|].
  rewrite sqr_ideal_mod_p, Z.mul_mod, Ea, <- Z.mul_mod by discriminate.
  rewrite <- Z.pow_add_r by lia. f_equal. f_equal. lia.
Qed.

Lemma pow_of_iter_sqr x m n a :
  pow_of x m a ->
  pow_of x (2 ^ Z.of_nat n * m) (Nat.iter n (@mpi29_gfp_sqr_avx2 Z Ideal) a).
Proof.
  intros Ha. induction n as [|n IH].
  - cbn [Nat.iter]. now rewrite Z.pow_0_r, Z.mul_1_l.
  - cbn [Nat.iter]. apply pow_of_sqr in IH.
    replace (2 ^ Z.of_nat (S n) * m) with (2 * (2 ^ Z.of_nat n * m)); [assumption|].
    rewrite Nat2Z.inj_succ, Z.pow_succ_r by lia. ring.
Qed.

Lemma inv_ideal_pow a :
  pow_of (val a) (p25519 - 2) (@mpi29_gfp_inv_avx2 Z Ideal a).
Proof.
  assert (G : exists e, pow_of (val a) e (@mpi29_gfp_inv_avx2 Z Ideal a) /\ e = p25519 - 2).
  { eexists. split.
    - unfold mpi29_gfp_inv_avx2. cbv zeta.
      repeat lazymatch goal with
      | |- pow_of _ _ (mpi29_gfp_mul_avx2 _ _) => apply pow_of_mul
      | |- pow_of _ _ (mpi29_gfp_sqr_avx2 _) => apply pow_of_sqr
      | |- pow_of _ _ (Nat.iter _ _ _) => apply pow_of_iter_sqr
      | |- pow_of _ _ _ => apply pow_of_self
      end.
    - vm_compute. reflexivity. }
  destruct G as (e & He & ->). exact He.
Qed.

(** The machine run of the chain agrees with the ideal run. *)

Lemma rel3_iter_sqr n a a' ia :
  fe_rel3 a a' ia ->
  fe_rel3 (Nat.iter n (@mpi29_gfp_sqr_avx2 Z Lane64) a)
          (Nat.iter n (@mpi29_gfp_sqr_avx2 Z Ideal) a')
          (Nat.iter n (@mpi29_gfp_sqr_avx2 itv Itv) ia).
Proof. intros Ha. induction n; cbn [Nat.iter]; [assumption | now apply rel3_sqr]. Qed.

Lemma rel3_inv a a' ia :
  fe_rel3 a a' ia ->
  fe_rel3 (@mpi29_gfp_inv_avx2 Z Lane64 a) (@mpi29_gfp_inv_avx2 Z Ideal a')
          (@mpi29_gfp_inv_avx2 itv Itv ia).
Proof.
  intros Ha. unfold mpi29_gfp_inv_avx2. cbv zeta.
  repeat lazymatch goal with
  | |- fe_rel3 (mpi29_gfp_mul_avx2 _ _) _ _ => apply rel3_mul
  | |- fe_rel3 (mpi29_gfp_sqr_avx2 _) _ _ => apply rel3_sqr
  | |- fe_rel3 (Nat.iter _ _ _) _ _ => apply rel3_iter_sqr
  | |- fe_rel3 _ _ _ => assumption
  end.
Qed.

Lemma inv_bounded ia j a :
  fe_forallb itv_ok ia = true ->
  settles (@mpi29_gfp_inv_avx2 _ Itv ia) j = true ->
  fe_in ia a ->
  mpi29_gfp_inv_avx2 a = @mpi29_gfp_inv_avx2 _ Ideal a /\ fe_in j (mpi29_gfp_inv_avx2 a).
Proof.
  intros oka Hs Ha. eapply settles_elim; [|exact Hs].
  apply rel3_inv. apply fe_in_rel3; assumption.
Qed.

Lemma inv_wide_settles : settles (@mpi29_gfp_inv_avx2 _ Itv wide_itv) folded_itv = true.
Proof. vm_compute. reflexivity. Qed.

Lemma mul_wide_folded_settles :
  settles (@mpi29_gfp_mul_avx2 _ Itv wide_itv folded_itv) folded_itv = true.
Proof. vm_compute. reflexivity. Qed.

(** On one lane: inv gives the power p - 2, and x * x^(p-2) is 1 modulo p. *)
Lemma mul_inv_lane (a : fe Z) :
  fe_in wide_itv a -> val a mod p25519 <> 0 ->
  val (mpi29_gfp_inv_avx2 a) mod p25519 = val a ^ (p25519 - 2) mod p25519 /\
  val (mpi29_gfp_mul_avx2 a (mpi29_gfp_inv_avx2 a)) mod p25519 = 1.
Proof.
  intros Ha Hnz.
  destruct (inv_bounded wide_itv folded_itv a eq_refl inv_wide_settles Ha) as [Ei Hi].
  destruct (mul_bounded wide_itv folded_itv folded_itv eq_refl eq_refl a _
              mul_wide_folded_settles Ha Hi) as [Em _].
  destruct (inv_ideal_pow a) as [_ Ep].
  split; [rewrite Ei; exact Ep|].
  rewrite Em, Ei.
  rewrite mul_ideal_mod_p, Z.mul_mod, Ep, <- Z.mul_mod by discriminate.
  rewrite <- (Z.pow_1_r (val a)) at 1.
  rewrite <- Z.pow_add_r by (unfold p25519; lia).
  replace (1 + (p25519 - 2)) with (p25519 - 1) by lia.
  apply Z.fermat_nz; [apply prime_p25519 | assumption].
Qed.

(** C7 as stated fails on the code: the non-reducing difference of the
    element with all limbs 2^29 - 1 and zero has limbs below 2^31 and the value
    1215 modulo p, but with limbs this large the 64-bit columns of the
    squarings in inv overflow, and the product with its "inverse" is not 1. *)
Lemma mul_inv_large_limbs_counterexample :
  fe_in word31_itv (fe_lane L0 (mpi29_gfp_sub_avx2 fe_max fe_zero)) /\
  val (fe_lane L0 (mpi29_gfp_sub_avx2 fe_max fe_zero)) mod p25519 = 1215 /\
  val (fe_lane L0 (mpi29_gfp_mul_avx2 (mpi29_gfp_sub_avx2 fe_max fe_zero)
                     (mpi29_gfp_inv_avx2 (mpi29_gfp_sub_avx2 fe_max fe_zero))))
    mod p25519 <> 1.
Proof.
  split; [vm_compute; intuition discriminate|]. split; [vm_compute; reflexivity|].
  rewrite lane_mul, lane_inv, lane_sub. vm_compute. discriminate.
Qed.

(** C7, amended: for every field element x whose limbs are at most
    2^30 + 2^25 in every lane (this covers reduced elements, the results of
    the reducing operations and the sums of two of them) and whose value in
    lane j is not 0 modulo p = 2^255 - 19, the addition chain of inv computes
    the power p - 2 of x modulo p, and the product mul(x, inv(x)) stands for 1
    modulo p in lane j. *)
Theorem mul_inv_is_one (x : fe m256i) (j : lane_id) :
  lanes_in wide_itv x -> val (fe_lane j x) mod p25519 <> 0 ->
  val (fe_lane j (mpi29_gfp_inv_avx2 x)) mod p25519 =
    val (fe_lane j x) ^ (p25519 - 2) mod p25519 /\
  val (fe_lane j (mpi29_gfp_mul_avx2 x (mpi29_gfp_inv_avx2 x))) mod p25519 = 1.
Proof.
  intros Hx Hnz. rewrite lane_mul, lane_inv. apply mul_inv_lane; [apply Hx | assumption].
Qed.

Lemma lanes_in_sub i i' a : fe_sub i i' = true -> lanes_in i a -> lanes_in i' a.
Proof. intros Hs Ha j. eapply fe_in_sub; [apply Ha | exact Hs]. Qed.

Lemma fe_max_wide : lanes_in wide_itv fe_max.
Proof. apply (lanes_in_sub reduced_itv); [reflexivity | apply fe_max_reduced]. Qed.

Lemma mul_inv_is_one_witness :
  val (fe_lane L2 (mpi29_gfp_mul_avx2 fe_max (mpi29_gfp_inv_avx2 fe_max))) mod p25519 = 1.
Proof.
  apply (mul_inv_is_one fe_max L2 fe_max_wide). vm_compute. discriminate.
Defined.

(** * Signed-nibble recoding *)

Lemma signed_digit_spec v c :
  0 <= v <= 15 -> 0 <= c <= 1 ->
  0 <= fst (signed_digit v c) < 256 /\
  -8 <= sgn8 (fst (signed_digit v c)) <= 7 /\
  0 <= snd (signed_digit v c) <= 1 /\
  sgn8 (fst (signed_digit v c)) + 16 * snd (signed_digit v c) = v + c.
Proof.
  intros Hv Hc.
  assert (Ec : c = 0 \/ c = 1) by lia.
  assert (Ev : v = 0 \/ v = 1 \/ v = 2 \/ v = 3 \/ v = 4 \/ v = 5 \/ v = 6 \/ v = 7 \/
               v = 8 \/ v = 9 \/ v = 10 \/ v = 11 \/ v = 12 \/ v = 13 \/ v = 14 \/ v = 15)
    by lia.
  destruct Ec as [-> | ->];
    repeat (destruct Ev as [-> | Ev]; [vm_compute; intuition discriminate|]);
    subst v; vm_compute; intuition discriminate.
Qed.

Lemma word_app_here {A} (d : A) pre x rest :
  word d (pre ++ x :: rest) (Z.of_nat (length pre)) = x.
Proof. unfold word. rewrite Nat2Z.id. now rewrite nth_middle. Qed.

Lemma upd_app_here {A} (pre : list A) x rest v :
  upd (pre ++ x :: rest) (Z.of_nat (length pre)) v = pre ++ v :: rest.
Proof.
  unfold upd. rewrite Nat2Z.id. induction pre as [|h t IH]; cbn; [reflexivity|].
  now rewrite IH.
Qed.

Lemma signed_loop_S n i (e : list Z) carry :
  signed_loop (S n) i e carry =
  signed_loop n (i + 1) (upd e i (fst (signed_digit (word VZERO e i) carry)))
    (snd (signed_digit (word VZERO e i) carry)).
Proof. reflexivity. Qed.

(** The index-based loop is the loop over the list. *)
Lemma signed_loop_struct n pre rest c :
  (n <= length rest)%nat ->
  signed_loop n (Z.of_nat (length pre)) (pre ++ rest) c =
  (pre ++ fst (signed_struct n rest c), snd (signed_struct n rest c)).
Proof.
  revert pre rest c; induction n as [|n IH]; intros pre rest c Hn.
  - reflexivity.
  - destruct rest as [|v r]; [cbn in Hn; lia|].
    rewrite signed_loop_S, word_app_here, upd_app_here.
    cbn [signed_struct]. destruct (signed_digit v c) as [d c'] eqn:Ed. cbn [fst snd].
    change (pre ++ d :: r) with (pre ++ [d] ++ r). rewrite app_assoc.
    replace (Z.of_nat (length pre) + 1) with (Z.of_nat (length (pre ++ [d])))
      by (rewrite length_app; cbn; lia).
    rewrite IH by (cbn in Hn; lia).
    destruct (signed_struct n r c') as [r' c'']. cbn [fst snd].
    now rewrite <- app_assoc.
Qed.

Lemma signed_struct_spec l1 : forall l2 c,
  Forall is_nibble l1 -> 0 <= c <= 1 ->
  exists d1 c',
    signed_struct (length l1) (l1 ++ l2) c = (d1 ++ l2, c') /\
    length d1 = length l1 /\ Forall is_digit d1 /\ 0 <= c' <= 1 /\
    digits_val d1 + 16 ^ Z.of_nat (length l1) * c' = unsigned_val l1 + c.
Proof.
  induction l1 as [|v r IH]; intros l2 c Hl Hc.
  - exists [], c. split; [reflexivity|]. split; [reflexivity|]. split; [constructor|].
    split; [assumption|]. change (0 + 1 * c = 0 + c). lia.
  - inversion Hl as [|? ? Hv Hr]; subst.
    destruct (signed_digit_spec v c Hv Hc) as (Hd & Hs & Hc' & E).
    cbn [length app signed_struct].
    destruct (signed_digit v c) as [d c1]. cbn [fst snd] in *.
    destruct (IH l2 c1 Hr Hc') as (d1 & c2 & E2 & Hlen & Hall & Hc2 & Eval).
    rewrite E2. exists (d :: d1), c2.
    split; [reflexivity|]. split; [cbn; lia|].
    split; [constructor; [split; assumption | assumption]|].
    split; [assumption|].
    cbn [digits_val unsigned_val fold_right]. fold (digits_val d1). fold (unsigned_val r).
    rewrite Nat2Z.inj_succ, Z.pow_succ_r by lia. lia.
Qed.

(** The nibbles of a 32-bit word. *)
Lemma word_nibbles_spec w :
  0 <= w < two32 ->
  Forall is_nibble (word_nibbles w) /\ unsigned_val (word_nibbles w) = w /\
  length (word_nibbles w) = 8%nat.
Proof.
  intros Hw. unfold word_nibbles. cbv zeta.
  cbn [VAND VSHR VSET164 Lane64]. change (wrap64 15) with (Z.ones 4).
  rewrite !Z.land_ones, !Z.shiftr_div_pow2 by lia.
  split; [|split; [|reflexivity]].
  - unfold is_nibble. repeat constructor; try (apply Z.mod_pos_bound; lia);
      match goal with |- ?x mod _ <= _ => pose proof (Z.mod_pos_bound x (2 ^ 4) ltac:(lia)); lia end.
  - unfold unsigned_val; cbn [fold_right]. unfold two32 in Hw.
    Z.to_euclidean_division_equations. lia.
Qed.

Lemma unsigned_val_app a b :
  unsigned_val (a ++ b) = unsigned_val a + 16 ^ Z.of_nat (length a) * unsigned_val b.
Proof.
  induction a as [|x a IH].
  - change (unsigned_val ([] ++ b)) with (unsigned_val b). change (unsigned_val []) with 0.
    change (16 ^ Z.of_nat (length (@nil Z))) with 1. lia.
  - change (unsigned_val ((x :: a) ++ b)) with (x + 16 * unsigned_val (a ++ b)).
    change (unsigned_val (x :: a)) with (x + 16 * unsigned_val a).
    cbn [length]. rewrite IH, Nat2Z.inj_succ, Z.pow_succ_r by lia. lia.
Qed.

Lemma digits_val_app a b :
  digits_val (a ++ b) = digits_val a + 16 ^ Z.of_nat (length a) * digits_val b.
Proof.
  induction a as [|x a IH].
  - change (digits_val ([] ++ b)) with (digits_val b). change (digits_val []) with 0.
    change (16 ^ Z.of_nat (length (@nil Z))) with 1. lia.
  - change (digits_val ((x :: a) ++ b)) with (sgn8 x + 16 * digits_val (a ++ b)).
    change (digits_val (x :: a)) with (sgn8 x + 16 * digits_val a).
    cbn [length]. rewrite IH, Nat2Z.inj_succ, Z.pow_succ_r by lia. lia.
Qed.

Lemma last_split {A} (d : A) (l : list A) n :
  length l = S n -> l = firstn n l ++ [word d l (Z.of_nat n)].
Proof.
  intros Hl. unfold word. rewrite Nat2Z.id.
  rewrite <- (firstn_skipn n l) at 1. f_equal.
  assert (Hs : length (skipn n l) = 1%nat) by (rewrite length_skipn; lia).
  destruct (skipn n l) as [|x [|y t]] eqn:E; try discriminate.
  f_equal.
  rewrite <- (firstn_skipn n l) at 1.
  rewrite app_nth2 by (rewrite length_firstn; lia).
  rewrite length_firstn, Nat.min_l by lia. rewrite Nat.sub_diag, E. reflexivity.
Qed.

(** The unsigned nibbles of the eight words carry the value of the scalar. *)
Lemma nibbles_spec k :
  scalar_words k ->
  let e0 := flat_map (fun i => word_nibbles (word VZERO k i)) [0; 1; 2; 3; 4; 5; 6; 7] in
  length e0 = 64%nat /\ Forall is_nibble e0 /\ unsigned_val e0 = scalar_val k /\
  word VZERO e0 63 = Z.land (Z.shiftr (word 0 k 7) 28) 15.
Proof.
  intros [Hl Hw].
  destruct k as [|w0 [|w1 [|w2 [|w3 [|w4 [|w5 [|w6 [|w7 [|w8 t]]]]]]]]]; try discriminate Hl.
  repeat match goal with H : Forall _ (_ :: _) |- _ => inversion H; clear H; subst end.
  cbn [flat_map]. 
  change (word VZERO [w0; w1; w2; w3; w4; w5; w6; w7] 0) with w0.
  change (word VZERO [w0; w1; w2; w3; w4; w5; w6; w7] 1) with w1.
  change (word VZERO [w0; w1; w2; w3; w4; w5; w6; w7] 2) with w2.
  change (word VZERO [w0; w1; w2; w3; w4; w5; w6; w7] 3) with w3.
  change (word VZERO [w0; w1; w2; w3; w4; w5; w6; w7] 4) with w4.
  change (word VZERO [w0; w1; w2; w3; w4; w5; w6; w7] 5) with w5.
  change (word VZERO [w0; w1; w2; w3; w4; w5; w6; w7] 6) with w6.
  change (word VZERO [w0; w1; w2; w3; w4; w5; w6; w7] 7) with w7.
  change (word 0 [w0; w1; w2; w3; w4; w5; w6; w7] 7) with w7.
  repeat match goal with H : 0 <= ?w < two32 |- _ =>
    let F := fresh "F" in let V := fresh "V" in let L := fresh "L" in
    destruct (word_nibbles_spec w H) as (F & V & L); revert F V L; clear H end.
  intros ? ? ? ? ? ? ? ? ? ? ? ? ? ? ? ? ? ? ? ? ? ? ? ?.
  cbv zeta. split; [|split; [|split]].
  - rewrite !length_app. cbn [length]. lia.
  - repeat (apply Forall_app; split; [assumption|]). constructor.
  - rewrite !unsigned_val_app.
    repeat match goal with H : length _ = 8%nat |- _ => rewrite H; clear H end.
    repeat match goal with H : unsigned_val _ = _ |- _ => rewrite H; clear H end.
    change (unsigned_val []) with 0. cbn [scalar_val fold_right].
    change (16 ^ Z.of_nat 8) with two32. lia.
  - reflexivity.
Qed.

Lemma top_digit n c :
  0 <= n <= 15 -> 0 <= c <= 1 ->
  VAND (VADD n c) (VSET164 0xFF) = n + c.
Proof.
  intros Hn Hc. cbn [VAND VADD VSET164 Lane64].
  rewrite (wrap64_small (n + c)) by (unfold two64; lia).
  change (wrap64 255) with (Z.ones 8). rewrite Z.land_ones by lia.
  apply Z.mod_small. change (2 ^ 8) with 256. lia.
Qed.

(** The recoding in one lane: 63 signed digits and a top digit, with the value
    of the scalar. *)
Lemma nibble_lane k :
  scalar_words k ->
  exists d1 c,
    ted_conv_scalar2nibble_avx2 k = d1 ++ [Z.land (Z.shiftr (word 0 k 7) 28) 15 + c] /\
    length d1 = 63%nat /\ Forall is_digit d1 /\ 0 <= c <= 1 /\
    digits_val (ted_conv_scalar2nibble_avx2 k) = scalar_val k.
Proof.
  intros Hk. destruct (nibbles_spec k Hk) as (Hlen & Hnib & Hval & Htop).
  unfold ted_conv_scalar2nibble_avx2. cbv zeta.
  set (e0 := flat_map _ _) in *.
  set (n63 := Z.land _ 15) in *.
  pose proof (last_split VZERO e0 63 Hlen) as Esplit.
  change (Z.of_nat 63) with 63 in Esplit. rewrite Htop in Esplit.
  set (l1 := firstn 63 e0) in *.
  assert (Hl1 : length l1 = 63%nat) by (unfold l1; rewrite length_firstn; lia).
  assert (Hn1 : Forall is_nibble l1).
  { rewrite Forall_forall in *. intros x Hx. apply Hnib.
    rewrite <- (firstn_skipn 63 e0). apply in_or_app. now left. }
  assert (Hn63 : 0 <= n63 <= 15).
  { unfold n63. change (Z.land (Z.shiftr (word 0 k 7) 28) 15)
      with (Z.land (Z.shiftr (word 0 k 7) 28) (Z.ones 4)). rewrite Z.land_ones by lia.
    pose proof (Z.mod_pos_bound (Z.shiftr (word 0 k 7) 28) (2 ^ 4) ltac:(lia)). lia. }
  destruct (signed_struct_spec l1 [n63] 0 Hn1 ltac:(lia)) as (d1 & c & Es & Hd1 & Hdig & Hc & Ev).
  rewrite Hl1 in Es, Ev, Hd1.
  assert (El : signed_loop 63 0 e0 VZERO = (d1 ++ [n63], c)).
  { rewrite Esplit.
    pose proof (signed_loop_struct 63 [] (l1 ++ [n63]) 0) as E.
    cbn [app length] in E. change (Z.of_nat 0) with 0 in E.
    rewrite Es in E. cbn [fst snd] in E. apply E.
    rewrite length_app, Hl1. cbn. lia. }
  rewrite El.
  pose proof (word_app_here VZERO d1 n63 []) as Ew.
  rewrite Hd1 in Ew. change (Z.of_nat 63) with 63 in Ew. rewrite Ew.
  pose proof (fun v => upd_app_here d1 n63 [] v) as Eu.
  rewrite Hd1 in Eu. change (Z.of_nat 63) with 63 in Eu. rewrite Eu.
  rewrite top_digit by assumption.
  exists d1, c. split; [reflexivity|]. split; [assumption|]. split; [assumption|].
  split; [assumption|].
  rewrite digits_val_app, Hd1. cbn [digits_val fold_right].
  assert (Et : sgn8 (n63 + c) = n63 + c).
  { unfold sgn8. destruct (Z.ltb_spec (n63 + c) 128); lia. }
  rewrite Et, <- Hval, Esplit, unsigned_val_app, Hl1.
  cbn [unsigned_val fold_right]. fold (unsigned_val l1). lia.
Qed.

(** C6 as stated fails: the last digit of the clamped scalar 2^255 - 8 is 8. *)
Lemma nibble_top_digit_counterexample :
  clamped (map (lane L0) k_ones) /\
  sgn8 (word 0 (map (lane L0) (ted_conv_scalar2nibble_avx2 k_ones)) 63) = 8.
Proof.
  split; [|vm_compute; reflexivity].
  split; [split; [reflexivity|]|split; [reflexivity|]].
  - repeat constructor; vm_compute; congruence.
  - vm_compute. split; congruence.
Qed.

(** C6, amended: for a clamped scalar the first 63 digits are 8-bit values
    whose signed reading lies in [-8, 7], the last digit lies in [4, 8], and
    the signed digits weighted by 16^i sum to the scalar. *)
Theorem nibble_recoding_value (k : list m256i) (j : lane_id) :
  clamped (map (lane j) k) ->
  let e := map (lane j) (ted_conv_scalar2nibble_avx2 k) in
  length e = 64%nat /\
  (forall i, 0 <= i < 63 -> is_digit (word 0 e i)) /\
  4 <= word 0 e 63 <= 8 /\
  digits_val e = scalar_val (map (lane j) k).
Proof.
  intros (Hk & _ & H7). cbv zeta. rewrite lane_nibble.
  destruct (nibble_lane _ Hk) as (d1 & c & E & Hl & Hd & Hc & Hv).
  rewrite Hv. rewrite E. split; [rewrite length_app, Hl; reflexivity|].
  split; [|split; [|reflexivity]].
  - intros i Hi. unfold word. rewrite app_nth1 by lia.
    rewrite Forall_forall in Hd. apply Hd, nth_In. lia.
  - pose proof (word_app_here 0 d1 (Z.land (Z.shiftr (word 0 (map (lane j) k) 7) 28) 15 + c) [])
      as Ew.
    rewrite Hl in Ew. change (Z.of_nat 63) with 63 in Ew. rewrite Ew.
    change (Z.land (Z.shiftr (word 0 (map (lane j) k) 7) 28) 15)
      with (Z.land (Z.shiftr (word 0 (map (lane j) k) 7) 28) (Z.ones 4)).
    rewrite Z.land_ones, Z.shiftr_div_pow2 by lia.
    Z.to_euclidean_division_equations. lia.
Qed.

Lemma nibble_recoding_value_witness :
  clamped (map (lane L0) k_ones) /\
  digits_val (map (lane L0) (ted_conv_scalar2nibble_avx2 k_ones)) =
  scalar_val (map (lane L0) k_ones).
Proof.
  assert (H : clamped (map (lane L0) k_ones)).
  { split; [split; [reflexivity|]|split; [reflexivity|]].
    - repeat constructor; vm_compute; congruence.
    - vm_compute. split; congruence. }
  split; [exact H|]. apply (nibble_recoding_value k_ones L0 H).
Defined.

(** * ecdh.c *)

(** C8: each lane of keygen and of sharedsecret depends only on that lane of
    the inputs: two inputs that agree in lane j give outputs that agree in
    lane j, and the lane of a 4-lane run is the run on the lane alone. *)
Theorem lanes_are_independent (base : Z -> Z -> LutPoint) (j : lane_id)
  (sk sk' : list m256i) (pk pk' : fe m256i) :
  map (lane j) sk = map (lane j) sk' ->
  fe_lane j pk = fe_lane j pk' ->
  fe_lane j (keygen base sk) = fe_lane j (keygen base sk') /\
  fe_lane j (sharedsecret sk pk) = fe_lane j (sharedsecret sk' pk') /\
  fe_lane j (keygen base sk) = keygen base (map (lane j) sk) /\
  fe_lane j (sharedsecret sk pk) = sharedsecret (map (lane j) sk) (fe_lane j pk).
Proof.
  intros Hs Hp.
  rewrite !lane_keygen, !lane_sharedsecret, Hs, Hp. repeat split.
Qed.

Lemma lanes_are_independent_witness :
  fe_lane L2 (keygen base_empty sk_one) = fe_lane L2 (keygen base_empty sk_two) /\
  fe_lane L2 (sharedsecret sk_one pk_one) = fe_lane L2 (sharedsecret sk_two pk_two).
Proof.
  destruct (lanes_are_independent base_empty L2 sk_one sk_two pk_one pk_two
              eq_refl eq_refl) as (H1 & H2 & _).
  split; [exact H1 | exact H2].
Defined.

(** C3: the limbs of p itself are reduced and their value is below twice
    2^261 - 1216, but final_modp returns them unchanged: the value of the result is p, which
    is not below p. *)
Theorem final_modp_keeps_p (j : lane_id) :
  fe_in reduced_itv (fe_lane j fe_p) /\
  0 <= val (fe_lane j fe_p) < 2 * pstar /\
  final_modp fe_p = fe_p /\
  val (fe_lane j (final_modp fe_p)) = p25519.
Proof. destruct j; vm_compute; intuition congruence. Qed.

(** C2 as stated fails: with the scalar converted to the 9-limb radix-2^29
    form the result is not the expected one. *)
Lemma rfc7748_scalar_limbs_counterexample :
  bytes_of_fe (sharedsecret (limbs_of_bytes rfc_scalar)
                 (fe_of_list 0 (limbs_of_bytes rfc_u))) <> rfc_out.
Proof. vm_compute. congruence. Qed.

(** C2, amended: the scalar is read as eight 32-bit little-endian words; the
    u-coordinate is in the 9-limb radix-2^29 form.  Then the lane holds the
    expected shared secret. *)
Theorem rfc7748_vector (j : lane_id) (sk : list m256i) (pk : fe m256i) :
  map (lane j) sk = words_of_bytes rfc_scalar ->
  fe_lane j pk = fe_of_list 0 (limbs_of_bytes rfc_u) ->
  bytes_of_fe (fe_lane j (sharedsecret sk pk)) = rfc_out.
Proof.
  intros Hs Hp. rewrite lane_sharedsecret, Hs, Hp. vm_compute. reflexivity.
Qed.

Lemma rfc7748_vector_witness :
  bytes_of_fe (fe_lane L1 (sharedsecret (map VSET164 (words_of_bytes rfc_scalar))
                             (fe_bcast (limbs_of_bytes rfc_u)))) = rfc_out.
Proof.
  apply (rfc7748_vector L1); vm_compute; reflexivity.
Defined.

(** * The field operations on one lane: range and value *)

Lemma eqp_of_pstar r v k : r = v + k * pstar -> eqp r v.
Proof. apply mod_p_of_pstar. Qed.

Lemma mul_lane (a b : fe Z) :
  fe_in wide_itv a -> fe_in wide_itv b ->
  fe_in folded_itv (mpi29_gfp_mul_avx2 a b) /\
  exists k, val (mpi29_gfp_mul_avx2 a b) = val a * val b + k * pstar.
Proof.
  intros Ha Hb.
  destruct (mul_bounded wide_itv wide_itv folded_itv eq_refl eq_refl a b
              ltac:(vm_compute; reflexivity) Ha Hb) as [E Hin].
  split; [exact Hin|]. rewrite E. apply mul_ideal_val.
Qed.

Lemma sqr_lane (a : fe Z) :
  fe_in wide_itv a ->
  fe_in folded_itv (mpi29_gfp_sqr_avx2 a) /\
  exists k, val (mpi29_gfp_sqr_avx2 a) = val a * val a + k * pstar.
Proof.
  intros Ha.
  destruct (sqr_bounded wide_itv folded_itv eq_refl a
              ltac:(vm_compute; reflexivity) Ha) as [E Hin].
  split; [exact Hin|]. rewrite E. apply sqr_ideal_val.
Qed.

Lemma add_lane (a b : fe Z) :
  fe_in word31_itv a -> fe_in word31_itv b ->
  fe_in (fe_const (upto (2 ^ 32 - 2))) (mpi29_gfp_add_avx2 a b) /\
  val (mpi29_gfp_add_avx2 a b) = val a + val b.
Proof.
  intros Ha Hb.
  destruct (add_bounded word31_itv word31_itv (fe_const (upto (2 ^ 32 - 2))) eq_refl eq_refl a b
              ltac:(vm_compute; reflexivity) Ha Hb) as [E Hin].
  split; [exact Hin|]. rewrite E. apply add_ideal_val.
Qed.

Lemma add_lane_folded (a b : fe Z) :
  fe_in folded_itv a -> fe_in folded_itv b ->
  fe_in wide_itv (mpi29_gfp_add_avx2 a b).
Proof.
  intros Ha Hb.
  apply (add_bounded folded_itv folded_itv wide_itv eq_refl eq_refl a b
           ltac:(vm_compute; reflexivity) Ha Hb).
Qed.

Lemma sub_lane (a b : fe Z) :
  fe_in folded_itv a -> fe_in folded_itv b ->
  fe_in word31_itv (mpi29_gfp_sub_avx2 a b) /\
  val (mpi29_gfp_sub_avx2 a b) = val a - val b + 2 * pstar.
Proof.
  intros Ha Hb.
  destruct (sub_bounded folded_itv folded_itv word31_itv eq_refl eq_refl a b
              ltac:(vm_compute; reflexivity) Ha Hb) as [E Hin].
  split; [exact Hin|]. rewrite E. apply sub_ideal_val.
Qed.

Lemma sbc_lane (a b : fe Z) :
  fe_in word31_itv a -> fe_in folded_itv b ->
  fe_in folded_itv (mpi29_gfp_sbc_avx2 a b) /\
  exists k, val (mpi29_gfp_sbc_avx2 a b) = val a - val b + k * pstar.
Proof.
  intros Ha Hb.
  destruct (sbc_bounded word31_itv folded_itv folded_itv eq_refl eq_refl a b
              ltac:(vm_compute; reflexivity) Ha Hb) as [E Hin].
  split; [exact Hin|]. rewrite E. apply sbc_ideal_val.
Qed.

Lemma mul29_lane (a : fe Z) (c : Z) :
  fe_in word31_itv a -> 0 <= c <= MASK29 ->
  fe_in wide_itv (mpi29_gfp_mul29_avx2 a c) /\
  exists k, val (mpi29_gfp_mul29_avx2 a c) = val a * c + k * pstar.
Proof.
  intros Ha Hc.
  destruct (mul29_bounded word31_itv wide_itv MASK29 a c eq_refl ltac:(reflexivity)
              ltac:(vm_compute; reflexivity) Ha Hc) as [E Hin].
  split; [exact Hin|]. rewrite E. apply mul29_ideal_val.
Qed.

Lemma inv_lane (a : fe Z) :
  fe_in wide_itv a ->
  fe_in folded_itv (mpi29_gfp_inv_avx2 a) /\
  eqp (val (mpi29_gfp_inv_avx2 a)) (val a ^ (p25519 - 2)).
Proof.
  intros Ha.
  destruct (inv_bounded wide_itv folded_itv a eq_refl inv_wide_settles Ha)
    as [E Hin].
  split; [exact Hin|]. rewrite E. apply inv_ideal_pow.
Qed.

(** * final_modp: the output is below 2^255 *)

Lemma final_modp_top_limb (a : fe Z) :
  fe_in wide_itv a -> f8 (@final_modp Z Ideal a) <= 2 ^ 23 - 1.
Proof.
  destruct a as [a0 a1 a2 a3 a4 a5 a6 a7 a8].
  unfold fe_in, wide_itv, fe_const, upto, itv_in; cbn [f0 f1 f2 f3 f4 f5 f6 f7 f8].
  intros (H0 & H1 & H2 & H3 & H4 & H5 & H6 & H7 & H8).
  cbv beta iota delta
    [final_modp f0 f1 f2 f3 f4 f5 f6 f7 f8 VADD VSUB VMUL VAND VSHR VSHL VSET164 Ideal].
  cbv zeta. cbn [f8].
  change MASK29 with (Z.ones 29). change 8388607 with (Z.ones 23). unfold BITS29.
  rewrite !Z.land_ones, !Z.shiftr_div_pow2 by lia.
  change (2 ^ 29) with 536870912 in *. change (2 ^ 23) with 8388608 in *.
  change (2 ^ 30 + 2 ^ 25) with 1107296256 in *.
  Z.to_euclidean_division_equations. lia.
Qed.

(** * The Montgomery ladder step: ranges and formulas *)

Lemma eqp_eq a b : a = b -> eqp a b.
Proof. now intros ->. Qed.

Lemma mul_eqp a b : eqp (val (@mpi29_gfp_mul_avx2 Z Ideal a b)) (val a * val b).
Proof. apply mul_ideal_mod_p. Qed.
Lemma sqr_eqp a : eqp (val (@mpi29_gfp_sqr_avx2 Z Ideal a)) (val a * val a).
Proof. apply sqr_ideal_mod_p. Qed.
Lemma sbc_eqp a b : eqp (val (@mpi29_gfp_sbc_avx2 Z Ideal a b)) (val a - val b).
Proof. destruct (sbc_ideal_val a b) as [k E]. eapply mod_p_of_pstar; eassumption. Qed.
Lemma sub_eqp a b : eqp (val (@mpi29_gfp_sub_avx2 Z Ideal a b)) (val a - val b).
Proof. eapply mod_p_of_pstar. apply sub_ideal_val. Qed.
Lemma mul29_eqp a c : eqp (val (@mpi29_gfp_mul29_avx2 Z Ideal a c)) (val a * c).
Proof. destruct (mul29_ideal_val a c) as [k E]. eapply mod_p_of_pstar; eassumption. Qed.

Ltac eqp_ops :=
  repeat first
    [ rewrite mul_eqp | rewrite sqr_eqp | rewrite sbc_eqp | rewrite sub_eqp
    | rewrite mul29_eqp | rewrite add_ideal_val ].

(** The values computed by the ladder step, read without word size. *)
Lemma ladder_step_ideal_val (p q : ProPoint Z) (xd : fe Z) :
  let r := @mon_ladder_step_avx2 Z Ideal p q xd in
  eqp (val (p_x (fst r))) (dbl_x (val (p_x p)) (val (p_z p))) /\
  eqp (val (p_z (fst r))) (dbl_z (val (p_x p)) (val (p_z p))) /\
  eqp (val (p_x (snd r))) (dadd_x (val (p_x p)) (val (p_z p)) (val (p_x q)) (val (p_z q))) /\
  eqp (val (p_z (snd r)))
      (dadd_z (val (p_x p)) (val (p_z p)) (val (p_x q)) (val (p_z q)) (val xd)).
Proof.
  destruct p as [px py pz], q as [qx qy qz].
  unfold mon_ladder_step_avx2, dbl_x, dbl_z, dadd_x, dadd_z. cbv zeta.
  cbn [fst snd p_x p_y p_z].
  split; [|split; [|split]]; eqp_ops; apply eqp_eq; ring.
Qed.

Lemma rel3_ladder_step px px' ipx pz pz' ipz qx qx' iqx qz qz' iqz xd xd' ixd :
  fe_rel3 px px' ipx -> fe_rel3 pz pz' ipz -> fe_rel3 qx qx' iqx -> fe_rel3 qz qz' iqz ->
  fe_rel3 xd xd' ixd ->
  forall py py' ipy qy qy' iqy,
  let r := @mon_ladder_step_avx2 Z Lane64 (mkPro px py pz) (mkPro qx qy qz) xd in
  let r' := @mon_ladder_step_avx2 Z Ideal (mkPro px' py' pz') (mkPro qx' qy' qz') xd' in
  let ir := @mon_ladder_step_avx2 itv Itv (mkPro ipx ipy ipz) (mkPro iqx iqy iqz) ixd in
  (fe_rel3 (p_x (fst r)) (p_x (fst r')) (p_x (fst ir)) /\
   fe_rel3 (p_y (fst r)) (p_y (fst r')) (p_y (fst ir)) /\
   fe_rel3 (p_z (fst r)) (p_z (fst r')) (p_z (fst ir))) /\
  (fe_rel3 (p_x (snd r)) (p_x (snd r')) (p_x (snd ir)) /\
   fe_rel3 (p_y (snd r)) (p_y (snd r')) (p_y (snd ir)) /\
   fe_rel3 (p_z (snd r)) (p_z (snd r')) (p_z (snd ir))).
Proof.
  intros Hpx Hpz Hqx Hqz Hxd py py' ipy qy qy' iqy r r' ir. subst r r' ir.
  unfold mon_ladder_step_avx2. cbv zeta. cbn [fst snd p_x p_y p_z].
  split; (split; [|split]); rel3_calls.
Qed.

Lemma pro_ext {T} (p q : ProPoint T) :
  p_x p = p_x q -> p_y p = p_y q -> p_z p = p_z q -> p = q.
Proof. destruct p, q; cbn; intros; subst; reflexivity. Qed.

(** On one lane, with the x and z slots in the folded range: no word
    overflows, and all slots of the results are in the folded range again. *)
Lemma ladder_step_lane (p q : ProPoint Z) (xd : fe Z) :
  fe_in folded_itv (p_x p) -> fe_in folded_itv (p_z p) ->
  fe_in folded_itv (p_x q) -> fe_in folded_itv (p_z q) -> fe_in folded_itv xd ->
  mon_ladder_step_avx2 p q xd = @mon_ladder_step_avx2 Z Ideal p q xd /\
  pro_in folded_itv (fst (mon_ladder_step_avx2 p q xd)) /\
  pro_in folded_itv (snd (mon_ladder_step_avx2 p q xd)).
Proof.
  destruct p as [px py pz], q as [qx qy qz]. cbn [p_x p_y p_z].
  intros Hpx Hpz Hqx Hqz Hxd.
  pose proof (rel3_ladder_step _ _ folded_itv _ _ folded_itv _ _ folded_itv _ _ folded_itv
                _ _ folded_itv
                (fe_in_rel3 _ _ Hpx eq_refl) (fe_in_rel3 _ _ Hpz eq_refl)
                (fe_in_rel3 _ _ Hqx eq_refl) (fe_in_rel3 _ _ Hqz eq_refl)
                (fe_in_rel3 _ _ Hxd eq_refl)
                py py folded_itv qy qy folded_itv) as R.
  cbv zeta in R. destruct R as ((R1 & R2 & R3) & (R4 & R5 & R6)).
  apply settles_elim with (j := folded_itv) in R1; [|vm_compute; reflexivity].
  apply settles_elim with (j := folded_itv) in R2; [|vm_compute; reflexivity].
  apply settles_elim with (j := folded_itv) in R3; [|vm_compute; reflexivity].
  apply settles_elim with (j := folded_itv) in R4; [|vm_compute; reflexivity].
  apply settles_elim with (j := folded_itv) in R5; [|vm_compute; reflexivity].
  apply settles_elim with (j := folded_itv) in R6; [|vm_compute; reflexivity].
  destruct R1 as [E1 H1], R2 as [E2 H2], R3 as [E3 H3],
           R4 as [E4 H4], R5 as [E5 H5], R6 as [E6 H6].
  split; [|split; unfold pro_in; auto].
  destruct (@mon_ladder_step_avx2 Z Lane64 _ _ _) as [r1 r2].
  destruct (@mon_ladder_step_avx2 Z Ideal _ _ _) as [r1' r2'].
  cbn [fst snd] in *. f_equal; apply pro_ext; assumption.
Qed.

(** * The field operations on four lanes *)

Lemma fe_max_folded : lanes_in folded_itv fe_max.
Proof. apply (lanes_in_sub reduced_itv); [reflexivity | apply fe_max_reduced]. Qed.
Lemma fe_max_word31 : lanes_in word31_itv fe_max.
Proof. apply (lanes_in_sub reduced_itv); [reflexivity | apply fe_max_reduced]. Qed.
Lemma fe_2431_wide : lanes_in wide_itv fe_2431.
Proof. apply (lanes_in_sub reduced_itv); [reflexivity | apply fe_2431_reduced]. Qed.
Lemma fe_2431_folded : lanes_in folded_itv fe_2431.
Proof. apply (lanes_in_sub reduced_itv); [reflexivity | apply fe_2431_reduced]. Qed.
Lemma fe_2431_word31 : lanes_in word31_itv fe_2431.
Proof. apply (lanes_in_sub reduced_itv); [reflexivity | apply fe_2431_reduced]. Qed.

(** X1: Multiplication: for operands with limbs at most 2^30 + 2^25 no 64-bit
    column overflows; the result is in the folded range and its value is the
    product modulo 2^261 - 1216 = 64 p. *)
Theorem mul_range_and_value (a b : fe m256i) :
  lanes_in wide_itv a -> lanes_in wide_itv b ->
  lanes_in folded_itv (mpi29_gfp_mul_avx2 a b) /\
  forall j, exists k,
    val (fe_lane j (mpi29_gfp_mul_avx2 a b)) =
    val (fe_lane j a) * val (fe_lane j b) + k * pstar.
Proof.
  intros Ha Hb. split; intros j; rewrite lane_mul; apply mul_lane; auto.
Qed.

Lemma mul_range_and_value_witness :
  lanes_in folded_itv (mpi29_gfp_mul_avx2 fe_max fe_2431).
Proof. exact (proj1 (mul_range_and_value fe_max fe_2431 fe_max_wide fe_2431_wide)). Defined.

(** X2: Squaring: same range, and the value is the square modulo 2^261 - 1216. *)
Theorem sqr_range_and_value (a : fe m256i) :
  lanes_in wide_itv a ->
  lanes_in folded_itv (mpi29_gfp_sqr_avx2 a) /\
  forall j, exists k,
    val (fe_lane j (mpi29_gfp_sqr_avx2 a)) =
    val (fe_lane j a) * val (fe_lane j a) + k * pstar.
Proof.
  intros Ha. split; intros j; rewrite lane_sqr; apply sqr_lane; auto.
Qed.

Lemma sqr_range_and_value_witness :
  lanes_in folded_itv (mpi29_gfp_sqr_avx2 fe_max).
Proof. exact (proj1 (sqr_range_and_value fe_max fe_max_wide)). Defined.

(** X3: Addition is limb-wise and exact: for operands with limbs below 2^31 the
    value of the result is the sum of the values (no reduction), and the sum of
    two operands in the folded range has limbs at most 2^30 + 2^25. *)
Theorem add_exact (a b : fe m256i) :
  lanes_in word31_itv a -> lanes_in word31_itv b ->
  (forall j, val (fe_lane j (mpi29_gfp_add_avx2 a b)) = val (fe_lane j a) + val (fe_lane j b)) /\
  (lanes_in folded_itv a -> lanes_in folded_itv b ->
   lanes_in wide_itv (mpi29_gfp_add_avx2 a b)).
Proof.
  intros Ha Hb. split.
  - intros j. rewrite lane_add. apply add_lane; auto.
  - intros Fa Fb j. rewrite lane_add. apply add_lane_folded; auto.
Qed.

Lemma add_exact_witness :
  val (fe_lane L1 (mpi29_gfp_add_avx2 fe_max fe_2431)) =
  val (fe_lane L1 fe_max) + val (fe_lane L1 fe_2431).
Proof. exact (proj1 (add_exact fe_max fe_2431 fe_max_word31 fe_2431_word31) L1). Defined.

(** X4: The non-reducing subtraction adds twice 2^261 - 1216 limb by limb: on
    operands in the folded range no limb wraps around, the limbs of the result
    stay below 2^31 and its value is a - b + 2 (2^261 - 1216). *)
Theorem sub_adds_twice_modulus (a b : fe m256i) :
  lanes_in folded_itv a -> lanes_in folded_itv b ->
  lanes_in word31_itv (mpi29_gfp_sub_avx2 a b) /\
  forall j, val (fe_lane j (mpi29_gfp_sub_avx2 a b)) =
            val (fe_lane j a) - val (fe_lane j b) + 2 * pstar.
Proof.
  intros Ha Hb. split; intros j; rewrite lane_sub; apply sub_lane; auto.
Qed.

Lemma sub_adds_twice_modulus_witness :
  lanes_in word31_itv (mpi29_gfp_sub_avx2 fe_2431 fe_max).
Proof.
  exact (proj1 (sub_adds_twice_modulus fe_2431 fe_max fe_2431_folded fe_max_folded)).
Defined.

(** X5: The reducing subtraction: for a first operand with limbs below 2^31 and a
    second operand in the folded range, the result is in the folded range and
    its value is the difference modulo 2^261 - 1216. *)
Theorem sbc_range_and_value (a b : fe m256i) :
  lanes_in word31_itv a -> lanes_in folded_itv b ->
  lanes_in folded_itv (mpi29_gfp_sbc_avx2 a b) /\
  forall j, exists k,
    val (fe_lane j (mpi29_gfp_sbc_avx2 a b)) =
    val (fe_lane j a) - val (fe_lane j b) + k * pstar.
Proof.
  intros Ha Hb. split; intros j; rewrite lane_sbc; apply sbc_lane; auto.
Qed.

Lemma sbc_range_and_value_witness :
  lanes_in folded_itv (mpi29_gfp_sbc_avx2 fe_2431 fe_max).
Proof.
  exact (proj1 (sbc_range_and_value fe_2431 fe_max fe_2431_word31 fe_max_folded)).
Defined.

(** X6: Multiplication by a constant of at most 29 bits: for an operand with limbs
    below 2^31 the result has limbs at most 2^30 + 2^25 and its value is the
    product modulo 2^261 - 1216. *)
Theorem mul29_range_and_value (a : fe m256i) (c : Z) :
  lanes_in word31_itv a -> 0 <= c <= MASK29 ->
  lanes_in wide_itv (mpi29_gfp_mul29_avx2 a c) /\
  forall j, exists k,
    val (fe_lane j (mpi29_gfp_mul29_avx2 a c)) = val (fe_lane j a) * c + k * pstar.
Proof.
  intros Ha Hc. split; intros j; rewrite lane_mul29; apply mul29_lane; auto.
Qed.

Lemma mul29_range_and_value_witness :
  lanes_in wide_itv (mpi29_gfp_mul29_avx2 fe_max ((CONSTA - 2) / 4)).
Proof.
  apply (mul29_range_and_value fe_max ((CONSTA - 2) / 4) fe_max_word31).
  vm_compute. split; discriminate.
Defined.

(** X7: Inversion computes the power p - 2 = 2^255 - 21: for an operand with limbs
    at most 2^30 + 2^25, none of the 254 squarings and 11 multiplications
    overflows, and the result is in the folded range. *)
Theorem inv_is_power (a : fe m256i) :
  lanes_in wide_itv a ->
  lanes_in folded_itv (mpi29_gfp_inv_avx2 a) /\
  forall j, eqp (val (fe_lane j (mpi29_gfp_inv_avx2 a))) (val (fe_lane j a) ^ (p25519 - 2)).
Proof.
  intros Ha. split; intros j; rewrite lane_inv; apply inv_lane; auto.
Qed.

Lemma inv_is_power_witness :
  lanes_in folded_itv (mpi29_gfp_inv_avx2 fe_max).
Proof. exact (proj1 (inv_is_power fe_max fe_max_wide)). Defined.

(** * final_modp *)

Lemma below255_val (r : fe Z) : fe_in below255_itv r -> 0 <= val r < 2 ^ 255.
Proof.
  destruct r as [r0 r1 r2 r3 r4 r5 r6 r7 r8].
  unfold fe_in, below255_itv, upto, itv_in, val, MASK29; cbn [f0 f1 f2 f3 f4 f5 f6 f7 f8].
  intros (?&?&?&?&?&?&?&?&?). lia.
Qed.

Lemma final_modp_lane (a : fe Z) :
  fe_in wide_itv a ->
  fe_in below255_itv (final_modp a) /\ eqp (val (final_modp a)) (val a).
Proof.
  intros Ha.
  destruct (final_modp_bounded wide_itv (carried_itv MASK29 MASK29) eq_refl a
              ltac:(vm_compute; reflexivity) Ha) as [E Hin].
  pose proof (final_modp_top_limb a Ha) as Htop. rewrite <- E in Htop.
  split.
  - destruct (final_modp a) as [r0 r1 r2 r3 r4 r5 r6 r7 r8].
    unfold fe_in, below255_itv, carried_itv, upto, itv_in in *;
      cbn [f0 f1 f2 f3 f4 f5 f6 f7 f8] in *.
    intuition lia.
  - rewrite E. destruct (final_modp_ideal_val a) as [k Ek].
    unfold eqp. rewrite Ek. apply Z.mod_add. discriminate.
Qed.

(** On a value already below 2^255 in this form [final_modp] changes nothing. *)
Lemma final_modp_fixed_ideal (r : fe Z) :
  fe_in below255_itv r -> @final_modp Z Ideal r = r.
Proof.
  destruct r as [r0 r1 r2 r3 r4 r5 r6 r7 r8].
  unfold fe_in, below255_itv, upto, itv_in; cbn [f0 f1 f2 f3 f4 f5 f6 f7 f8].
  intros (H0 & H1 & H2 & H3 & H4 & H5 & H6 & H7 & H8).
  unfold MASK29 in *. change (2 ^ 23 - 1) with 8388607 in H8.
  assert (T8 : Z.shiftr r8 23 = 0) by (rewrite Z.shiftr_div_pow2 by lia; apply Z.div_small; lia).
  assert (M8 : Z.land r8 8388607 = r8) by (rewrite land_mask23; apply Z.mod_small; lia).
  assert (S : forall x, 0 <= x <= 536870911 -> Z.shiftr (x + 0) 29 = 0 /\
                        Z.land (x + 0) 536870911 = x).
  { intros x Hx. rewrite Z.add_0_r. split.
    - rewrite Z.shiftr_div_pow2 by lia. apply Z.div_small. lia.
    - change 536870911 with (Z.ones 29). rewrite Z.land_ones by lia.
      apply Z.mod_small. lia. }
  cbv beta iota delta
    [final_modp f0 f1 f2 f3 f4 f5 f6 f7 f8 VADD VSUB VMUL VAND VSHR VSHL VSET164 Ideal
     MASK29 BITS29].
  cbv zeta.
  rewrite T8, M8. change (0 * 19) with 0.
  rewrite !(proj1 (S r0 H0)), !(proj2 (S r0 H0)).
  rewrite !(proj1 (S r1 H1)), !(proj2 (S r1 H1)).
  rewrite !(proj1 (S r2 H2)), !(proj2 (S r2 H2)).
  rewrite !(proj1 (S r3 H3)), !(proj2 (S r3 H3)).
  rewrite !(proj1 (S r4 H4)), !(proj2 (S r4 H4)).
  rewrite !(proj1 (S r5 H5)), !(proj2 (S r5 H5)).
  rewrite !(proj1 (S r6 H6)), !(proj2 (S r6 H6)).
  rewrite !(proj1 (S r7 H7)), !(proj2 (S r7 H7)).
  rewrite !Z.add_0_r, T8, M8. change (0 * 19) with 0.
  rewrite !(proj1 (S r0 H0)), !(proj2 (S r0 H0)).
  rewrite !(proj1 (S r1 H1)), !(proj2 (S r1 H1)).
  rewrite !(proj1 (S r2 H2)), !(proj2 (S r2 H2)).
  rewrite !(proj1 (S r3 H3)), !(proj2 (S r3 H3)).
  rewrite !(proj1 (S r4 H4)), !(proj2 (S r4 H4)).
  rewrite !(proj1 (S r5 H5)), !(proj2 (S r5 H5)).
  rewrite !(proj1 (S r6 H6)), !(proj2 (S r6 H6)).
  rewrite !(proj1 (S r7 H7)), !(proj2 (S r7 H7)).
  rewrite !Z.add_0_r. reflexivity.
Qed.

Lemma final_modp_fixed (r : fe Z) :
  fe_in below255_itv r -> final_modp r = r.
Proof.
  intros Hr.
  destruct (final_modp_bounded below255_itv (carried_itv MASK29 MASK29) eq_refl r
              ltac:(vm_compute; reflexivity) Hr) as [E _].
  rewrite E. now apply final_modp_fixed_ideal.
Qed.

(** X8: final_modp on an input with limbs at most 2^30 + 2^25: limbs 0..7 of the
    result are at most 2^29 - 1 and limb 8 at most 2^23 - 1, so the value is
    below 2^255, and it is congruent to the value of the input modulo p. *)
Theorem final_modp_below_2_255 (a : fe m256i) :
  lanes_in wide_itv a ->
  forall j,
    fe_in below255_itv (fe_lane j (final_modp a)) /\
    0 <= val (fe_lane j (final_modp a)) < 2 ^ 255 /\
    eqp (val (fe_lane j (final_modp a))) (val (fe_lane j a)).
Proof.
  intros Ha j. rewrite lane_final_modp.
  destruct (final_modp_lane _ (Ha j)) as [Hin Hv].
  split; [exact Hin|]. split; [now apply below255_val | exact Hv].
Qed.

Lemma final_modp_below_2_255_witness :
  0 <= val (fe_lane L3 (final_modp fe_max)) < 2 ^ 255.
Proof. exact (proj1 (proj2 (final_modp_below_2_255 fe_max fe_max_wide L3))). Defined.

(** X9: final_modp is idempotent: applied to its own result it changes nothing. *)
Theorem final_modp_idempotent (a : fe m256i) :
  lanes_in wide_itv a -> final_modp (final_modp a) = final_modp a.
Proof.
  intros Ha. apply fe256_ext; intros j. rewrite !lane_final_modp.
  apply final_modp_fixed. apply final_modp_lane, Ha.
Qed.

Lemma final_modp_idempotent_witness :
  final_modp (final_modp fe_max) = final_modp fe_max.
Proof. exact (final_modp_idempotent fe_max fe_max_wide). Defined.

(** * The ladder on four lanes *)

(** X10: The ladder step keeps the folded range: with the x and z coordinates of P
    and Q and the x-coordinate of the difference in the folded range, every
    slot of both results is in the folded range again (no 64-bit word overflows on the
    way), and the x and z slots hold the values of the doubling and of the
    differential addition modulo p. *)
Theorem ladder_step_range_and_formulas (p q : ProPoint m256i) (xd : fe m256i) :
  lanes_in folded_itv (p_x p) -> lanes_in folded_itv (p_z p) ->
  lanes_in folded_itv (p_x q) -> lanes_in folded_itv (p_z q) -> lanes_in folded_itv xd ->
  let r := mon_ladder_step_avx2 p q xd in
  pro_lanes_in folded_itv (fst r) /\ pro_lanes_in folded_itv (snd r) /\
  forall j,
    let x := val (fe_lane j (p_x p)) in let z := val (fe_lane j (p_z p)) in
    let x' := val (fe_lane j (p_x q)) in let z' := val (fe_lane j (p_z q)) in
    eqp (val (fe_lane j (p_x (fst r)))) (dbl_x x z) /\
    eqp (val (fe_lane j (p_z (fst r)))) (dbl_z x z) /\
    eqp (val (fe_lane j (p_x (snd r)))) (dadd_x x z x' z') /\
    eqp (val (fe_lane j (p_z (snd r)))) (dadd_z x z x' z' (val (fe_lane j xd))).
Proof.
  intros Hpx Hpz Hqx Hqz Hxd. cbv zeta.
  assert (L : forall j,
    pair_map (pro_lane j) (pro_lane j) (mon_ladder_step_avx2 p q xd) =
      @mon_ladder_step_avx2 Z Ideal (pro_lane j p) (pro_lane j q) (fe_lane j xd) /\
    pro_in folded_itv (pro_lane j (fst (mon_ladder_step_avx2 p q xd))) /\
    pro_in folded_itv (pro_lane j (snd (mon_ladder_step_avx2 p q xd)))).
  { intros j.
    pose proof (ladder_step_lane (pro_lane j p) (pro_lane j q) (fe_lane j xd)
                  (Hpx j) (Hpz j) (Hqx j) (Hqz j) (Hxd j)) as (E & H1 & H2).
    rewrite <- lane_ladder_step in E, H1, H2. auto. }
  split; [intros j; exact (proj1 (proj2 (L j)))|].
  split; [intros j; exact (proj2 (proj2 (L j)))|].
  intros j. destruct (L j) as (E & _ & _).
  pose proof (ladder_step_ideal_val (pro_lane j p) (pro_lane j q) (fe_lane j xd)) as V.
  cbv zeta in V. rewrite <- E in V. exact V.
Qed.

Lemma ladder_step_range_and_formulas_witness :
  pro_lanes_in folded_itv (fst (mon_ladder_step_avx2 pt_max pt_max fe_max)).
Proof.
  exact (proj1 (ladder_step_range_and_formulas pt_max pt_max fe_max
                  fe_max_folded fe_max_folded fe_max_folded fe_max_folded fe_max_folded)).
Defined.

(** The conditional swap of points on one lane. *)
Lemma folded_wf64 (a : fe Z) : fe_in folded_itv a -> fe_all wf64 a.
Proof.
  destruct a as [a0 a1 a2 a3 a4 a5 a6 a7 a8].
  unfold fe_in, folded_itv, carried_itv, upto, itv_in, fe_all, wf64, two64, MASK29;
    cbn [f0 f1 f2 f3 f4 f5 f6 f7 f8].
  intros (?&?&?&?&?&?&?&?&?). repeat split; lia.
Qed.

Lemma cswap_point_lane_in (p q : ProPoint Z) (b : Z) :
  pro_in folded_itv p -> pro_in folded_itv q ->
  pro_in folded_itv (fst (mon_cswap_point_avx2 p q b)) /\
  pro_in folded_itv (snd (mon_cswap_point_avx2 p q b)).
Proof.
  intros (Hpx & Hpy & Hpz) (Hqx & Hqy & Hqz).
  unfold mon_cswap_point_avx2. cbv zeta.
  change (@VAND Z _ b (VSET164 1)) with (Z.land b 1).
  rewrite land_1_odd. destruct (Z.odd b).
  - rewrite !cswap_lane_1 by (now apply folded_wf64). cbv beta iota.
    unfold pro_in. cbn [fst snd p_x p_y p_z]. auto 8.
  - rewrite !cswap_lane_0. cbv beta iota.
    unfold pro_in. cbn [fst snd p_x p_y p_z]. auto 8.
Qed.

Lemma ladder_iter_lane_in kp (x : fe Z) i st :
  fe_in folded_itv x ->
  pro_in folded_itv (fst (fst st)) -> pro_in folded_itv (snd (fst st)) ->
  pro_in folded_itv (fst (fst (ladder_iter kp x i st))) /\
  pro_in folded_itv (snd (fst (ladder_iter kp x i st))).
Proof.
  destruct st as [[p1 p2] s]. cbn [fst snd]. intros Hx H1 H2.
  unfold ladder_iter. cbv zeta.
  destruct (cswap_point_lane_in p1 p2
              (VXOR s (VSHR (word VZERO kp (Z.shiftr i 5)) (Z.land i 31))) H1 H2) as [C1 C2].
  destruct (mon_cswap_point_avx2 p1 p2 _) as [c1 c2]. cbn [fst snd] in C1, C2.
  destruct C1 as (C1x & _ & C1z), C2 as (C2x & _ & C2z).
  destruct (ladder_step_lane c1 c2 x C1x C1z C2x C2z Hx) as (_ & S1 & S2).
  destruct (mon_ladder_step_avx2 c1 c2 x) as [r1 r2]. cbn [fst snd] in *. auto.
Qed.

Lemma ladder_loop_lane_in kp (x : fe Z) n : forall st,
  fe_in folded_itv x ->
  pro_in folded_itv (fst (fst st)) -> pro_in folded_itv (snd (fst st)) ->
  pro_in folded_itv (fst (fst (ladder_loop kp x n st))) /\
  pro_in folded_itv (snd (fst (ladder_loop kp x n st))).
Proof.
  induction n as [|n IH]; intros st Hx H1 H2; cbn [ladder_loop]; [auto|].
  destruct (ladder_iter_lane_in kp x (Z.of_nat n) st Hx H1 H2) as [I1 I2].
  apply IH; assumption.
Qed.

Lemma fe_zero_in_folded : fe_in folded_itv (@fe_zero Z _).
Proof. vm_compute. intuition discriminate. Qed.
Lemma fe_one_in_folded : fe_in folded_itv (@fe_one Z _).
Proof. vm_compute. intuition discriminate. Qed.

Lemma folded_wide (a : fe Z) : fe_in folded_itv a -> fe_in wide_itv a.
Proof. intros Ha. eapply fe_in_sub; [exact Ha | reflexivity]. Qed.

Lemma varbase_lane_in (k : list Z) (x : fe Z) :
  fe_in folded_itv x -> fe_in folded_itv (mon_mul_varbase_avx2 k x).
Proof.
  intros Hx. unfold mon_mul_varbase_avx2. cbv zeta.
  pose proof (ladder_loop_lane_in (prune k) x 255
                (mkPro fe_one fe_zero fe_zero, mkPro x fe_zero fe_one, VZERO) Hx) as L.
  cbn [fst snd] in L.
  destruct L as [L1 L2].
  { unfold pro_in; cbn [p_x p_y p_z].
    split; [|split]; first [apply fe_one_in_folded | apply fe_zero_in_folded]. }
  { unfold pro_in; cbn [p_x p_y p_z].
    split; [|split]; first [exact Hx | apply fe_one_in_folded | apply fe_zero_in_folded]. }
  destruct (ladder_loop _ _ _ _) as [[p1 p2] s]. cbn [fst snd] in L1, L2.
  destruct (cswap_point_lane_in p1 p2 s L1 L2) as [(C1x & _ & C1z) _].
  destruct (mon_cswap_point_avx2 p1 p2 s) as [c1 c2]. cbn [fst snd] in *.
  apply mul_lane; apply folded_wide; [apply inv_lane; now apply folded_wide | assumption].
Qed.

(** X11: The shared secret is below 2^255 whatever the scalar: for a public key in
    the folded range, no step of the ladder, of the inversion and of the final
    reduction overflows, and the result has limbs 0..7 at most 2^29 - 1 and
    limb 8 at most 2^23 - 1. *)
Theorem sharedsecret_below_2_255 (ska : list m256i) (pkb : fe m256i) :
  lanes_in folded_itv pkb ->
  forall j,
    fe_in below255_itv (fe_lane j (sharedsecret ska pkb)) /\
    0 <= val (fe_lane j (sharedsecret ska pkb)) < 2 ^ 255.
Proof.
  intros Hx j. rewrite lane_sharedsecret. unfold sharedsecret.
  pose proof (varbase_lane_in (map (lane j) ska) (fe_lane j pkb) (Hx j)) as Hv.
  destruct (final_modp_lane _ (folded_wide _ Hv)) as [Hin _].
  split; [exact Hin | now apply below255_val].
Qed.

Lemma sharedsecret_below_2_255_witness :
  0 <= val (fe_lane L0 (sharedsecret sk_one fe_max)) < 2 ^ 255.
Proof. exact (proj2 (sharedsecret_below_2_255 sk_one fe_max fe_max_folded L0)). Defined.

(** * Pruning the scalar *)

Lemma testbit_above w m n : 0 <= w < 2 ^ m -> m <= n -> Z.testbit w n = false.
Proof.
  intros Hw Hn. destruct (Z.eq_dec w 0) as [-> | Hz]; [apply Z.testbit_0_l|].
  apply Z.bits_above_log2; [lia|].
  assert (Z.log2 w < m) by (apply Z.log2_lt_pow2; lia). lia.
Qed.

(** Clearing the low three bits of a 32-bit word. *)
Lemma land_clear3 w : 0 <= w < two32 -> Z.land w 0xFFFFFFF8 = w - w mod 8.
Proof.
  intros Hw. unfold two32 in Hw.
  replace (w - w mod 8) with (Z.shiftl (Z.shiftr w 3) 3).
  2:{ rewrite Z.shiftl_mul_pow2, Z.shiftr_div_pow2 by lia. change (2 ^ 3) with 8.
      pose proof (Z.div_mod w 8 ltac:(lia)). lia. }
  change 0xFFFFFFF8 with (Z.shiftl (Z.ones 29) 3).
  apply Z.bits_inj'; intros n Hn.
  rewrite Z.land_spec, !Z.shiftl_spec by lia.
  destruct (Z.ltb_spec n 3) as [L | L].
  - rewrite !(Z.testbit_neg_r _ (n - 3)) by lia. apply andb_false_r.
  - rewrite Z.shiftr_spec by lia. replace (n - 3 + 3) with n by lia.
    destruct (Z.ltb_spec n 32) as [L' | L'].
    + rewrite Z.ones_spec_low by lia. apply andb_true_r.
    + rewrite (testbit_above w 32 n) by lia. reflexivity.
Qed.

(** Clearing bit 31 and setting bit 30 of a 32-bit word. *)
Lemma lor_set30 w :
  0 <= w < two32 -> Z.lor (Z.land w 0x7FFFFFFF) 0x40000000 = 2 ^ 30 + w mod 2 ^ 30.
Proof.
  intros Hw. unfold two32 in Hw.
  assert (N : Z.land (w mod 2 ^ 30) (2 ^ 30) = 0).
  { apply Z.bits_inj'; intros n Hn. rewrite Z.land_spec, Z.bits_0, Z.pow2_bits_eqb by lia.
    destruct (Z.eqb_spec 30 n) as [<- | Hne]; [|apply andb_false_r].
    rewrite Z.mod_pow2_bits_high by lia. reflexivity. }
  rewrite (Z.add_comm (2 ^ 30)), (Z.add_nocarry_lxor _ _ N), (Z.lxor_lor _ _ N).
  change 0x7FFFFFFF with (Z.ones 31). change 0x40000000 with (2 ^ 30).
  apply Z.bits_inj'; intros n Hn.
  rewrite !Z.lor_spec, Z.land_spec, Z.pow2_bits_eqb by lia.
  destruct (Z.eqb_spec 30 n) as [<- | Hne]; [now rewrite !orb_true_r|].
  rewrite !orb_false_r.
  destruct (Z.ltb_spec n 30) as [L | L].
  - rewrite Z.ones_spec_low, Z.mod_pow2_bits_low by lia. apply andb_true_r.
  - rewrite Z.ones_spec_high, Z.mod_pow2_bits_high by lia. apply andb_false_r.
Qed.

Lemma prune_lane (k : list Z) :
  scalar_words k ->
  clamped (prune k) /\
  scalar_val (prune k) = 2 ^ 254 + 8 * ((scalar_val k / 8) mod 2 ^ 251).
Proof.
  intros [Hl Hw].
  destruct k as [|w0 [|w1 [|w2 [|w3 [|w4 [|w5 [|w6 [|w7 [|w8 t]]]]]]]]]; try discriminate Hl.
  repeat match goal with H : Forall _ (_ :: _) |- _ => inversion H; clear H; subst end.
  rewrite prune_eq.
  change (word VZERO [w0; w1; w2; w3; w4; w5; w6; w7] 0) with w0.
  change (word VZERO [w0; w1; w2; w3; w4; w5; w6; w7] 1) with w1.
  change (word VZERO [w0; w1; w2; w3; w4; w5; w6; w7] 2) with w2.
  change (word VZERO [w0; w1; w2; w3; w4; w5; w6; w7] 3) with w3.
  change (word VZERO [w0; w1; w2; w3; w4; w5; w6; w7] 4) with w4.
  change (word VZERO [w0; w1; w2; w3; w4; w5; w6; w7] 5) with w5.
  change (word VZERO [w0; w1; w2; w3; w4; w5; w6; w7] 6) with w6.
  change (word VZERO [w0; w1; w2; w3; w4; w5; w6; w7] 7) with w7.
  change (@VAND Z _ w0 (VSET164 0xFFFFFFF8)) with (Z.land w0 0xFFFFFFF8).
  change (@VOR Z _ (VAND w7 (VSET164 0x7FFFFFFF)) (VSET164 0x40000000))
    with (Z.lor (Z.land w7 0x7FFFFFFF) 0x40000000).
  rewrite land_clear3, lor_set30 by assumption.
  unfold two32 in *.
  assert (B0 : 0 <= w0 mod 8 < 8) by (apply Z.mod_pos_bound; lia).
  assert (B7 : 0 <= w7 mod 2 ^ 30 < 2 ^ 30) by (apply Z.mod_pos_bound; lia).
  assert (M0 : w0 mod 8 <= w0) by (apply Z.mod_le; lia).
  split.
  - split; [split; [reflexivity|]|split].
    + repeat (apply Forall_cons; [cbv beta; unfold two32; lia|]). apply Forall_nil.
    + change (word 0 _ 0) with (w0 - w0 mod 8).
      pose proof (Z.div_mod w0 8 ltac:(lia)).
      replace (w0 - w0 mod 8) with (w0 / 8 * 8) by lia. apply Z.mod_mul. lia.
    + change (word 0 _ 7) with (2 ^ 30 + w7 mod 2 ^ 30). lia.
  - set (m0 := w0 mod 8) in *. set (m7 := w7 mod 2 ^ 30) in *.
    pose proof (Z.div_mod w0 8 ltac:(lia)) as D0. fold m0 in D0.
    pose proof (Z.div_mod w7 (2 ^ 30) ltac:(lia)) as D7. fold m7 in D7.
    assert (Q0 : 0 <= w0 / 8 < 2 ^ 29)
      by (split; [apply Z.div_pos; lia | apply Z.div_lt_upper_bound; lia]).
    assert (Q7 : 0 <= w7 / 2 ^ 30 < 4)
      by (split; [apply Z.div_pos; lia | apply Z.div_lt_upper_bound; lia]).
    set (q0 := w0 / 8) in *. set (q7 := w7 / 2 ^ 30) in *.
    clearbody m0 m7 q0 q7.
    set (low := q0 + 2 ^ 29 * (w1 + 2 ^ 32 * (w2 + 2 ^ 32 * (w3 + 2 ^ 32 * (w4 + 2 ^ 32 *
                  (w5 + 2 ^ 32 * (w6 + 2 ^ 32 * m7))))))).
    assert (L : 0 <= low < 2 ^ 251) by (subst low; lia).
    assert (E1 : scalar_val [w0; w1; w2; w3; w4; w5; w6; w7] / 8 = low + 2 ^ 251 * q7).
    { symmetry. apply (Z.div_unique _ 8 _ m0); [lia|].
      unfold scalar_val, two32; cbn [fold_right]. subst low. rewrite D0, D7. ring. }
    assert (E2 : (low + 2 ^ 251 * q7) mod 2 ^ 251 = low)
      by (rewrite (Z.mul_comm (2 ^ 251) q7), Z.mod_add by lia; apply Z.mod_small; lia).
    rewrite E1, E2.
    unfold scalar_val, two32; cbn [fold_right]. subst low. rewrite D0. ring.
Qed.

(** X12: Pruning is the clamping of X25519: for a scalar of eight 32-bit words the
    pruned scalar has the low three bits and bit 255 clear and bit 254 set, and
    its value is 2^254 + 8 ((k / 8) mod 2^251). *)
Theorem prune_is_clamp (k : list m256i) (j : lane_id) :
  scalar_words (map (lane j) k) ->
  clamped (map (lane j) (prune k)) /\
  scalar_val (map (lane j) (prune k)) =
  2 ^ 254 + 8 * ((scalar_val (map (lane j) k) / 8) mod 2 ^ 251).
Proof. intros Hk. rewrite lane_prune. now apply prune_lane. Qed.

Lemma sk_one_words : scalar_words (map (lane L0) sk_one).
Proof.
  split; [reflexivity|].
  repeat (apply Forall_cons; [vm_compute; split; congruence|]). apply Forall_nil.
Qed.

Lemma prune_is_clamp_witness : clamped (map (lane L0) (prune sk_one)).
Proof. exact (proj1 (prune_is_clamp sk_one L0 sk_one_words)). Defined.

(** X13: The digits the fixed-base multiplication passes to the table query: for a
    scalar of eight 32-bit words, the 64 digits of the pruned scalar are 8-bit
    values whose signed reading lies in [-8, 8], so that their magnitude
    selects the neutral element or one of the eight table entries, and they
    represent the pruned scalar in base 16. *)
Theorem fixbase_digits (k : list m256i) (j : lane_id) :
  scalar_words (map (lane j) k) ->
  let e := map (lane j) (ted_conv_scalar2nibble_avx2 (prune k)) in
  length e = 64%nat /\
  (forall i, 0 <= i < 64 -> 0 <= word 0 e i < 256 /\ -8 <= sgn8 (word 0 e i) <= 8) /\
  digits_val e = 2 ^ 254 + 8 * ((scalar_val (map (lane j) k) / 8) mod 2 ^ 251).
Proof.
  intros Hk. cbv zeta. rewrite lane_nibble, lane_prune.
  destruct (prune_lane _ Hk) as [(Hw & _ & H7) Hv].
  destruct (nibble_lane _ Hw) as (d1 & c & E & Hl & Hd & Hc & Hdv).
  rewrite Hdv, Hv. split; [rewrite E, length_app, Hl; reflexivity|].
  split; [|reflexivity].
  intros i Hi. rewrite E.
  destruct (Z.ltb_spec i 63) as [L | L].
  - unfold word. rewrite app_nth1 by lia.
    rewrite Forall_forall in Hd.
    destruct (Hd (nth (Z.to_nat i) d1 0)) as [B S]; [apply nth_In; lia|]. lia.
  - assert (i = 63) by lia. subst i.
    pose proof (word_app_here 0 d1
                  (Z.land (Z.shiftr (word 0 (prune (map (lane j) k)) 7) 28) 15 + c) []) as Ew.
    rewrite Hl in Ew. change (Z.of_nat 63) with 63 in Ew. rewrite Ew.
    change (Z.land (Z.shiftr (word 0 (prune (map (lane j) k)) 7) 28) 15)
      with (Z.land (Z.shiftr (word 0 (prune (map (lane j) k)) 7) 28) (Z.ones 4)).
    rewrite Z.land_ones, Z.shiftr_div_pow2 by lia.
    set (t := (word 0 (prune (map (lane j) k)) 7 / 2 ^ 28) mod 2 ^ 4).
    assert (Ht : 4 <= t <= 7) by (subst t; Z.to_euclidean_division_equations; lia).
    unfold sgn8. destruct (Z.ltb_spec (t + c) 128); lia.
Qed.

Lemma fixbase_digits_witness :
  length (map (lane L0) (ted_conv_scalar2nibble_avx2 (prune sk_one))) = 64%nat.
Proof. exact (proj1 (fixbase_digits sk_one L0 sk_one_words)). Defined.

(** * The table query selects one entry *)

Lemma lxor_below a b n :
  0 <= n -> 0 <= a < 2 ^ n -> 0 <= b < 2 ^ n -> 0 <= Z.lxor a b < 2 ^ n.
Proof.
  intros Hn Ha Hb.
  assert (E : Z.lxor a b = Z.land (Z.lxor a b) (Z.ones n)).
  { apply Z.bits_inj'; intros m Hm. rewrite Z.land_spec, Z.lxor_spec.
    destruct (Z.ltb_spec m n) as [L | L].
    - rewrite Z.ones_spec_low by lia. now rewrite andb_true_r.
    - rewrite (testbit_above a n m), (testbit_above b n m) by lia. reflexivity. }
  rewrite E, Z.land_ones by lia. apply Z.mod_pos_bound. lia.
Qed.

(** One mask of the query: all ones when the magnitude equals the index. *)
Lemma mask_word a i :
  0 <= a < 256 -> 0 <= i < 256 ->
  VSHUF32 (VSHR (VSUB (VXOR a i) (VSET164 1)) 32) 0xA0 = row_mask a i.
Proof.
  intros Ha Hi. unfold row_mask. cbn [VSHUF32 VSHR VSUB VXOR VSET164 Lane64].
  destruct (Z.eqb_spec a i) as [-> | Hne].
  - rewrite Z.lxor_nilpotent. reflexivity.
  - pose proof (lxor_below a i 8 ltac:(lia) Ha Hi) as Hx.
    assert (Hz : Z.lxor a i <> 0) by (rewrite Z.lxor_eq_0_iff; exact Hne).
    change (wrap64 1) with 1. change (2 ^ 8) with 256 in Hx.
    rewrite wrap64_small by (unfold two64; lia).
    rewrite Z.shiftr_div_pow2, Z.div_small by lia. reflexivity.
Qed.

Lemma word_cons_0 {A} (d x : A) l : word d (x :: l) 0 = x.
Proof. reflexivity. Qed.

Lemma word_cons_pos {A} (d x : A) l t : 0 < t -> word d (x :: l) t = word d l (t - 1).
Proof.
  intros Ht. unfold word. replace (Z.to_nat t) with (S (Z.to_nat (t - 1))) by lia. reflexivity.
Qed.

Lemma create_masks_word n : forall a idx t,
  0 <= a < 256 -> 0 <= idx -> idx + Z.of_nat n <= 256 -> 0 <= t < Z.of_nat n ->
  word VZERO (create_masks n a idx) t = row_mask a (idx + t).
Proof.
  induction n as [|n IH]; intros a idx t Ha Hidx Hn Ht; [lia|].
  cbn [create_masks].
  destruct (Z.eq_dec t 0) as [-> | Hne].
  - rewrite word_cons_0, Z.add_0_r. apply mask_word; lia.
  - rewrite word_cons_pos by lia.
    assert (E : @VADD Z _ idx (VSET164 1) = idx + 1).
    { cbn [VADD VSET164 Lane64]. change (wrap64 1) with 1.
      apply wrap64_small. unfold two64. lia. }
    rewrite E, IH by lia. f_equal. lia.
Qed.

Lemma land_ones64 t : wf64 t -> Z.land 0xFFFFFFFFFFFFFFFF t = t.
Proof. intros Ht. rewrite Z.land_comm. now apply land_wf64. Qed.

Lemma row_mask_land a i t :
  wf64 t -> Z.land (row_mask a i) t = if a =? i then t else 0.
Proof.
  intros Ht. unfold row_mask. destruct (a =? i); [now apply land_ones64 | apply Z.land_0_l].
Qed.

Section Query.
Variable base : Z -> Z -> LutPoint.
Hypothesis Hbase : table_wf base.
Variables (mask : list Z) (a pos i : Z).
Hypothesis Ha : 0 <= a <= 8.
Hypothesis Hmask : forall t, 0 <= t < 9 -> word VZERO mask t = row_mask a t.

(** The rows j, ..., j + n - 1: the entry of row a - 1 is taken if it is
    among them. *)
Lemma query_rows_select n : forall j x y z,
  0 <= j -> j + Z.of_nat n <= 8 ->
  query_rows base mask pos i n j (x, y, z) =
  if (j <? a) && (a <=? j + Z.of_nat n)
  then (Z.lxor x (word 0 (lut_x (base pos (a - 1))) i),
        Z.lxor y (word 0 (lut_y (base pos (a - 1))) i),
        Z.lxor z (word 0 (lut_z (base pos (a - 1))) i))
  else (x, y, z).
Proof.
  induction n as [|n IH]; intros j x y z Hj Hn.
  - cbn [query_rows]. destruct (Z.ltb_spec j a), (Z.leb_spec a (j + Z.of_nat 0));
      try reflexivity; lia.
  - cbn [query_rows]. cbv zeta.
    destruct (Hbase pos j i) as (Wx & Wy & Wz).
    unfold VBROAD64. cbn [VAND VXOR VSET164 Lane64].
    rewrite !wrap64_small by assumption.
    rewrite Hmask by lia. rewrite !row_mask_land by assumption.
    rewrite IH by lia.
    destruct (Z.eqb_spec a (j + 1)) as [E | E].
    + replace (a - 1) with j by lia.
      destruct (Z.ltb_spec (j + 1) a); [lia|]. cbn [andb].
      destruct (Z.ltb_spec j a); [|lia].
      destruct (Z.leb_spec a (j + Z.of_nat (S n))); [|lia]. reflexivity.
    + rewrite !Z.lxor_0_r.
      destruct (Z.ltb_spec (j + 1) a), (Z.ltb_spec j a),
        (Z.leb_spec a (j + 1 + Z.of_nat n)), (Z.leb_spec a (j + Z.of_nat (S n)));
        try reflexivity; lia.
Qed.

Lemma one_half_wf t : wf64 (word 0 one_half t).
Proof.
  unfold word. destruct (Z.to_nat t) as [|[|[|[|[|n]]]]]; vm_compute; split; congruence.
Qed.

Lemma query_chunk_select :
  query_chunk base mask pos i =
  (word 0 (lut_x (select_entry base pos a)) i,
   word 0 (lut_y (select_entry base pos a)) i,
   word 0 (lut_z (select_entry base pos a)) i).
Proof.
  unfold query_chunk. cbv zeta.
  rewrite (query_rows_select 8 0) by (cbn; lia).
  cbn [VAND VXOR VSET164 Lane64]. unfold VZERO. cbn [VSET164 Lane64].
  change (wrap64 0) with 0.
  pose proof (Hmask 0 ltac:(lia)) as M0. unfold VZERO in M0. cbn [VSET164 Lane64] in M0.
  change (wrap64 0) with 0 in M0. rewrite M0.
  rewrite (wrap64_small _ (one_half_wf i)), (row_mask_land _ _ _ (one_half_wf i)).
  rewrite !Z.lxor_0_l. unfold select_entry.
  destruct (Z.eqb_spec a 0) as [-> | Hne].
  - cbn [Z.ltb Z.compare andb]. unfold lut_neutral; cbn [lut_x lut_y lut_z].
    f_equal. unfold word. destruct (Z.to_nat i) as [|[|[|[|[|n]]]]]; reflexivity.
  - destruct (Z.ltb_spec 0 a); [|lia].
    destruct (Z.leb_spec a (0 + Z.of_nat 8)); [|cbn in *; lia].
    cbn [andb]. rewrite !Z.lxor_0_l. reflexivity.
Qed.

End Query.

Lemma abs8_lane_byte b : 0 <= b < 256 -> abs8_lane b = abs8 b.
Proof.
  intros Hb. unfold abs8_lane. cbn [fold_right]. unfold byte_of.
  assert (Z : forall k, 0 < k -> Z.shiftr b (8 * k) = 0).
  { intros k Hk. rewrite Z.shiftr_div_pow2 by lia. apply Z.div_small.
    split; [lia|]. apply Z.lt_le_trans with (2 ^ 8); [change (2 ^ 8) with 256; lia|].
    apply Z.pow_le_mono_r; lia. }
  rewrite !Z by lia. change (8 * 0) with 0. rewrite Z.shiftr_0_r.
  change 255 with (Z.ones 8). rewrite Z.land_0_l, Z.land_ones by lia.
  change (2 ^ 8) with 256. rewrite (Z.mod_small b 256) by lia.
  change (abs8 0) with 0. rewrite !Z.shiftl_0_l, Z.shiftl_0_r. lia.
Qed.

Lemma abs8_sgn8 b : 0 <= b < 256 -> abs8 b = Z.abs (sgn8 b).
Proof. intros Hb. unfold abs8, sgn8. destruct (Z.ltb_spec b 128); lia. Qed.

Lemma sign_bit b : 0 <= b < 256 -> Z.shiftr b 7 = if 128 <=? b then 1 else 0.
Proof.
  intros Hb. rewrite Z.shiftr_div_pow2 by lia. change (2 ^ 7) with 128.
  destruct (Z.leb_spec 128 b).
  - symmetry. apply (Z.div_unique b 128 1 (b - 128)); lia.
  - apply Z.div_small. lia.
Qed.

Lemma sign_swap_neg x y z :
  wf64 x -> wf64 y -> sign_swap (@VSUB Z _ VZERO 1) (x, y, z) = (y, x, z).
Proof.
  intros Hx Hy. unfold sign_swap. cbn [VAND VXOR Lane64].
  change (@VSUB Z _ VZERO 1) with 0xFFFFFFFFFFFFFFFF.
  rewrite (cswap_word_take x y Hx Hy), (cswap_word_give x y Hx Hy). reflexivity.
Qed.

Lemma sign_swap_pos c : sign_swap (@VSUB Z _ VZERO 0) c = c.
Proof.
  destruct c as [[x y] z]. unfold sign_swap. cbn [VAND VXOR Lane64].
  change (@VSUB Z _ VZERO 0) with 0.
  now rewrite Z.land_0_r, !Z.lxor_0_r.
Qed.

Lemma land_mask_wf x : wf64 (Z.land x MASK29).
Proof.
  pose proof (land_le_r x MASK29 ltac:(unfold MASK29; lia)) as H.
  unfold wf64, two64, MASK29 in *. lia.
Qed.

Lemma lut_conv_wf (l : list Z) : fe_all wf64 (lut_conv_coor2mpi29_avx2 l).
Proof.
  unfold lut_conv_coor2mpi29_avx2, fe_all. cbv zeta. cbn [f0 f1 f2 f3 f4 f5 f6 f7 f8].
  cbn [VAND VSET164 Lane64]. change (wrap64 MASK29) with MASK29.
  repeat split; apply land_mask_wf.
Qed.

Lemma wrap64_wf x : wf64 (wrap64 x).
Proof. rewrite wrap64_mod. unfold wf64. apply Z.mod_pos_bound. reflexivity. Qed.

Lemma sub_wf (a b : fe Z) : fe_all wf64 (mpi29_gfp_sub_avx2 a b).
Proof.
  unfold mpi29_gfp_sub_avx2, fe_all. cbv zeta. cbn [f0 f1 f2 f3 f4 f5 f6 f7 f8].
  cbn [VADD Lane64]. repeat split; apply wrap64_wf.
Qed.

Lemma copy_id {T} `{Vec T} (a : fe T) : mpi29_copy_avx2 a = a.
Proof. destruct a; reflexivity. Qed.

(** The query on one lane. *)
Lemma query_table_lane (base : Z -> Z -> LutPoint) (pos b : Z) :
  table_wf base -> 0 <= b < 256 -> -8 <= sgn8 b <= 8 ->
  ted_point_query_table_avx2 base pos b = query_result base pos b.
Proof.
  intros Hbase Hb Hs.
  unfold ted_point_query_table_avx2, query_result. cbv zeta.
  change (@VABS8 Z _ b) with (abs8_lane b).
  rewrite abs8_lane_byte, abs8_sgn8 by assumption.
  set (a := Z.abs (sgn8 b)).
  assert (Ha : 0 <= a <= 8) by (subst a; lia).
  assert (Hm : forall t, 0 <= t < 9 ->
            word VZERO (create_masks 9 a VZERO) t = row_mask a t).
  { intros t Ht. change (@VZERO Z _) with 0 at 2.
    rewrite create_masks_word by (cbn; lia). reflexivity. }
  cbn [map].
  rewrite !(query_chunk_select base Hbase _ a pos _ Ha Hm).
  set (ent := select_entry base pos a).
  assert (We : lut_wf ent).
  { subst ent. unfold select_entry. destruct (a =? 0); [|apply Hbase].
    intros t. unfold lut_neutral; cbn [lut_x lut_y lut_z].
    split; [apply one_half_wf|]. split; [apply one_half_wf|].
    unfold word. destruct (Z.to_nat t) as [|[|[|[|[|n]]]]]; vm_compute; split; congruence. }
  change (@VSHR Z _ b 7) with (Z.shiftr b 7). rewrite sign_bit by assumption.
  destruct (128 <=? b).
  - change (if true then 1 else 0) with 1.
    rewrite !sign_swap_neg by apply We. cbn [fst snd].
    rewrite copy_id.
    rewrite cswap_lane_1
      by (lazymatch goal with
          | |- fe_all wf64 (mpi29_gfp_sub_avx2 _ _) => apply sub_wf
          | _ => apply lut_conv_wf
          end).
    reflexivity.
  - change (if false then 1 else 0) with 0.
    rewrite !sign_swap_pos. cbn [fst snd]. rewrite copy_id, cswap_lane_0. reflexivity.
Qed.

(** X14: The table query selects by magnitude and sign: for a digit of 8 bits with
    signed value in [-8, 8], in each lane the result is the neutral element
    (digit 0) or row |digit| - 1 of column pos, with x and y exchanged and z
    negated (by the non-reducing subtraction from 0) for a negative digit. *)
Theorem query_table_selects (base : Z -> Z -> LutPoint) (pos : Z) (b : m256i)
  (j : lane_id) :
  table_wf base -> 0 <= lane j b < 256 -> -8 <= sgn8 (lane j b) <= 8 ->
  pro_lane j (ted_point_query_table_avx2 base pos b) = query_result base pos (lane j b).
Proof.
  intros Hbase Hb Hs. rewrite lane_query_table. now apply query_table_lane.
Qed.

Lemma base_empty_wf : table_wf base_empty.
Proof.
  intros pos j i. unfold base_empty; cbn [lut_x lut_y lut_z].
  unfold word. destruct (Z.to_nat i); vm_compute; repeat split; congruence.
Qed.

Lemma query_table_selects_witness :
  pro_lane L1 (ted_point_query_table_avx2 base_empty 3 (mk256 0 0xF8 1 8)) =
  query_result base_empty 3 0xF8.
Proof.
  apply (query_table_selects base_empty 3 (mk256 0 0xF8 1 8) L1 base_empty_wf);
    vm_compute; split; congruence.
Defined.

(** * Twisted Edwards addition: ranges and formulas *)

Lemma ted_add_ideal_val (p : ExtPoint Z) (q : ProPoint Z) :
  let r := @ted_point_add_avx2 Z Ideal p q in
  let E := tadd_E (val (e_x p)) (val (e_y p)) (val (p_x q)) (val (p_y q)) in
  let H := tadd_H (val (e_x p)) (val (e_y p)) (val (p_x q)) (val (p_y q)) in
  let F := tadd_F (val (e_z p)) (val (e_e p)) (val (e_h p)) (val (p_z q)) in
  let G := tadd_G (val (e_z p)) (val (e_e p)) (val (e_h p)) (val (p_z q)) in
  eqp (val (e_x r)) (E * F) /\ eqp (val (e_y r)) (G * H) /\ eqp (val (e_z r)) (F * G) /\
  eqp (val (e_e r)) E /\ eqp (val (e_h r)) H.
Proof.
  destruct p as [px py pz pe ph], q as [qx qy qz].
  unfold ted_point_add_avx2, tadd_E, tadd_H, tadd_F, tadd_G. cbv zeta.
  cbn [e_x e_y e_z e_e e_h p_x p_y p_z].
  split; [|split; [|split; [|split]]]; eqp_ops; apply eqp_eq; ring.
Qed.

Lemma rel3_point_add px px' ipx py py' ipy pz pz' ipz pe pe' ipe ph ph' iph
  qx qx' iqx qy qy' iqy qz qz' iqz :
  fe_rel3 px px' ipx -> fe_rel3 py py' ipy -> fe_rel3 pz pz' ipz ->
  fe_rel3 pe pe' ipe -> fe_rel3 ph ph' iph ->
  fe_rel3 qx qx' iqx -> fe_rel3 qy qy' iqy -> fe_rel3 qz qz' iqz ->
  let r := @ted_point_add_avx2 Z Lane64 (mkExt px py pz pe ph) (mkPro qx qy qz) in
  let r' := @ted_point_add_avx2 Z Ideal (mkExt px' py' pz' pe' ph') (mkPro qx' qy' qz') in
  let ir := @ted_point_add_avx2 itv Itv (mkExt ipx ipy ipz ipe iph) (mkPro iqx iqy iqz) in
  fe_rel3 (e_x r) (e_x r') (e_x ir) /\ fe_rel3 (e_y r) (e_y r') (e_y ir) /\
  fe_rel3 (e_z r) (e_z r') (e_z ir) /\ fe_rel3 (e_e r) (e_e r') (e_e ir) /\
  fe_rel3 (e_h r) (e_h r') (e_h ir).
Proof.
  intros Hpx Hpy Hpz Hpe Hph Hqx Hqy Hqz r r' ir. subst r r' ir.
  unfold ted_point_add_avx2. cbv zeta. cbn [e_x e_y e_z e_e e_h p_x p_y p_z].
  split; [|split; [|split; [|split]]]; rel3_calls.
Qed.

Lemma ext_ext {T} (p q : ExtPoint T) :
  e_x p = e_x q -> e_y p = e_y q -> e_z p = e_z q -> e_e p = e_e q -> e_h p = e_h q ->
  p = q.
Proof. destruct p, q; cbn; intros; subst; reflexivity. Qed.

Lemma ted_add_lane (p : ExtPoint Z) (q : ProPoint Z) :
  ext_in p -> pro_in wide_itv q ->
  ted_point_add_avx2 p q = @ted_point_add_avx2 Z Ideal p q /\
  ext_in (ted_point_add_avx2 p q).
Proof.
  destruct p as [px py pz pe ph], q as [qx qy qz].
  unfold ext_in, pro_in. cbn [e_x e_y e_z e_e e_h p_x p_y p_z].
  intros (Hpx & Hpy & Hpz & Hpe & Hph) (Hqx & Hqy & Hqz).
  pose proof (rel3_point_add _ _ folded_itv _ _ folded_itv _ _ folded_itv
                _ _ diff_itv _ _ wide_itv _ _ wide_itv _ _ wide_itv _ _ wide_itv
                (fe_in_rel3 _ _ Hpx eq_refl) (fe_in_rel3 _ _ Hpy eq_refl)
                (fe_in_rel3 _ _ Hpz eq_refl) (fe_in_rel3 _ _ Hpe eq_refl)
                (fe_in_rel3 _ _ Hph eq_refl) (fe_in_rel3 _ _ Hqx eq_refl)
                (fe_in_rel3 _ _ Hqy eq_refl) (fe_in_rel3 _ _ Hqz eq_refl)) as R.
  cbv zeta in R. destruct R as (R1 & R2 & R3 & R4 & R5).
  apply settles_elim with (j := folded_itv) in R1; [|vm_compute; reflexivity].
  apply settles_elim with (j := folded_itv) in R2; [|vm_compute; reflexivity].
  apply settles_elim with (j := folded_itv) in R3; [|vm_compute; reflexivity].
  apply settles_elim with (j := diff_itv) in R4; [|vm_compute; reflexivity].
  apply settles_elim with (j := wide_itv) in R5; [|vm_compute; reflexivity].
  destruct R1 as [E1 H1], R2 as [E2 H2], R3 as [E3 H3], R4 as [E4 H4], R5 as [E5 H5].
  split; [apply ext_ext; assumption | auto 8].
Qed.

(** X15: The Edwards addition keeps the ranges of an extended point: x, y, z in
    the folded range, e at most 2^30 + 2^29 + 2^24 and h at most 2^30 + 2^25
    per limb; with a table point whose limbs are at most 2^30 + 2^25 no 64-bit
    word overflows, and the slots hold E F, G H, F G, E and H modulo p. *)
Theorem ted_add_range_and_formulas (p : ExtPoint m256i) (q : ProPoint m256i) :
  ext_lanes_in p -> pro_lanes_in wide_itv q ->
  ext_lanes_in (ted_point_add_avx2 p q) /\
  forall j,
    let r := ext_lane j (ted_point_add_avx2 p q) in
    let E := tadd_E (val (fe_lane j (e_x p))) (val (fe_lane j (e_y p)))
                    (val (fe_lane j (p_x q))) (val (fe_lane j (p_y q))) in
    let H := tadd_H (val (fe_lane j (e_x p))) (val (fe_lane j (e_y p)))
                    (val (fe_lane j (p_x q))) (val (fe_lane j (p_y q))) in
    let F := tadd_F (val (fe_lane j (e_z p))) (val (fe_lane j (e_e p)))
                    (val (fe_lane j (e_h p))) (val (fe_lane j (p_z q))) in
    let G := tadd_G (val (fe_lane j (e_z p))) (val (fe_lane j (e_e p)))
                    (val (fe_lane j (e_h p))) (val (fe_lane j (p_z q))) in
    eqp (val (e_x r)) (E * F) /\ eqp (val (e_y r)) (G * H) /\ eqp (val (e_z r)) (F * G) /\
    eqp (val (e_e r)) E /\ eqp (val (e_h r)) H.
Proof.
  intros Hp Hq.
  assert (L : forall j,
    ext_lane j (ted_point_add_avx2 p q) =
      @ted_point_add_avx2 Z Ideal (ext_lane j p) (pro_lane j q) /\
    ext_in (ext_lane j (ted_point_add_avx2 p q))).
  { intros j. rewrite lane_point_add. apply ted_add_lane; [apply Hp | apply Hq]. }
  split; [intros j; exact (proj2 (L j))|].
  intros j. cbv zeta. rewrite (proj1 (L j)).
  exact (ted_add_ideal_val (ext_lane j p) (pro_lane j q)).
Qed.

Lemma ext_max_in : ext_lanes_in ext_max.
Proof.
  intros j. unfold ext_in, ext_max, ext_lane; cbn [e_x e_y e_z e_e e_h].
  split; [apply fe_max_folded|]. split; [apply fe_max_folded|].
  split; [apply fe_max_folded|].
  split; (eapply fe_in_sub; [apply fe_max_reduced | reflexivity]).
Qed.

Lemma pt_max_wide : pro_lanes_in wide_itv pt_max.
Proof.
  intros j. unfold pro_in, pt_max, pro_lane; cbn [p_x p_y p_z].
  split; [|split]; apply fe_max_wide.
Qed.

Lemma ted_add_range_and_formulas_witness :
  ext_lanes_in (ted_point_add_avx2 ext_max pt_max).
Proof.
  exact (proj1 (ted_add_range_and_formulas ext_max pt_max ext_max_in pt_max_wide)).
Defined.

(** * Conversions between 32-bit words and 29-bit limbs *)

Lemma lor_disjoint x y t :
  0 <= t -> 0 <= x < 2 ^ t -> 0 <= y -> y mod 2 ^ t = 0 -> Z.lor x y = x + y.
Proof.
  intros Ht Hx Hy Hm.
  assert (N : Z.land x y = 0).
  { apply Z.bits_inj'; intros n Hn. rewrite Z.land_spec, Z.bits_0.
    destruct (Z.ltb_spec n t) as [L | L].
    - assert (Z.testbit y n = false); [|now rewrite H, andb_false_r].
      rewrite <- (Z.mod_pow2_bits_low y t n) by lia. rewrite Hm. apply Z.bits_0.
    - rewrite (testbit_above x t n) by lia. reflexivity. }
  now rewrite (Z.add_nocarry_lxor _ _ N), (Z.lxor_lor _ _ N).
Qed.

Lemma u32_mod x : u32 x = x mod 2 ^ 32.
Proof. unfold u32. apply lo32_mod. Qed.

(** The shapes the two loops produce, with the shifts as numerals. *)
Ltac shifts_to_div :=
  rewrite ?u32_mod, ?Z.shiftr_div_pow2, ?Z.shiftl_mul_pow2 by lia.

Ltac solve_pieces :=
  repeat match goal with
  | |- context [Z.lor ?x ?y] =>
      rewrite (lor_disjoint x y) by
        (first [ lia | Z.to_euclidean_division_equations; lia ])
  end.

Ltac conv_eval :=
  cbv beta iota zeta delta
    [mpi29_conv_32to29 conv_32to29_loop mpi29_conv_29to32 conv_29to32_loop
     word nth Z.to_nat Pos.to_nat Pos.iter_op Nat.add Z.ltb Z.leb Z.eqb Z.compare
     Pos.compare Pos.compare_cont Z.sub Z.add Z.opp Z.pos_sub Pos.add Pos.succ
     Pos.pred_double Pos.add_carry Pos.double_pred_mask Pos.sub_mask Pos.pred
     Z.succ_double Z.pred_double Z.double Pos.eqb andb length Z.of_nat
     Pos.of_succ_nat app repeat Nat.sub Init.Nat.sub Init.Nat.add].

(** A limb taken from two neighbouring 32-bit words. *)
Ltac limb_eq lo hi s t k :=
  let E := fresh "E" in
  assert (E : Z.land (Z.lor (Z.shiftr lo s) (u32 (Z.shiftl hi t))) MASK29 =
              lo / 2 ^ s + 2 ^ t * (hi mod 2 ^ k));
  [ shifts_to_div;
    rewrite (lor_disjoint _ _ t) by (try lia; Z.to_euclidean_division_equations; lia);
    rewrite land_mask29; Z.to_euclidean_division_equations; lia
  | rewrite E; clear E ].

(** A 32-bit word taken from two neighbouring 29-bit limbs. *)
Ltac word_eq lo hi s t k :=
  let E := fresh "E" in
  assert (E : Z.lor (Z.shiftr lo s) (u32 (Z.shiftl hi t)) =
              lo / 2 ^ s + 2 ^ t * (hi mod 2 ^ k));
  [ shifts_to_div;
    rewrite (lor_disjoint _ _ t) by (try lia; Z.to_euclidean_division_equations; lia);
    Z.to_euclidean_division_equations; lia
  | rewrite E; clear E ].

Lemma conv_32to29_pieces a0 a1 a2 a3 a4 a5 a6 a7 :
  0 <= a0 < 2 ^ 32 -> 0 <= a1 < 2 ^ 32 -> 0 <= a2 < 2 ^ 32 -> 0 <= a3 < 2 ^ 32 ->
  0 <= a4 < 2 ^ 32 -> 0 <= a5 < 2 ^ 32 -> 0 <= a6 < 2 ^ 32 -> 0 <= a7 < 2 ^ 32 ->
  mpi29_conv_32to29 [a0; a1; a2; a3; a4; a5; a6; a7] 9 8 =
  [a0 mod 2 ^ 29;
   a0 / 2 ^ 29 + 2 ^ 3 * (a1 mod 2 ^ 26);
   a1 / 2 ^ 26 + 2 ^ 6 * (a2 mod 2 ^ 23);
   a2 / 2 ^ 23 + 2 ^ 9 * (a3 mod 2 ^ 20);
   a3 / 2 ^ 20 + 2 ^ 12 * (a4 mod 2 ^ 17);
   a4 / 2 ^ 17 + 2 ^ 15 * (a5 mod 2 ^ 14);
   a5 / 2 ^ 14 + 2 ^ 18 * (a6 mod 2 ^ 11);
   a6 / 2 ^ 11 + 2 ^ 21 * (a7 mod 2 ^ 8);
   a7 / 2 ^ 8].
Proof.
  intros H0 H1 H2 H3 H4 H5 H6 H7. conv_eval.
  limb_eq a0 a1 29 3 26. limb_eq a1 a2 26 6 23. limb_eq a2 a3 23 9 20.
  limb_eq a3 a4 20 12 17. limb_eq a4 a5 17 15 14. limb_eq a5 a6 14 18 11.
  limb_eq a6 a7 11 21 8.
  assert (E0 : Z.land (Z.lor (Z.shiftr 0 32) (u32 (Z.shiftl a0 0))) MASK29 = a0 mod 2 ^ 29).
  { rewrite Z.shiftr_0_l, Z.lor_0_l, Z.shiftl_0_r, u32_mod, land_mask29.
    rewrite (Z.mod_small a0 (2 ^ 32)) by lia. reflexivity. }
  assert (E8 : Z.land (Z.shiftr a7 8) MASK29 = a7 / 2 ^ 8).
  { rewrite land_mask29, Z.shiftr_div_pow2 by lia. apply Z.mod_small.
    Z.to_euclidean_division_equations; lia. }
  rewrite E0, E8. reflexivity.
Qed.

Lemma conv_29to32_pieces r0 r1 r2 r3 r4 r5 r6 r7 r8 :
  0 <= r0 < 2 ^ 29 -> 0 <= r1 < 2 ^ 29 -> 0 <= r2 < 2 ^ 29 -> 0 <= r3 < 2 ^ 29 ->
  0 <= r4 < 2 ^ 29 -> 0 <= r5 < 2 ^ 29 -> 0 <= r6 < 2 ^ 29 -> 0 <= r7 < 2 ^ 29 ->
  0 <= r8 < 2 ^ 29 ->
  mpi29_conv_29to32 [r0; r1; r2; r3; r4; r5; r6; r7; r8] 9 9 =
  [r0 + 2 ^ 29 * (r1 mod 2 ^ 3);
   r1 / 2 ^ 3 + 2 ^ 26 * (r2 mod 2 ^ 6);
   r2 / 2 ^ 6 + 2 ^ 23 * (r3 mod 2 ^ 9);
   r3 / 2 ^ 9 + 2 ^ 20 * (r4 mod 2 ^ 12);
   r4 / 2 ^ 12 + 2 ^ 17 * (r5 mod 2 ^ 15);
   r5 / 2 ^ 15 + 2 ^ 14 * (r6 mod 2 ^ 18);
   r6 / 2 ^ 18 + 2 ^ 11 * (r7 mod 2 ^ 21);
   r7 / 2 ^ 21 + 2 ^ 8 * (r8 mod 2 ^ 24);
   r8 / 2 ^ 24].
Proof.
  intros H0 H1 H2 H3 H4 H5 H6 H7 H8. conv_eval.
  word_eq r1 r2 3 26 6. word_eq r2 r3 6 23 9. word_eq r3 r4 9 20 12.
  word_eq r4 r5 12 17 15. word_eq r5 r6 15 14 18. word_eq r6 r7 18 11 21.
  word_eq r7 r8 21 8 24.
  assert (E0 : Z.lor (Z.lor 0 (u32 (Z.shiftl r0 0))) (u32 (Z.shiftl r1 29)) =
               r0 + 2 ^ 29 * (r1 mod 2 ^ 3)).
  { rewrite Z.lor_0_l, Z.shiftl_0_r, (u32_mod r0), (Z.mod_small r0 (2 ^ 32)) by lia.
    shifts_to_div.
    rewrite (lor_disjoint _ _ 29) by (try lia; Z.to_euclidean_division_equations; lia).
    Z.to_euclidean_division_equations; lia. }
  rewrite E0, Z.shiftr_div_pow2 by lia. reflexivity.
Qed.

Ltac eight_words a Hl Hw :=
  destruct a as [|?a0 [|?a1 [|?a2 [|?a3 [|?a4 [|?a5 [|?a6 [|?a7 [|?a8 ?t]]]]]]]]];
    try discriminate Hl;
  repeat match goal with H : Forall _ (_ :: _) |- _ => inversion H; clear H; subst end;
  unfold two32 in *.

Lemma fe_of_list_9 {A} (d x0 x1 x2 x3 x4 x5 x6 x7 x8 : A) :
  fe_of_list d [x0; x1; x2; x3; x4; x5; x6; x7; x8] = mkfe x0 x1 x2 x3 x4 x5 x6 x7 x8.
Proof. reflexivity. Qed.

(** X16: From eight 32-bit words to nine 29-bit limbs: the limbs are reduced and
    carry the same integer. *)
Theorem conv_32to29_value (a : list Z) :
  scalar_words a ->
  length (mpi29_conv_32to29 a 9 8) = 9%nat /\
  fe_in reduced_itv (fe_of_list 0 (mpi29_conv_32to29 a 9 8)) /\
  val (fe_of_list 0 (mpi29_conv_32to29 a 9 8)) = scalar_val a.
Proof.
  intros [Hl Hw]. eight_words a Hl Hw.
  rewrite conv_32to29_pieces by lia.
  split; [reflexivity|].
  rewrite fe_of_list_9.
  unfold fe_in, reduced_itv, fe_const, upto, itv_in, val, scalar_val, MASK29.
  cbn [f0 f1 f2 f3 f4 f5 f6 f7 f8 fold_right].
  unfold two32.
  repeat split; Z.to_euclidean_division_equations; lia.
Qed.

Lemma rfc_u_words : scalar_words (words_of_bytes rfc_u).
Proof.
  split; [reflexivity|].
  repeat (apply Forall_cons; [vm_compute; split; congruence|]). apply Forall_nil.
Qed.

Lemma conv_32to29_value_witness :
  val (fe_of_list 0 (mpi29_conv_32to29 (words_of_bytes rfc_u) 9 8)) =
  scalar_val (words_of_bytes rfc_u).
Proof. exact (proj2 (proj2 (conv_32to29_value (words_of_bytes rfc_u) rfc_u_words))). Defined.

(** X17: From nine reduced limbs to nine 32-bit words: the words carry the same
    integer (the last word holds bits 256 to 260). *)
Theorem conv_29to32_value (r : fe Z) :
  fe_in reduced_itv r ->
  length (mpi29_conv_29to32 (fe_list r) 9 9) = 9%nat /\
  Forall (fun w => 0 <= w < two32) (mpi29_conv_29to32 (fe_list r) 9 9) /\
  scalar_val (mpi29_conv_29to32 (fe_list r) 9 9) = val r.
Proof.
  destruct r as [r0 r1 r2 r3 r4 r5 r6 r7 r8].
  unfold fe_in, reduced_itv, fe_const, upto, itv_in, MASK29, fe_list.
  cbn [f0 f1 f2 f3 f4 f5 f6 f7 f8].
  intros (H0 & H1 & H2 & H3 & H4 & H5 & H6 & H7 & H8).
  rewrite conv_29to32_pieces by lia.
  split; [reflexivity|]. split.
  - unfold two32.
    repeat (apply Forall_cons; [cbv beta; Z.to_euclidean_division_equations; lia|]).
    apply Forall_nil.
  - unfold scalar_val, val, two32. cbn [f0 f1 f2 f3 f4 f5 f6 f7 f8 fold_right].
    Z.to_euclidean_division_equations; lia.
Qed.

Lemma conv_29to32_value_witness :
  scalar_val (mpi29_conv_29to32 (fe_list (fe_lane L0 fe_max)) 9 9) = val (fe_lane L0 fe_max).
Proof.
  exact (proj2 (proj2 (conv_29to32_value (fe_lane L0 fe_max) (fe_max_reduced L0)))).
Defined.

(** X18: Round trip: converting eight 32-bit words to limbs and back returns the
    words, followed by a ninth word 0. *)
Theorem conv_round_trip (a : list Z) :
  scalar_words a ->
  mpi29_conv_29to32 (mpi29_conv_32to29 a 9 8) 9 9 = a ++ [0].
Proof.
  intros [Hl Hw]. eight_words a Hl Hw.
  rewrite conv_32to29_pieces by lia.
  rewrite conv_29to32_pieces by (Z.to_euclidean_division_equations; lia).
  cbn [app].
  repeat (f_equal; [Z.to_euclidean_division_equations; lia|]).
  f_equal. Z.to_euclidean_division_equations; lia.
Qed.

Lemma conv_round_trip_witness :
  mpi29_conv_29to32 (mpi29_conv_32to29 (words_of_bytes rfc_u) 9 8) 9 9 =
  words_of_bytes rfc_u ++ [0].
Proof. exact (conv_round_trip (words_of_bytes rfc_u) rfc_u_words). Defined.

(** * Conditional swap with a flag per lane *)

(** X19: With a flag that is 0 or 1 in each lane, the swap is decided lane by
    lane: lane j of the two elements is exchanged exactly when lane j of the
    flag is 1. *)
Theorem cswap_selects_per_lane (r a : fe m256i) (b : m256i) (j : lane_id) :
  fe_all wf256 r -> fe_all wf256 a -> lane j b = 0 \/ lane j b = 1 ->
  fe_lane j (fst (mpi29_cswap_avx2 r a b)) =
    (if lane j b =? 1 then fe_lane j a else fe_lane j r) /\
  fe_lane j (snd (mpi29_cswap_avx2 r a b)) =
    (if lane j b =? 1 then fe_lane j r else fe_lane j a).
Proof.
  intros Hr Ha Hb. pose proof (cswap_lane_flag j r a b Hr Ha Hb) as E.
  pose proof (f_equal fst E) as E1. pose proof (f_equal snd E) as E2.
  unfold pair_map in E1, E2.
  destruct (lane j b =? 1); cbn [fst snd] in E1, E2; split; assumption.
Qed.

Lemma cswap_selects_per_lane_witness :
  fe_lane L1 (fst (mpi29_cswap_avx2 fe_ones fe_twos (mk256 0 1 1 0))) = fe_lane L1 fe_twos /\
  fe_lane L0 (fst (mpi29_cswap_avx2 fe_ones fe_twos (mk256 0 1 1 0))) = fe_lane L0 fe_ones.
Proof.
  split.
  - exact (proj1 (cswap_selects_per_lane fe_ones fe_twos (mk256 0 1 1 0) L1
                    fe_ones_wf fe_twos_wf (or_intror eq_refl))).
  - exact (proj1 (cswap_selects_per_lane fe_ones fe_twos (mk256 0 1 1 0) L0
                    fe_ones_wf fe_twos_wf (or_introl eq_refl))).
Defined.

(** * Pruning twice *)

Lemma land_idem_r w c : Z.land (Z.land w c) c = Z.land w c.
Proof. now rewrite <- Z.land_assoc, Z.land_diag. Qed.

Lemma prune_top_idem w :
  Z.lor (Z.land (Z.lor (Z.land w 0x7FFFFFFF) 0x40000000) 0x7FFFFFFF) 0x40000000 =
  Z.lor (Z.land w 0x7FFFFFFF) 0x40000000.
Proof.
  rewrite Z.land_lor_distr_l, land_idem_r.
  change (Z.land 0x40000000 0x7FFFFFFF) with 0x40000000.
  now rewrite <- Z.lor_assoc, Z.lor_diag.
Qed.

Lemma prune_idem_lane (k : list Z) : prune (prune k) = prune k.
Proof.
  rewrite (prune_eq (prune k)), (prune_eq k).
  cbv beta iota delta [word nth Z.to_nat Pos.to_nat Pos.iter_op Nat.add].
  cbn [VAND VOR VSET164 Lane64].
  change (wrap64 4294967288) with 4294967288.
  change (wrap64 2147483647) with 0x7FFFFFFF.
  change (wrap64 1073741824) with 0x40000000.
  now rewrite land_idem_r, prune_top_idem.
Qed.

Lemma list256_ext (u v : list m256i) :
  (forall j, map (lane j) u = map (lane j) v) -> u = v.
Proof.
  revert v; induction u as [|x u IH]; intros [|y v] E.
  - reflexivity.
  - specialize (E L0). discriminate.
  - specialize (E L0). discriminate.
  - f_equal.
    + apply m256i_ext. intros j. specialize (E j). now inversion E.
    + apply IH. intros j. specialize (E j). now inversion E.
Qed.

Lemma prune_idem (k : list m256i) : prune (prune k) = prune k.
Proof.
  apply list256_ext. intros j. rewrite !lane_prune. apply prune_idem_lane.
Qed.

(** X20: Both scalar multiplications prune their scalar first, and pruning is
    idempotent: a scalar and its pruned form give the same public key and the
    same shared secret, whatever the low three bits and the top two bits of
    the scalar are. *)
Theorem pruned_scalar_same_result (base : Z -> Z -> LutPoint) (k : list m256i)
  (x : fe m256i) :
  prune (prune k) = prune k /\
  sharedsecret (prune k) x = sharedsecret k x /\
  keygen base (prune k) = keygen base k.
Proof.
  split; [apply prune_idem|].
  unfold sharedsecret, keygen, mon_mul_varbase_avx2, mon_mul_fixbase_avx2,
    ted_mul_fixbase_avx2.
  cbv zeta. rewrite !prune_idem. split; reflexivity.
Qed.

(** * From the twisted Edwards curve to the Montgomery curve *)

Lemma eqp_pow a b e : 0 <= e -> eqp a b -> eqp (a ^ e) (b ^ e).
Proof.
  intros He E. unfold eqp in *.
  rewrite <- (Z.mod_pow_l a), <- (Z.mod_pow_l b), E by discriminate. reflexivity.
Qed.

Lemma fixbase_map_lane (y z : fe Z) :
  fe_in folded_itv y -> fe_in folded_itv z ->
  let u := mpi29_gfp_mul_avx2 (mpi29_gfp_add_avx2 z y)
             (mpi29_gfp_inv_avx2 (mpi29_gfp_sbc_avx2 z y)) in
  fe_in folded_itv u /\
  eqp (val u) ((val z + val y) * (val z - val y) ^ (p25519 - 2)) /\
  ((val z - val y) mod p25519 <> 0 -> eqp (val u * (val z - val y)) (val z + val y)).
Proof.
  intros Hy Hz. cbv zeta.
  assert (Hz31 : fe_in word31_itv z) by (eapply fe_in_sub; [exact Hz | reflexivity]).
  assert (Hy31 : fe_in word31_itv y) by (eapply fe_in_sub; [exact Hy | reflexivity]).
  destruct (sbc_lane z y Hz31 Hy) as [Hd [kd Ed]].
  destruct (inv_lane _ (folded_wide _ Hd)) as [Hi Ei].
  destruct (add_lane z y Hz31 Hy31) as [_ Ea].
  pose proof (add_lane_folded z y Hz Hy) as Hs.
  destruct (mul_lane _ _ Hs (folded_wide _ Hi)) as [Hu [ku Eu]].
  assert (Ed' : eqp (val (mpi29_gfp_sbc_avx2 z y)) (val z - val y))
    by (eapply eqp_of_pstar; exact Ed).
  assert (V : eqp (val (mpi29_gfp_mul_avx2 (mpi29_gfp_add_avx2 z y)
                          (mpi29_gfp_inv_avx2 (mpi29_gfp_sbc_avx2 z y))))
                  ((val z + val y) * (val z - val y) ^ (p25519 - 2))).
  { rewrite (eqp_of_pstar _ _ _ Eu), Ea, Ei.
    rewrite (eqp_pow _ _ (p25519 - 2) ltac:(unfold p25519; lia) Ed'). reflexivity. }
  split; [exact Hu|]. split; [exact V|].
  intros Hnz. rewrite V.
  replace ((val z + val y) * (val z - val y) ^ (p25519 - 2) * (val z - val y))
    with ((val z + val y) * (val z - val y) ^ (p25519 - 1)).
  2:{ replace (p25519 - 1) with (p25519 - 2 + 1) by lia.
      rewrite Z.pow_add_r, Z.pow_1_r by (unfold p25519; lia).
      generalize ((val z - val y) ^ (p25519 - 2)). intros w. ring. }
  assert (F : eqp ((val z - val y) ^ (p25519 - 1)) 1)
    by (unfold eqp; rewrite (Z.fermat_nz _ _ prime_p25519 Hnz); reflexivity).
  rewrite F. apply eqp_eq. ring.
Qed.

(** X21: The map from the twisted Edwards curve to the Montgomery curve at the
    end of the fixed-base multiplication, u = (z + y) / (z - y): the public key
    is this map applied to the Edwards result, followed by final_modp; for a
    point whose y and z slots are in the folded range, in every lane the
    result u is in the folded range, u = (z + y) (z - y)^(p - 2) modulo p, so
    that u (z - y) = z + y modulo p unless z = y modulo p, and final_modp of u
    is congruent to u and below 2^255. *)
Theorem fixbase_to_montgomery (p : ProPoint m256i) (j : lane_id) :
  lanes_in folded_itv (p_y p) -> lanes_in folded_itv (p_z p) ->
  let y := val (fe_lane j (p_y p)) in
  let z := val (fe_lane j (p_z p)) in
  let u := fe_lane j (ted_to_mon p) in
  (forall base k, keygen base k = final_modp (ted_to_mon (ted_mul_fixbase_avx2 base k))) /\
  fe_in folded_itv u /\
  eqp (val u) ((z + y) * (z - y) ^ (p25519 - 2)) /\
  ((z - y) mod p25519 <> 0 -> eqp (val u * (z - y)) (z + y)) /\
  eqp (val (fe_lane j (final_modp (ted_to_mon p)))) (val u) /\
  0 <= val (fe_lane j (final_modp (ted_to_mon p))) < 2 ^ 255.
Proof.
  intros Hy Hz. cbv zeta.
  split; [reflexivity|].
  assert (Eu : fe_lane j (ted_to_mon p) =
               mpi29_gfp_mul_avx2
                 (mpi29_gfp_add_avx2 (fe_lane j (p_z p)) (fe_lane j (p_y p)))
                 (mpi29_gfp_inv_avx2
                    (mpi29_gfp_sbc_avx2 (fe_lane j (p_z p)) (fe_lane j (p_y p))))).
  { unfold ted_to_mon. cbv zeta. now rewrite lane_mul, lane_inv, lane_sbc, lane_add. }
  destruct (fixbase_map_lane _ _ (Hy j) (Hz j)) as (Hu & V & F). cbv zeta in Hu, V, F.
  rewrite <- Eu in Hu, V, F.
  split; [exact Hu|]. split; [exact V|]. split; [exact F|].
  rewrite lane_final_modp.
  destruct (final_modp_lane _ (folded_wide _ Hu)) as [Hin Hv].
  split; [exact Hv | now apply below255_val].
Qed.

Lemma fixbase_to_montgomery_witness :
  fe_in folded_itv (fe_lane L0 (ted_to_mon pt_max)).
Proof.
  exact (proj1 (proj2 (fixbase_to_montgomery pt_max L0 fe_max_folded fe_max_folded))).
Defined.
